(** * Posting settled invoices: a shallow embedding of the notification pipeline

    The pipeline is one [asyncAuto] task table: [validate], the four
    classification checks ([balancedOpen], [getNodes], [getPayment],
    [getTransfer]), then [details], [post] and [quiz].  The collaborators it
    requires from other packages (channel lookup, alias resolution, past
    payment subscription, the three message composers) are fields of an
    environment record; the two transport functions travel in the arguments,
    as in the source. *)

From Stdlib Require Import ZArith Ascii String List Bool Lia Permutation.
From stdpp Require Import base option list strings gmap.

Local Open Scope Z_scope.
Local Open Scope string_scope.
Local Open Scope list_scope.

(** ** Text escaping *)

Module Markup.

(** A replacement template of [String.prototype.replace]: [$&] stands for
    the matched text and [$$] for one dollar sign. *)
Fixpoint expand (template matched : string) : string :=
  match template with
  | EmptyString => EmptyString
  | String "$" (String "&" rest) => matched +:+ expand rest matched
  | String "$" (String "$" rest) => String "$" (expand rest matched)
  | String c rest => String c (expand rest matched)
  end.

(** Global replacement of every character of a class, left to right.  Texts
    are sequences of bytes; the characters of the class of [escape] are all
    below 128, so no byte of a longer encoded character is ever matched. *)
Fixpoint replace_all (cls : ascii -> bool) (template text : string)
    : string :=
  match text with
  | EmptyString => EmptyString
  | String c rest =>
      (if cls c then expand template (String c EmptyString)
       else String c EmptyString)
      +:+ replace_all cls template rest
  end.

Definition backslash : ascii := ascii_of_nat 92.

(** The members of the character class of the expression in [escape]. *)
Definition reserved : list ascii :=
  [ "_"; "*"; "["; "]"; "("; ")"; "~"; "`"; ">"; "#"; "+"; "-"; "=";
    "|"; "{"; "}"; "."; "!"; backslash ]%char.

Definition is_reserved (c : ascii) : bool := existsb (Ascii.eqb c) reserved.

(** The replacement text: a backslash, then the match. *)
Definition replacement : string := String backslash "$&".

Definition escape (text : string) : string :=
  replace_all is_reserved replacement text.

(** Reading an escaped text back: a backslash makes the next character
    literal. *)
Fixpoint unescape (text : string) : string :=
  match text with
  | EmptyString => EmptyString
  | String c rest =>
      if Ascii.eqb c backslash then
        match rest with
        | EmptyString => EmptyString
        | String d rest' => String d (unescape rest')
        end
      else String c (unescape rest)
  end.

(** Texts in which every reserved character is backslash-prefixed. *)
Inductive Escaped : string -> Prop :=
| Escaped_nil : Escaped EmptyString
| Escaped_plain c s :
    is_reserved c = false -> Escaped s -> Escaped (String c s)
| Escaped_prefixed c s :
    is_reserved c = true -> Escaped s ->
    Escaped (String backslash (String c s)).

End Markup.

(** ** Data model *)

(** Errors travel as a pair of a code and a reason token. *)
Definition error : Type := Z * string.

(** An authenticated node API object; only its identity matters here. *)
Inductive Lnd := LndHandle (n : nat).

(** One entry of [invoice.payments]. *)
Module Htlc.
Record t := mk {
  in_channel : string;
  is_held : bool;
  mtokens : string;
  tokens : Z;
}.
End Htlc.

Module Invoice.
Record t := mk {
  confirmed_at : option string;
  description : string;
  id : string;
  is_confirmed : bool;
  is_push : bool;
  payments : list Htlc.t;
  received : Z;
  received_mtokens : string;
}.
End Invoice.

(** An entry of [nodes]. *)
Module Node.
Record t := mk {
  from : string;
  lnd : Lnd;
  public_key : string;
}.
End Node.

Module Policy.
Record t := mk { public_key : string }.
End Policy.

(** The result of a channel lookup. *)
Module Channel.
Record t := mk { policies : list Policy.t }.
End Channel.

(** What alias resolution yields, and the shape of the fallback record. *)
Module Alias.
Record t := mk { id : string; alias : string }.
End Alias.

(** The proposal found by [balancedOpenRequest]. *)
Module Proposal.
Record t := mk {
  capacity : Z;
  fee_rate : Z;
  partner_public_key : string;
}.
End Proposal.

(** The payment reported by a past payment subscription. *)
Module PastPayment.
Record t := mk {
  fee_mtokens : string;
  hops : list string;
}.
End PastPayment.

(** The terminal event of a past payment subscription. *)
Inductive PastEvent :=
| confirmed (payment : PastPayment.t)
| error_event
| failed.

(** What a message composer returns. *)
Module Descriptor.
Record t := mk {
  icon : string;
  message : string;
  quiz : option (list string);
  title : option string;
}.
End Descriptor.

Module SendOptions.
Record t := mk { parse_mode : string }.
End SendOptions.

Definition sendOptions : SendOptions.t := SendOptions.mk "MarkdownV2".

(** The arguments of the exported function.  [None] is an absent field; for
    [nodes], [None] is any value that is not an array. *)
Module Args.
Record t := mk {
  from : option string;
  id : option Z;
  invoice : option Invoice.t;
  key : option string;
  lnd : option Lnd;
  nodes : option (list Node.t);
  quiz : option (list (option string) -> nat -> option string -> error + unit);
  send : option (Z -> string -> SendOptions.t -> error + unit);
}.
End Args.

(** The packages the module requires; [randomIndex n] is the index that
    [Math.floor(Math.random() * n)] draws. *)
Record Env := {
  balancedOpenRequest :
    option string -> bool -> list Htlc.t -> string -> option Proposal.t;
  getChannel : Lnd -> string -> error + Channel.t;
  getNodeAlias : Lnd -> string -> error + Alias.t;
  subscribeToPastPayment : Lnd -> string -> PastEvent;
  getBalancedOpenMessage : Lnd -> Z -> string -> Z -> error + Descriptor.t;
  getRebalanceMessage :
    Lnd -> string -> list string -> list Htlc.t -> string ->
    error + Descriptor.t;
  getReceivedMessage :
    Lnd -> string -> list Htlc.t -> Z -> list Alias.t -> error + Descriptor.t;
  randomIndex : nat -> nat;
}.

(** ** Observable calls *)

Inductive event :=
| EvGetChannel (lnd : Lnd) (id : string)
| EvGetNodeAlias (lnd : Lnd) (id : string)
| EvSubscribeToPastPayment (lnd : Lnd) (id : string)
| EvGetBalancedOpenMessage (lnd : Lnd) (capacity : Z) (from : string) (rate : Z)
| EvGetRebalanceMessage (lnd : Lnd) (fee_mtokens : string) (hops : list string)
    (payments : list Htlc.t) (received_mtokens : string)
| EvGetReceivedMessage (lnd : Lnd) (description : string)
    (payments : list Htlc.t) (received : Z) (via : list Alias.t)
| EvSend (id : Z) (text : string) (options : SendOptions.t)
| EvQuiz (answers : list (option string)) (correct : nat)
    (question : option string).

Definition is_probe (e : event) : bool :=
  match e with
  | EvGetChannel _ _ | EvGetNodeAlias _ _ | EvSubscribeToPastPayment _ _ => true
  | _ => false
  end.

Definition is_compose (e : event) : bool :=
  match e with
  | EvGetBalancedOpenMessage _ _ _ _ | EvGetRebalanceMessage _ _ _ _ _
  | EvGetReceivedMessage _ _ _ _ _ => true
  | _ => false
  end.

Definition is_send (e : event) : bool :=
  match e with EvSend _ _ _ => true | _ => false end.

Definition is_quiz (e : event) : bool :=
  match e with EvQuiz _ _ _ => true | _ => false end.

(** ** Task computations: the calls made, then how the callback is invoked *)

Inductive outcome (A : Type) :=
| Ok (a : A)
| Err (e : error)
| Thrown (m : string).
Arguments Ok {A} a.
Arguments Err {A} e.
Arguments Thrown {A} m.

Definition M (A : Type) : Type := list event * outcome A.

Definition ret {A} (a : A) : M A := ([], Ok a).

Definition bind {A B} (k : A -> M B) (m : M A) : M B :=
  match m with
  | (evs, Ok a) => let '(evs', o) := k a in (evs ++ evs', o)
  | (evs, Err e) => (evs, Err e)
  | (evs, Thrown s) => (evs, Thrown s)
  end.

#[global] Instance M_ret : MRet M := @ret.
#[global] Instance M_bind : MBind M := @bind.

Definition fail {A} (e : error) : M A := ([], Err e).
Definition throw {A} (m : string) : M A := ([], Thrown m).
Definition log (e : event) : M unit := ([e], Ok tt).

(** A collaborator call with a node-style callback or a promise. *)
Definition call {A} (e : event) (r : error + A) : M A :=
  ([e], match r with inl err => Err err | inr a => Ok a end).

(** Reading a property of a value that may be [undefined]. *)
Definition deref {A} (o : option A) : M A :=
  match o with Some a => ret a | None => throw "TypeError" end.

(** [asyncMap], with the iteratees calling back one after the other in
    collection order: the results in collection order, or the first error.
    The calls that the iteratees of the remaining items make after an error
    are not recorded. *)
Fixpoint asyncMap {A B} (coll : list A) (iteratee : A -> M B) : M (list B) :=
  match coll with
  | [] => ret []
  | x :: xs =>
      y ← iteratee x; ys ← asyncMap xs iteratee; ret (y :: ys)
  end.

(** [asyncDetect]: the truth test is started on every item; the result is
    an item that passed, if any.  Of several items that pass it is the
    first in collection order, as when the tests call back in that
    order. *)
Fixpoint asyncDetect {A} (coll : list A) (iteratee : A -> M bool)
    : M (option A) :=
  match coll with
  | [] => ret None
  | x :: xs =>
      b ← iteratee x; r ← asyncDetect xs iteratee;
      ret (if b : bool then Some x else r)
  end.

(** [Array.from(new Set(arr))]: first occurrences, in order. *)
Fixpoint uniq_from (seen arr : list string) : list string :=
  match arr with
  | [] => []
  | x :: rest =>
      if existsb (String.eqb x) seen then uniq_from seen rest
      else x :: uniq_from (x :: seen) rest
  end.

Definition uniq (arr : list string) : list string := uniq_from [] arr.

(** ** Quiz randomisation *)

Definition minQuizLength : nat := 2.
Definition maxQuizLength : nat := 10.

(** The [map] callback of the [quiz] task: slot [correct] receives the first
    answer, slot 0 receives the answer that was at [correct]. *)
Definition place (answer replace : option string) (correct : nat)
    (i : nat) (n : string) : option string :=
  if Nat.eqb i correct then answer
  else if Nat.eqb i 0 then replace
  else Some n.

(** ** The task table *)

(** What a finished task leaves in the results object. *)
Inductive value :=
| VUndefined
| VProposal (proposal : Proposal.t)
| VAliases (via : list Alias.t)
| VPayment (payment : PastPayment.t)
| VNode (node : Node.t)
| VDetails (details : Descriptor.t).

Definition truthy (v : value) : bool :=
  match v with VUndefined => false | _ => true end.

(** Destructuring a key of the results object. *)
Definition get (results : gmap string value) (k : string) : value :=
  default VUndefined (results !! k).

Definition truthy_string (s : option string) : bool :=
  match s with
  | Some s => negb (String.eqb s EmptyString)
  | None => false
  end.

Definition truthy_number (n : option Z) : bool :=
  match n with Some n => negb (Z.eqb n 0) | None => false end.

Definition present {A} (o : option A) : bool :=
  match o with Some _ => true | None => false end.

(** An entry of the object handed to [asyncAuto]: the keys a task waits
    for and the function to run on the results so far. *)
Definition task : Type := list string * (gmap string value -> M value).

Section Tasks.

Context (env : Env).
Context (args : Args.t).

(** Check arguments *)
Definition validate : M value :=
  if negb (truthy_string (Args.from args)) then
    fail (400, "ExpectedFromNameToPostSettledInvoice")
  else if negb (truthy_number (Args.id args)) then
    fail (400, "ExpectedUserIdNumberToPostSettledInvoice")
  else if negb (present (Args.invoice args)) then
    fail (400, "ExpectedInvoiceToPostSettledInvoice")
  else if negb (truthy_string (Args.key args)) then
    fail (400, "ExpectedNodeIdentityKeyToPostSettledInvoice")
  else if negb (present (Args.lnd args)) then
    fail (400, "ExpectedLndObjectToPostSettledInvoice")
  else if negb (present (Args.nodes args)) then
    fail (400, "ExpectedArrayOfNodesToPostSettledInvoice")
  else if negb (present (Args.quiz args)) then
    fail (400, "ExpectedSendQuizFunctionToPostSettledInvoice")
  else if negb (present (Args.send args)) then
    fail (400, "ExpectedSendFunctionToPostSettledInvoice")
  else ret VUndefined.

(** Parse balanced open request details if present *)
Definition balancedOpen : M value :=
  invoice ← deref (Args.invoice args);
  if negb (Invoice.is_confirmed invoice) then ret VUndefined
  else
    match
      balancedOpenRequest env (Invoice.confirmed_at invoice)
        (Invoice.is_push invoice) (Invoice.payments invoice)
        (Invoice.received_mtokens invoice)
    with
    | Some proposal => ret (VProposal proposal)
    | None => ret VUndefined
    end.

(** The iteratee of [getNodes] for one channel id. *)
Definition getNode (lnd : Lnd) (key : string) (id : string) : M Alias.t :=
  _ ← log (EvGetChannel lnd id);
  match getChannel env lnd id with
  | inl err => ret (Alias.mk id id)
  | inr res =>
      match
        List.find (fun n => negb (String.eqb (Policy.public_key n) key))
          (Channel.policies res)
      with
      | None => throw "TypeError"
      | Some peer =>
          call (EvGetNodeAlias lnd (Policy.public_key peer))
            (getNodeAlias env lnd (Policy.public_key peer))
      end
  end.

(** Get the node aliases that forwarded this *)
Definition getNodes : M value :=
  invoice ← deref (Args.invoice args);
  lnd ← deref (Args.lnd args);
  key ← deref (Args.key args);
  let inChannels := uniq (map Htlc.in_channel (Invoice.payments invoice)) in
  via ← asyncMap inChannels (getNode lnd key);
  ret (VAliases via).

(** Find associated payment *)
Definition getPayment : M value :=
  invoice ← deref (Args.invoice args);
  if negb (Invoice.is_confirmed invoice) then ret VUndefined
  else
    lnd ← deref (Args.lnd args);
    _ ← log (EvSubscribeToPastPayment lnd (Invoice.id invoice));
    match subscribeToPastPayment env lnd (Invoice.id invoice) with
    | confirmed payment => ret (VPayment payment)
    | error_event => ret VUndefined
    | failed => ret VUndefined
    end.

(** The truth test of [getTransfer] for one other node. *)
Definition paidFrom (id : string) (n : Node.t) : M bool :=
  _ ← log (EvSubscribeToPastPayment (Node.lnd n) id);
  match subscribeToPastPayment env (Node.lnd n) id with
  | confirmed payment => ret true
  | error_event => ret false
  | failed => ret false
  end.

(** Find associated transfer *)
Definition getTransfer : M value :=
  invoice ← deref (Args.invoice args);
  if negb (Invoice.is_confirmed invoice) then ret VUndefined
  else
    nodes ← deref (Args.nodes args);
    key ← deref (Args.key args);
    let otherNodes :=
      List.filter (fun n => negb (String.eqb (Node.public_key n) key)) nodes in
    found ← asyncDetect otherNodes (paidFrom (Invoice.id invoice));
    ret (match found with Some n => VNode n | None => VUndefined end).

(** Details for message *)
Definition details (results : gmap string value) : M value :=
  let balancedOpen := get results "balancedOpen" in
  let getNodes := get results "getNodes" in
  let getPayment := get results "getPayment" in
  let getTransfer := get results "getTransfer" in
  invoice ← deref (Args.invoice args);
  if negb (Invoice.is_confirmed invoice) then ret VUndefined
  else if truthy getTransfer then ret VUndefined
  else if truthy balancedOpen then
    lnd ← deref (Args.lnd args);
    match balancedOpen with
    | VProposal p =>
        d ← call
          (EvGetBalancedOpenMessage lnd (Proposal.capacity p)
             (Proposal.partner_public_key p) (Proposal.fee_rate p))
          (getBalancedOpenMessage env lnd (Proposal.capacity p)
             (Proposal.partner_public_key p) (Proposal.fee_rate p));
        ret (VDetails d)
    | _ => throw "TypeError"
    end
  else if truthy getPayment then
    lnd ← deref (Args.lnd args);
    match getPayment with
    | VPayment payment =>
        d ← call
          (EvGetRebalanceMessage lnd (PastPayment.fee_mtokens payment)
             (PastPayment.hops payment) (Invoice.payments invoice)
             (Invoice.received_mtokens invoice))
          (getRebalanceMessage env lnd (PastPayment.fee_mtokens payment)
             (PastPayment.hops payment) (Invoice.payments invoice)
             (Invoice.received_mtokens invoice));
        ret (VDetails d)
    | _ => throw "TypeError"
    end
  else
    lnd ← deref (Args.lnd args);
    match getNodes with
    | VAliases via =>
        d ← call
          (EvGetReceivedMessage lnd (Invoice.description invoice)
             (Invoice.payments invoice) (Invoice.received invoice) via)
          (getReceivedMessage env lnd (Invoice.description invoice)
             (Invoice.payments invoice) (Invoice.received invoice) via);
        ret (VDetails d)
    | _ => throw "TypeError"
    end.

(** Post invoice *)
Definition post (results : gmap string value) : M value :=
  match get results "details" with
  | VUndefined => ret VUndefined
  | VDetails details =>
      nodes ← deref (Args.nodes args);
      key ← deref (Args.key args);
      from ← deref (Args.from args);
      id ← deref (Args.id args);
      send ← deref (Args.send args);
      let receivedOnNode :=
        if Nat.ltb (length [key]) (length nodes) then " - " +:+ from
        else EmptyString in
      let text :=
        Descriptor.icon details +:+ " " +:+ Descriptor.message details in
      _ ← call
        (EvSend id (text +:+ Markup.escape receivedOnNode) sendOptions)
        (send id (text +:+ Markup.escape receivedOnNode) sendOptions);
      ret VUndefined
  | _ => throw "TypeError"
  end.

(** Post quiz *)
Definition quiz (results : gmap string value) : M value :=
  match get results "details" with
  | VUndefined => ret VUndefined
  | VDetails details =>
      match Descriptor.quiz details with
      | None => ret VUndefined
      | Some choices =>
          if Nat.ltb (length choices) minQuizLength then ret VUndefined
          else if Nat.ltb maxQuizLength (length choices) then ret VUndefined
          else
            let answer := choices !! 0%nat in
            let correct := randomIndex env (length choices) in
            let replace := choices !! correct in
            let answers := imap (place answer replace correct) choices in
            quiz ← deref (Args.quiz args);
            _ ← call
              (EvQuiz answers correct (Descriptor.title details))
              (quiz answers correct (Descriptor.title details));
            ret VUndefined
      end
  | _ => throw "TypeError"
  end.

(** The object handed to [asyncAuto]. *)
Definition tasks : list (string * task) :=
  [ ("validate", ([], fun _ => validate));
    ("balancedOpen", (["validate"], fun _ => balancedOpen));
    ("getNodes", (["validate"], fun _ => getNodes));
    ("getPayment", (["validate"], fun _ => getPayment));
    ("getTransfer", (["validate"], fun _ => getTransfer));
    ("details",
      (["balancedOpen"; "getNodes"; "getPayment"; "getTransfer"], details));
    ("post", (["details"; "getPayment"], post));
    ("quiz", (["details"; "post"], quiz)) ].

End Tasks.

(** ** The scheduler

    [asyncAuto] starts a task once every key it waits for is in the results
    object, stores what the task passes to its callback under the task's
    key, and on the first error calls back with it and starts nothing more.
    A schedule lists task keys in the order in which the tasks complete; a
    key whose task cannot complete at that point (unknown, already done,
    still waiting) is passed over.  The calls a task makes are recorded when
    it completes.

    A task is one step of a run.  The order in time of the callbacks inside
    one task, the calls an unfinished task still makes after the run has
    failed, and the Error in which the library wraps a rejection of the
    [async] functions [post] and [quiz] that is not an Error are not part
    of the embedding. *)

(** How a run stops short: an error passed to a callback reaches the final
    callback and rejects the call; an exception thrown inside a callback
    reaches no callback at all.  [Rejected e] records the error the task
    handed over, [Crashed m] the exception; nothing completes after
    either. *)
Inductive failure :=
| Rejected (e : error)
| Crashed (m : string).

Record state := mkState {
  results : gmap string value;
  trace : list event;
  failed_task : option (string * failure);
}.

Definition initial : state := mkState ∅ [] None.

Fixpoint assoc {A} (k : string) (tbl : list (string * A)) : option A :=
  match tbl with
  | [] => None
  | (k', x) :: rest => if String.eqb k k' then Some x else assoc k rest
  end.

Definition completed (r : gmap string value) (k : string) : bool :=
  match r !! k with Some _ => true | None => false end.

Definition ready (tbl : list (string * task)) (st : state) (k : string)
    : option task :=
  match failed_task st, assoc k tbl with
  | None, Some (deps, body) =>
      if negb (completed (results st) k)
         && forallb (completed (results st)) deps
      then Some (deps, body) else None
  | _, _ => None
  end.

Definition complete (tbl : list (string * task)) (st : state) (k : string)
    : state :=
  match ready tbl st k with
  | None => st
  | Some (_, body) =>
      match body (results st) with
      | (evs, Ok v) =>
          mkState (<[k := v]> (results st)) (trace st ++ evs) None
      | (evs, Err e) =>
          mkState (results st) (trace st ++ evs) (Some (k, Rejected e))
      | (evs, Thrown m) =>
          mkState (results st) (trace st ++ evs) (Some (k, Crashed m))
      end
  end.

Definition asyncAuto (tbl : list (string * task)) (schedule : list string)
    : state :=
  foldl (complete tbl) initial schedule.

(** The state of the call: tasks are still due, the call has resolved, or
    a task has stopped short.  After [Crashed] the call is not resolved;
    whether it is rejected depends on where the exception lands. *)
Inductive status :=
| Pending
| Resolved
| Failed (f : failure).

Definition status_of (tbl : list (string * task)) (st : state) : status :=
  match failed_task st with
  | Some (_, f) => Failed f
  | None =>
      if forallb (completed (results st)) (map fst tbl) then Resolved
      else Pending
  end.

(** The exported function, along one completion order. *)
Definition postSettledInvoice (env : Env) (args : Args.t)
    (schedule : list string) : state :=
  asyncAuto (tasks env args) schedule.

Definition settled (env : Env) (args : Args.t) (schedule : list string)
    : status :=
  status_of (tasks env args) (postSettledInvoice env args schedule).

(** The order in which the keys appear in the source. *)
Definition source_order : list string :=
  [ "validate"; "balancedOpen"; "getNodes"; "getPayment"; "getTransfer";
    "details"; "post"; "quiz" ].

(** Whether the task under key [k] has been run, successfully or not. *)
Definition ran (st : state) (k : string) : bool :=
  completed (results st) k ||
  match failed_task st with
  | Some (k', _) => String.eqb k' k
  | None => false
  end.

(** Either something failed or the tasks [ks] have all stored a result. *)
Definition done_with (st : state) (ks : list string) : Prop :=
  failed_task st <> None \/ forall k, k ∈ ks -> is_Some (results st !! k).

(** ** What a run records *)

Section History.

Context (tbl : list (string * task)).

(** A task function reads only the keys it declares. *)
Definition reads_declared : Prop :=
  forall k deps body, assoc k tbl = Some (deps, body) ->
  forall r r' : gmap string value,
    (forall d, d ∈ deps -> r !! d = r' !! d) -> body r = body r'.

Definition events_of (r : gmap string value) (k : string) : list event :=
  match assoc k tbl with
  | Some (_, body) => fst (body r)
  | None => []
  end.

(** How the callback of task [k] was invoked, as the state shows it;
    [later] are the tasks that completed after it. *)
Definition recorded (st : state) (k : string) (o : outcome value)
    (later : list string) : Prop :=
  match o with
  | Ok v => results st !! k = Some v
  | Err e =>
      results st !! k = None /\ failed_task st = Some (k, Rejected e) /\
      later = []
  | Thrown m =>
      results st !! k = None /\ failed_task st = Some (k, Crashed m) /\
      later = []
  end.

(** [order] lists the tasks that ran, in completion order. *)
Record history (st : state) (order : list string) : Prop := {
  h_nodup : NoDup order;
  h_dom : forall k, is_Some (results st !! k) -> k ∈ order;
  h_failed : forall k f, failed_task st = Some (k, f) ->
    k ∈ order /\ results st !! k = None;
  h_task : forall l1 k l2, order = l1 ++ k :: l2 ->
    exists deps body, assoc k tbl = Some (deps, body) /\
      (forall d, d ∈ deps -> d ∈ l1 /\ is_Some (results st !! d)) /\
      recorded st k (snd (body (results st))) l2;
  h_trace : trace st = flat_map (events_of (results st)) order;
}.

End History.

(** A computation all of whose calls are of one kind. *)
Definition only (P : event -> bool) {A} (m : M A) : Prop :=
  Forall (fun e => P e = true) (fst m).

(** ** The classification, in the words of the specification *)

Inductive category :=
| NoCategory
| Transfer
| BalancedOpen (proposal : Proposal.t)
| Rebalance (payment : PastPayment.t)
| Received (via : list Alias.t).

(** Whether the past payment probe of a node confirms. *)
Definition confirms (env : Env) (id : string) (n : Node.t) : bool :=
  match subscribeToPastPayment env (Node.lnd n) id with
  | confirmed _ => true
  | _ => false
  end.

(** The transfer probe: some controlled node other than the receiving one
    has a settled payment for the invoice. *)
Definition transfer_probe (env : Env) (key : string) (nodes : list Node.t)
    (id : string) : bool :=
  existsb (confirms env id)
    (List.filter (fun n => negb (String.eqb (Node.public_key n) key)) nodes).

(** The rebalance probe: the receiving node itself has a settled payment
    for the invoice. *)
Definition rebalance_probe (env : Env) (lnd : Lnd) (id : string)
    : option PastPayment.t :=
  match subscribeToPastPayment env lnd id with
  | confirmed payment => Some payment
  | _ => None
  end.

Definition balanced_open_proposal (env : Env) (invoice : Invoice.t)
    : option Proposal.t :=
  balancedOpenRequest env (Invoice.confirmed_at invoice)
    (Invoice.is_push invoice) (Invoice.payments invoice)
    (Invoice.received_mtokens invoice).

(** Transfer, then BalancedOpen, then Rebalance, then Received. *)
Definition precedence (transfer : bool) (proposal : option Proposal.t)
    (rebalance : option PastPayment.t) (via : list Alias.t) : category :=
  if transfer then Transfer
  else
    match proposal, rebalance with
    | Some p, _ => BalancedOpen p
    | None, Some payment => Rebalance payment
    | None, None => Received via
    end.

(** The composer each category delegates to. *)
Definition composer (env : Env) (lnd : Lnd) (invoice : Invoice.t)
    (c : category) : M value :=
  match c with
  | NoCategory => ret VUndefined
  | Transfer => ret VUndefined
  | BalancedOpen p =>
      d ← call
        (EvGetBalancedOpenMessage lnd (Proposal.capacity p)
           (Proposal.partner_public_key p) (Proposal.fee_rate p))
        (getBalancedOpenMessage env lnd (Proposal.capacity p)
           (Proposal.partner_public_key p) (Proposal.fee_rate p));
      ret (VDetails d)
  | Rebalance payment =>
      d ← call
        (EvGetRebalanceMessage lnd (PastPayment.fee_mtokens payment)
           (PastPayment.hops payment) (Invoice.payments invoice)
           (Invoice.received_mtokens invoice))
        (getRebalanceMessage env lnd (PastPayment.fee_mtokens payment)
           (PastPayment.hops payment) (Invoice.payments invoice)
           (Invoice.received_mtokens invoice));
      ret (VDetails d)
  | Received via =>
      d ← call
        (EvGetReceivedMessage lnd (Invoice.description invoice)
           (Invoice.payments invoice) (Invoice.received invoice) via)
        (getReceivedMessage env lnd (Invoice.description invoice)
           (Invoice.payments invoice) (Invoice.received invoice) via);
      ret (VDetails d)
  end.

(** ** Required arguments *)

Inductive field :=
| FFrom | FId | FInvoice | FKey | FLnd | FNodes | FQuiz | FSend.

#[global] Instance field_eq_dec : EqDecision field.
Proof. solve_decision. Defined.

(** The order in which [validate] looks at the fields. *)
Definition fields : list field :=
  [FFrom; FId; FInvoice; FKey; FLnd; FNodes; FQuiz; FSend].

(** A field that was not passed (for [nodes]: is not an array). *)
Definition absent (args : Args.t) (f : field) : Prop :=
  match f with
  | FFrom => Args.from args = None
  | FId => Args.id args = None
  | FInvoice => Args.invoice args = None
  | FKey => Args.key args = None
  | FLnd => Args.lnd args = None
  | FNodes => Args.nodes args = None
  | FQuiz => Args.quiz args = None
  | FSend => Args.send args = None
  end.

(** A field that passes its check. *)
Definition accepted (args : Args.t) (f : field) : bool :=
  match f with
  | FFrom => truthy_string (Args.from args)
  | FId => truthy_number (Args.id args)
  | FInvoice => present (Args.invoice args)
  | FKey => truthy_string (Args.key args)
  | FLnd => present (Args.lnd args)
  | FNodes => present (Args.nodes args)
  | FQuiz => present (Args.quiz args)
  | FSend => present (Args.send args)
  end.

Definition reason_token (f : field) : string :=
  match f with
  | FFrom => "ExpectedFromNameToPostSettledInvoice"
  | FId => "ExpectedUserIdNumberToPostSettledInvoice"
  | FInvoice => "ExpectedInvoiceToPostSettledInvoice"
  | FKey => "ExpectedNodeIdentityKeyToPostSettledInvoice"
  | FLnd => "ExpectedLndObjectToPostSettledInvoice"
  | FNodes => "ExpectedArrayOfNodesToPostSettledInvoice"
  | FQuiz => "ExpectedSendQuizFunctionToPostSettledInvoice"
  | FSend => "ExpectedSendFunctionToPostSettledInvoice"
  end.

(** The first field, in checking order, that fails its check. *)
Definition first_rejected (args : Args.t) : option field :=
  List.find (fun f => negb (accepted args f)) fields.

(** The state in which the pipeline stops when [validate] calls back with
    an error. *)
Definition rejected_at_validate (e : error) : state :=
  mkState ∅ [] (Some ("validate", Rejected e)).

(** ** Scenarios

    Concrete collaborators and arguments on which the properties below are
    exercised. *)

Module Scenario.

Definition me : string := "02aa".
Definition peer : string := "03bb".
Definition sibling : string := "02cc".

Definition own : Lnd := LndHandle 0.
Definition other : Lnd := LndHandle 1.

Definition routed : Descriptor.t :=
  Descriptor.mk "I" "Received 2 via peerA"
    (Some ["peerA"; "peerB"; "peerC"; "peerD"]) (Some "Who routed this?").

(** Channels are known, nobody paid this invoice from a controlled node,
    and the received message carries a quiz of four answers. *)
Definition env : Env := {|
  balancedOpenRequest := fun _ _ _ _ => None;
  getChannel := fun _ _ => inr (Channel.mk [Policy.mk me; Policy.mk peer]);
  getNodeAlias := fun _ id => inr (Alias.mk id "peerA");
  subscribeToPastPayment := fun _ _ => failed;
  getBalancedOpenMessage := fun _ _ _ _ => inl (503, "UnexpectedError");
  getRebalanceMessage := fun _ _ _ _ _ => inl (503, "UnexpectedError");
  getReceivedMessage := fun _ _ _ _ _ => inr routed;
  randomIndex := fun _ => 2%nat;
|}.

Definition htlcs : list Htlc.t :=
  [ Htlc.mk "61x1" false "1000" 1; Htlc.mk "61x2" false "1000" 1 ].

Definition invoice : Invoice.t :=
  Invoice.mk (Some "2024-01-01T00:00:00.000Z") "coffee" "c0ffee" true false
    htlcs 2 "2000".

Definition delivered : error + unit := inr tt.

Definition two_nodes : list Node.t :=
  [ Node.mk "alpha" own me; Node.mk "beta" other sibling ].

Definition args : Args.t :=
  Args.mk (Some "alpha_1") (Some 7) (Some invoice) (Some me) (Some own)
    (Some two_nodes) (Some (fun _ _ _ => delivered))
    (Some (fun _ _ _ => delivered)).

Definition stored_details : gmap string value :=
  {[ "details" := VDetails routed ]}.

(** A crafted invoice: the receiving node paid it itself and it also has
    the signature of a balanced open. *)
Definition proposal : Proposal.t := Proposal.mk 2000000 1 peer.

Definition circular : PastPayment.t := PastPayment.mk "30" [peer; me].

Definition opening : Descriptor.t :=
  Descriptor.mk "B" "Balanced open proposed" None None.

Definition crafted : Env := {|
  balancedOpenRequest := fun _ _ _ _ => Some proposal;
  getChannel := fun _ _ => inr (Channel.mk [Policy.mk me; Policy.mk peer]);
  getNodeAlias := fun _ id => inr (Alias.mk id "peerA");
  subscribeToPastPayment := fun lnd _ =>
    match lnd with LndHandle 0 => confirmed circular | _ => failed end;
  getBalancedOpenMessage := fun _ _ _ _ => inr opening;
  getRebalanceMessage := fun _ _ _ _ _ => inl (503, "UnexpectedError");
  getReceivedMessage := fun _ _ _ _ _ => inl (503, "UnexpectedError");
  randomIndex := fun _ => 0%nat;
|}.

(** The node handle was not passed. *)
Definition no_handle : Args.t :=
  Args.mk (Some "alpha_1") (Some 7) (Some invoice) (Some me) None
    (Some two_nodes) (Some (fun _ _ _ => delivered))
    (Some (fun _ _ _ => delivered)).

(** Every policy of the channel carries the receiving key. *)
Definition looped : Env := {|
  balancedOpenRequest := fun _ _ _ _ => None;
  getChannel := fun _ _ => inr (Channel.mk [Policy.mk me; Policy.mk me]);
  getNodeAlias := fun _ id => inr (Alias.mk id "peerA");
  subscribeToPastPayment := fun _ _ => failed;
  getBalancedOpenMessage := fun _ _ _ _ => inl (503, "UnexpectedError");
  getRebalanceMessage := fun _ _ _ _ _ => inl (503, "UnexpectedError");
  getReceivedMessage := fun _ _ _ _ _ => inr routed;
  randomIndex := fun _ => 0%nat;
|}.



(** The invoice was paid by the other controlled node. *)
Definition sent : PastPayment.t := PastPayment.mk "0" [me].

Definition transfer : Env := {|
  balancedOpenRequest := fun _ _ _ _ => None;
  getChannel := fun _ _ => inr (Channel.mk [Policy.mk me; Policy.mk sibling]);
  getNodeAlias := fun _ id => inr (Alias.mk id "beta");
  subscribeToPastPayment := fun lnd _ =>
    match lnd with LndHandle 1 => confirmed sent | _ => failed end;
  getBalancedOpenMessage := fun _ _ _ _ => inl (503, "UnexpectedError");
  getRebalanceMessage := fun _ _ _ _ _ => inl (503, "UnexpectedError");
  getReceivedMessage := fun _ _ _ _ _ => inr routed;
  randomIndex := fun _ => 0%nat;
|}.

(** The received message carries a quiz but no title. *)
Definition untitled : Descriptor.t :=
  Descriptor.mk "I" "Received 2" (Some ["peerA"; "peerB"]) None.

Definition anonymous : Env := {|
  balancedOpenRequest := fun _ _ _ _ => None;
  getChannel := fun _ _ => inr (Channel.mk [Policy.mk me; Policy.mk peer]);
  getNodeAlias := fun _ id => inr (Alias.mk id "peerA");
  subscribeToPastPayment := fun _ _ => failed;
  getBalancedOpenMessage := fun _ _ _ _ => inl (503, "UnexpectedError");
  getRebalanceMessage := fun _ _ _ _ _ => inl (503, "UnexpectedError");
  getReceivedMessage := fun _ _ _ _ _ => inr untitled;
  randomIndex := fun _ => 1%nat;
|}.

(** The received message carries a quiz with a single answer. *)
Definition lonely : Descriptor.t :=
  Descriptor.mk "I" "Received 2" (Some ["peerA"]) (Some "Who routed this?").

Definition single_answer : Env := {|
  balancedOpenRequest := fun _ _ _ _ => None;
  getChannel := fun _ _ => inr (Channel.mk [Policy.mk me; Policy.mk peer]);
  getNodeAlias := fun _ id => inr (Alias.mk id "peerA");
  subscribeToPastPayment := fun _ _ => failed;
  getBalancedOpenMessage := fun _ _ _ _ => inl (503, "UnexpectedError");
  getRebalanceMessage := fun _ _ _ _ _ => inl (503, "UnexpectedError");
  getReceivedMessage := fun _ _ _ _ _ => inr lonely;
  randomIndex := fun _ => 0%nat;
|}.

(** An invoice that is held, not yet settled. *)
Definition held : Invoice.t :=
  Invoice.mk None "coffee" "c0ffee" false false
    [ Htlc.mk "61x1" true "1000" 1 ] 0 "0".

Definition held_args : Args.t :=
  Args.mk (Some "alpha_1") (Some 7) (Some held) (Some me) (Some own)
    (Some [Node.mk "alpha" own me]) (Some (fun _ _ _ => delivered))
    (Some (fun _ _ _ => delivered)).

(** The rebalance probe answers first, the balanced open check last. *)
Definition rebalance_first : list string :=
  [ "validate"; "getPayment"; "getTransfer"; "getNodes"; "balancedOpen";
    "details"; "post"; "quiz" ].

End Scenario.

(** ** Measures used in the properties of the parts *)

(** How many characters of a text are reserved. *)
Definition reserved_count (s : string) : nat :=
  length (List.filter Markup.is_reserved (list_ascii_of_string s)).

Definition is_getChannel (e : event) : bool :=
  match e with EvGetChannel _ _ => true | _ => false end.

(** What resolving channel [id] can yield: the fallback after a failed
    lookup, or the alias of the first policy that is not the receiving
    node's. *)
Definition resolves (env : Env) (lnd : Lnd) (key : string) (id : string)
    (a : Alias.t) : Prop :=
  (exists err, getChannel env lnd id = inl err /\ a = Alias.mk id id) \/
  (exists res peer,
     getChannel env lnd id = inr res /\
     List.find (fun n => negb (String.eqb (Policy.public_key n) key))
       (Channel.policies res) = Some peer /\
     getNodeAlias env lnd (Policy.public_key peer) = inr a).

(** A value a message composer of the environment returned. *)
Definition composed_by (env : Env) (res : error + Descriptor.t) : Prop :=
  (exists lnd capacity from rate,
     getBalancedOpenMessage env lnd capacity from rate = res) \/
  (exists lnd fee_mtokens hops payments received_mtokens,
     getRebalanceMessage env lnd fee_mtokens hops payments received_mtokens
     = res) \/
  (exists lnd description payments received via,
     getReceivedMessage env lnd description payments received via = res).

(** What each check may leave in the results object. *)
Definition proposal_shape (v : value) : Prop :=
  v = VUndefined \/ exists p, v = VProposal p.

Definition aliases_shape (v : value) : Prop := exists via, v = VAliases via.

Definition payment_shape (v : value) : Prop :=
  v = VUndefined \/ exists payment, v = VPayment payment.

Definition node_shape (v : value) : Prop :=
  v = VUndefined \/ exists n, v = VNode n.

(** Every task a task waits for, directly or through another task. *)
Definition waits_for (k : string) : list string :=
  if String.eqb k "quiz" then
    [ "post"; "details"; "balancedOpen"; "getNodes"; "getPayment";
      "getTransfer"; "validate" ]
  else if String.eqb k "post" then
    [ "details"; "balancedOpen"; "getNodes"; "getPayment"; "getTransfer";
      "validate" ]
  else if String.eqb k "details" then
    [ "balancedOpen"; "getNodes"; "getPayment"; "getTransfer"; "validate" ]
  else if String.eqb k "validate" then []
  else [ "validate" ].

(** * Properties *)

(** ** Properties of the scheduler *)

Section Auto.

Context (tbl : list (string * task)).

Lemma completed_is_Some (r : gmap string value) k :
  completed r k = true <-> is_Some (r !! k).
Proof.
  unfold completed. destruct (r !! k); split; intros H; eauto.
  - discriminate.
  - destruct H; discriminate.
Qed.

Lemma ready_inv st k deps body :
  ready tbl st k = Some (deps, body) ->
  failed_task st = None /\ assoc k tbl = Some (deps, body) /\
  results st !! k = None /\
  (forall d, d ∈ deps -> is_Some (results st !! d)).
Proof.
  unfold ready. destruct (failed_task st); [discriminate|].
  destruct (assoc k tbl) as [[deps' body']|]; [|discriminate].
  destruct (negb _ && _) eqn:E; [|discriminate].
  intros [= -> ->]. apply andb_true_iff in E as [E1 E2].
  repeat split; auto.
  - apply negb_true_iff in E1. unfold completed in E1.
    destruct (results st !! k); [discriminate | done].
  - intros d Hd. apply completed_is_Some.
    rewrite forallb_forall in E2. apply E2. by apply list_elem_of_In.
Qed.

Lemma history_initial : history tbl initial [].
Proof.
  split; simpl.
  - constructor.
  - intros k [v Hv]. by rewrite lookup_empty in Hv.
  - discriminate.
  - intros [|] ? ? ?; discriminate.
  - done.
Qed.

Lemma snoc_split {A} (l l1 l2 : list A) (x y : A) :
  l ++ [x] = l1 ++ y :: l2 ->
  (l2 = [] /\ y = x /\ l1 = l) \/
  (exists l2', l2 = l2' ++ [x] /\ l = l1 ++ y :: l2').
Proof.
  destruct l2 as [|z l2 _] using rev_ind.
  - intros H. apply app_inj_tail in H as [-> ->]. by left.
  - intros H. right. exists l2.
    change (l1 ++ y :: l2 ++ [z]) with (l1 ++ (y :: l2) ++ [z]) in H.
    rewrite app_assoc in H. apply app_inj_tail in H as [-> ->]. done.
Qed.

(** While nothing has failed, every task that ran has its result stored. *)
Lemma history_stored st order k :
  history tbl st order -> failed_task st = None -> k ∈ order ->
  is_Some (results st !! k).
Proof.
  intros H Hf Hk. apply list_elem_of_split in Hk as (l1 & l2 & ->).
  destruct (h_task _ _ _ H l1 k l2 eq_refl) as (deps & body & _ & _ & Hr).
  unfold recorded in Hr. destruct (snd _); [eauto | |];
    destruct Hr as (_ & Hr & _); congruence.
Qed.

Lemma history_complete st order k :
  reads_declared tbl -> history tbl st order ->
  exists order', history tbl (complete tbl st k) order' /\
    (order' = order \/ order' = order ++ [k]).
Proof.
  intros Hloc H. unfold complete.
  destruct (ready tbl st k) as [[deps body]|] eqn:Hready; [|eauto].
  apply ready_inv in Hready as (Hnf & Hassoc & Hfresh & Hdeps).
  assert (Hk : k ∉ order).
  { intros Hk. eapply history_stored in Hk as [v Hv]; eauto. congruence. }
  assert (Hkdeps : k ∉ deps).
  { intros Hk'. apply Hdeps in Hk' as [v Hv]. congruence. }
  exists (order ++ [k]). split; [|by right].
  assert (Hold : forall l1 k' l2, order = l1 ++ k' :: l2 ->
    exists deps' body' v', assoc k' tbl = Some (deps', body') /\
      (forall d, d ∈ deps' -> d ∈ l1 /\ is_Some (results st !! d)) /\
      snd (body' (results st)) = Ok v' /\ results st !! k' = Some v' /\
      k' <> k /\ k ∉ deps').
  { intros l1 k' l2 Ho.
    destruct (h_task _ _ _ H l1 k' l2 Ho) as (deps' & body' & Ha & Hd & Hr).
    unfold recorded in Hr. destruct (snd (body' _)) as [v'| |] eqn:Hs;
      [| destruct Hr as (_ & Hr & _); congruence
       | destruct Hr as (_ & Hr & _); congruence].
    exists deps', body', v'. repeat split; auto.
    - by apply Hd.
    - by apply Hd.
    - congruence.
    - intros Hk'. apply Hd in Hk' as [_ [w Hw]]. congruence. }
  assert (Hev : forall r', (forall d, d <> k -> r' !! d = results st !! d) ->
    flat_map (events_of tbl r') order
    = flat_map (events_of tbl (results st)) order).
  { intros r' Hr'.
    assert (Hsame : forall k', k' ∈ order ->
      events_of tbl r' k' = events_of tbl (results st) k').
    { intros k' Hin. apply list_elem_of_split in Hin as (l1 & l2 & Ho).
      destruct (Hold _ _ _ Ho)
        as (deps' & body' & v' & Ha & _ & _ & _ & _ & Hnd).
      unfold events_of. rewrite Ha. f_equal. eapply Hloc; eauto.
      intros d Hd. apply Hr'. congruence. }
    clear -Hsame. induction order as [|x l IH]; [done|]. simpl.
    rewrite Hsame by apply list_elem_of_here. f_equal. apply IH.
    intros k' Hk'. apply Hsame. by apply list_elem_of_further. }
  destruct (body (results st)) as [evs o] eqn:Hbody.
  assert (Hself : forall r', (forall d, d <> k -> r' !! d = results st !! d) ->
    body r' = (evs, o)).
  { intros r' Hr'. rewrite <- Hbody. eapply Hloc; eauto.
    intros d Hd. apply Hr'. congruence. }
  assert (Hevk : forall r', (forall d, d <> k -> r' !! d = results st !! d) ->
    events_of tbl r' k = evs).
  { intros r' Hr'. unfold events_of. by rewrite Hassoc, (Hself _ Hr'). }
  destruct o as [v|e|m].
  - (* the task called back with a result *)
    assert (Hins : forall d, d <> k ->
      <[k:=v]> (results st) !! d = results st !! d).
    { intros d Hd. by rewrite lookup_insert_ne. }
    split; simpl.
    + apply NoDup_app. repeat split; [apply H | | apply NoDup_singleton].
      intros x Hx Hx'. apply list_elem_of_singleton in Hx'. congruence.
    + intros k' Hk'. destruct (decide (k' = k)) as [->|Hne]; [set_solver|].
      rewrite Hins in Hk' by done. apply (h_dom _ _ _ H) in Hk'. set_solver.
    + discriminate.
    + intros l1 k' l2 Ho.
      apply snoc_split in Ho as [(-> & -> & ->)|(l2' & -> & Ho)].
      * exists deps, body. split; [done|]. split.
        -- intros d Hd. split; [apply (h_dom _ _ _ H); by apply Hdeps|].
           rewrite Hins by congruence. by apply Hdeps.
        -- rewrite (Hself _ Hins). simpl. apply lookup_insert_eq.
      * destruct (Hold _ _ _ Ho)
          as (deps' & body' & v' & Ha & Hd & Hs & Hv & Hne & Hnd).
        exists deps', body'. split; [done|]. split.
        -- intros d Hd'. split; [by apply Hd|].
           rewrite Hins by congruence. by apply Hd.
        -- assert (body' (<[k:=v]> (results st)) = body' (results st)) as ->.
           { eapply Hloc; eauto. intros d Hd'. apply Hins. congruence. }
           rewrite Hs. simpl. by rewrite Hins.
    + rewrite flat_map_app, (h_trace _ _ _ H), (Hev _ Hins). simpl.
      rewrite (Hevk _ Hins). by rewrite app_nil_r.
  - split; simpl.
    + apply NoDup_app. repeat split; [apply H | | apply NoDup_singleton].
      intros x Hx Hx'. apply list_elem_of_singleton in Hx'. congruence.
    + intros k' Hk'. apply (h_dom _ _ _ H) in Hk'. set_solver.
    + intros k' f [= <- <-]. split; [|done].
      apply elem_of_app. right. apply list_elem_of_here.
    + intros l1 k' l2 Ho.
      apply snoc_split in Ho as [(-> & -> & ->)|(l2' & -> & Ho)].
      * exists deps, body. split; [done|]. split.
        -- intros d Hd. split; [apply (h_dom _ _ _ H)|]; by apply Hdeps.
        -- rewrite Hbody. simpl. done.
      * destruct (Hold _ _ _ Ho)
          as (deps' & body' & v' & Ha & Hd & Hs & Hv & Hne & Hnd).
        exists deps', body'. split; [done|]. split.
        -- intros d Hd'. split; by apply Hd.
        -- rewrite Hs. simpl. done.
    + rewrite flat_map_app, (h_trace _ _ _ H). simpl.
      rewrite (Hevk (results st)) by done. by rewrite app_nil_r.
  - split; simpl.
    + apply NoDup_app. repeat split; [apply H | | apply NoDup_singleton].
      intros x Hx Hx'. apply list_elem_of_singleton in Hx'. congruence.
    + intros k' Hk'. apply (h_dom _ _ _ H) in Hk'. set_solver.
    + intros k' f [= <- <-]. split; [|done].
      apply elem_of_app. right. apply list_elem_of_here.
    + intros l1 k' l2 Ho.
      apply snoc_split in Ho as [(-> & -> & ->)|(l2' & -> & Ho)].
      * exists deps, body. split; [done|]. split.
        -- intros d Hd. split; [apply (h_dom _ _ _ H)|]; by apply Hdeps.
        -- rewrite Hbody. simpl. done.
      * destruct (Hold _ _ _ Ho)
          as (deps' & body' & v' & Ha & Hd & Hs & Hv & Hne & Hnd).
        exists deps', body'. split; [done|]. split.
        -- intros d Hd'. split; by apply Hd.
        -- rewrite Hs. simpl. done.
    + rewrite flat_map_app, (h_trace _ _ _ H). simpl.
      rewrite (Hevk (results st)) by done. by rewrite app_nil_r.
Qed.

End Auto.

Section AutoRuns.

Context (tbl : list (string * task)).
Hypothesis Hreads : reads_declared tbl.

Lemma history_foldl schedule st order :
  history tbl st order ->
  exists order', history tbl (foldl (complete tbl) st schedule) order'.
Proof.
  revert st order. induction schedule as [|k schedule IH]; intros st order H.
  - by exists order.
  - simpl. destruct (history_complete tbl st order k Hreads H) as (o' & H' & _).
    by apply (IH _ o').
Qed.

Lemma asyncAuto_history schedule :
  exists order, history tbl (asyncAuto tbl schedule) order.
Proof. apply (history_foldl schedule initial []), history_initial. Qed.

(** Every stored result is what its task passed to the callback, and the
    keys the task waits for are stored too. *)
Lemma asyncAuto_stored schedule k v :
  results (asyncAuto tbl schedule) !! k = Some v ->
  exists deps body, assoc k tbl = Some (deps, body) /\
    (forall d, d ∈ deps -> is_Some (results (asyncAuto tbl schedule) !! d)) /\
    snd (body (results (asyncAuto tbl schedule))) = Ok v.
Proof.
  intros Hv. destruct (asyncAuto_history schedule) as [order H].
  assert (Hin : k ∈ order) by (apply (h_dom _ _ _ H); eauto).
  apply list_elem_of_split in Hin as (l1 & l2 & Ho).
  destruct (h_task _ _ _ H _ _ _ Ho) as (deps & body & Ha & Hd & Hr).
  exists deps, body. split; [done|]. split; [intros d Hin; by apply Hd|].
  unfold recorded in Hr. destruct (snd _) as [v'| |].
  - congruence.
  - destruct Hr as [Hr _]. congruence.
  - destruct Hr as [Hr _]. congruence.
Qed.

(** A failure is the error or exception of the task it names, whose
    awaited keys were all stored. *)
Lemma asyncAuto_failed schedule k f :
  failed_task (asyncAuto tbl schedule) = Some (k, f) ->
  exists deps body, assoc k tbl = Some (deps, body) /\
    (forall d, d ∈ deps -> is_Some (results (asyncAuto tbl schedule) !! d)) /\
    match snd (body (results (asyncAuto tbl schedule))) with
    | Ok _ => False
    | Err e => f = Rejected e
    | Thrown m => f = Crashed m
    end.
Proof.
  intros Hf. destruct (asyncAuto_history schedule) as [order H].
  destruct (h_failed _ _ _ H _ _ Hf) as [Hin Hnone].
  apply list_elem_of_split in Hin as (l1 & l2 & Ho).
  destruct (h_task _ _ _ H _ _ _ Ho) as (deps & body & Ha & Hd & Hr).
  exists deps, body. split; [done|]. split; [intros d Hin; by apply Hd|].
  unfold recorded in Hr. destruct (snd _) as [v'| |].
  - congruence.
  - destruct Hr as (_ & Hr & _). congruence.
  - destruct Hr as (_ & Hr & _). congruence.
Qed.

End AutoRuns.

Section AutoTrace.

Context (tbl : list (string * task)).
Hypothesis Hreads : reads_declared tbl.

(** Every recorded call was made by a task that ran with its awaited keys
    stored. *)
Lemma asyncAuto_event schedule e :
  e ∈ trace (asyncAuto tbl schedule) ->
  exists k deps body, assoc k tbl = Some (deps, body) /\
    (forall d, d ∈ deps -> is_Some (results (asyncAuto tbl schedule) !! d)) /\
    e ∈ fst (body (results (asyncAuto tbl schedule))).
Proof.
  intros He. destruct (asyncAuto_history tbl Hreads schedule) as [order H].
  rewrite (h_trace _ _ _ H) in He.
  apply list_elem_of_In, in_flat_map in He as (k & Hk & He).
  apply list_elem_of_In, list_elem_of_split in Hk as (l1 & l2 & Ho).
  destruct (h_task _ _ _ H _ _ _ Ho) as (deps & body & Ha & Hd & _).
  exists k, deps, body. split; [done|]. split; [intros d Hin; by apply Hd|].
  unfold events_of in He. rewrite Ha in He. by apply list_elem_of_In.
Qed.

(** A task that ran after the keys it awaits: the trace splits around the
    calls of any one of them. *)
Lemma asyncAuto_after schedule k d deps body :
  assoc k tbl = Some (deps, body) -> d ∈ deps ->
  (is_Some (results (asyncAuto tbl schedule) !! k) \/
   exists f, failed_task (asyncAuto tbl schedule) = Some (k, f)) ->
  exists order1 order2 order3,
    let r := results (asyncAuto tbl schedule) in
    history tbl (asyncAuto tbl schedule)
      (order1 ++ d :: order2 ++ k :: order3) /\
    trace (asyncAuto tbl schedule) =
      flat_map (events_of tbl r) order1 ++ events_of tbl r d ++
      flat_map (events_of tbl r) order2 ++ events_of tbl r k ++
      flat_map (events_of tbl r) order3.
Proof.
  intros Ha Hd Hran.
  destruct (asyncAuto_history tbl Hreads schedule) as [order H].
  assert (Hin : k ∈ order).
  { destruct Hran as [Hs|[f Hf]]; [by apply (h_dom _ _ _ H)|].
    by apply (h_failed _ _ _ H _ _ Hf). }
  apply list_elem_of_split in Hin as (l1 & order3 & Ho).
  destruct (h_task _ _ _ H _ _ _ Ho) as (deps' & body' & Ha' & Hd' & _).
  assert (deps' = deps) as -> by congruence.
  destruct (Hd' d Hd) as [Hin _].
  apply list_elem_of_split in Hin as (order1 & order2 & ->).
  exists order1, order2, order3. simpl. subst order.
  rewrite <- app_assoc in H. simpl in H. split; [done|].
  rewrite (h_trace _ _ _ H). rewrite flat_map_app. simpl.
  rewrite flat_map_app. simpl. done.
Qed.

End AutoTrace.

(** ** Which calls a computation can make *)

Lemma only_ret P {A} (a : A) : only P (ret a).
Proof. constructor. Qed.

Lemma only_fail P {A} e : only P (@fail A e).
Proof. constructor. Qed.

Lemma only_throw P {A} m : only P (@throw A m).
Proof. constructor. Qed.

Lemma only_deref P {A} (o : option A) : only P (deref o).
Proof. destruct o; constructor. Qed.

Lemma only_log (P : event -> bool) e : P e = true -> only P (log e).
Proof. intros H. by repeat constructor. Qed.

Lemma only_call (P : event -> bool) {A} e (r : error + A) :
  P e = true -> only P (call e r).
Proof. intros H. by repeat constructor. Qed.

Lemma only_bind P {A B} (m : M A) (k : A -> M B) :
  only P m -> (forall a, only P (k a)) -> only P (m ≫= k).
Proof.
  unfold only, mbind, M_bind, bind. intros Hm Hk.
  destruct m as [evs [a| |]]; simpl in *; auto.
  specialize (Hk a). destruct (k a) as [evs' o]. simpl in *.
  by apply Forall_app.
Qed.

Lemma only_asyncMap P {A B} (coll : list A) (iteratee : A -> M B) :
  (forall x, only P (iteratee x)) -> only P (asyncMap coll iteratee).
Proof.
  intros H. induction coll as [|x xs IH]; simpl; [apply only_ret|].
  apply only_bind; [done|]. intros y. apply only_bind; [done|].
  intros ys. apply only_ret.
Qed.

Lemma only_asyncDetect P {A} (coll : list A) (iteratee : A -> M bool) :
  (forall x, only P (iteratee x)) -> only P (asyncDetect coll iteratee).
Proof.
  intros H. induction coll as [|x xs IH]; simpl; [apply only_ret|].
  apply only_bind; [done|]. intros y. apply only_bind; [done|].
  intros ys. apply only_ret.
Qed.

Lemma only_nil P {A} (m : M A) : fst m = [] -> only P m.
Proof. unfold only. intros ->. constructor. Qed.

Ltac only_step :=
  first
    [ apply only_ret | apply only_fail | apply only_throw | apply only_deref
    | apply only_log; reflexivity | apply only_call; reflexivity
    | apply only_asyncMap; intros ? | apply only_asyncDetect; intros ?
    | apply only_bind; [|intros ?]
    | match goal with
      | |- only _ (if ?b then _ else _) => destruct b
      | |- only _ (match ?x with _ => _ end) => destruct x
      end ].

Ltac only_solve := repeat only_step.

(** ** The task table of the pipeline *)

Section Pipeline.

Context (env : Env) (args : Args.t).

Lemma tasks_inv k deps body :
  assoc k (tasks env args) = Some (deps, body) ->
  (k = "validate" /\ deps = [] /\ body = fun _ => validate args) \/
  (k = "balancedOpen" /\ deps = ["validate"] /\
   body = fun _ => balancedOpen env args) \/
  (k = "getNodes" /\ deps = ["validate"] /\
   body = fun _ => getNodes env args) \/
  (k = "getPayment" /\ deps = ["validate"] /\
   body = fun _ => getPayment env args) \/
  (k = "getTransfer" /\ deps = ["validate"] /\
   body = fun _ => getTransfer env args) \/
  (k = "details" /\
   deps = ["balancedOpen"; "getNodes"; "getPayment"; "getTransfer"] /\
   body = details env args) \/
  (k = "post" /\ deps = ["details"; "getPayment"] /\ body = post args) \/
  (k = "quiz" /\ deps = ["details"; "post"] /\ body = quiz env args).
Proof.
  unfold tasks. cbn [assoc].
  repeat match goal with
  | |- context [String.eqb k ?s] =>
      destruct (String.eqb_spec k s);
        [intros [= <- <-]; subst k; tauto|]
  end.
  discriminate.
Qed.

Lemma tasks_reads_declared : reads_declared (tasks env args).
Proof.
  intros k deps body Ha r r' Hsame. apply tasks_inv in Ha.
  assert (Hget : forall d, d ∈ deps -> get r d = get r' d).
  { intros d Hd. unfold get. by rewrite Hsame. }
  destruct Ha as [(-> & -> & ->)|[(-> & -> & ->)|[(-> & -> & ->)|
    [(-> & -> & ->)|[(-> & -> & ->)|[(-> & -> & ->)|[(-> & -> & ->)|
    (-> & -> & ->)]]]]]]]; try reflexivity.
  - unfold details. rewrite !Hget; [done| | | |];
      repeat (apply list_elem_of_here || apply list_elem_of_further).
  - unfold post. rewrite Hget; [done|]. apply list_elem_of_here.
  - unfold quiz. rewrite Hget; [done|]. apply list_elem_of_here.
Qed.

Lemma validate_silent : fst (validate args) = [].
Proof.
  unfold validate.
  repeat match goal with |- context [if ?b then _ else _] => destruct b end;
    reflexivity.
Qed.

Lemma balancedOpen_silent : fst (balancedOpen env args) = [].
Proof.
  unfold balancedOpen. destruct (Args.invoice args) as [invoice|]; [|done].
  simpl. destruct (Invoice.is_confirmed invoice); [|done]. simpl.
  by destruct (balancedOpenRequest _ _ _ _ _).
Qed.

Lemma getNode_probes lnd key id : only is_probe (getNode env lnd key id).
Proof. unfold getNode. only_solve. Qed.

Lemma getNodes_probes : only is_probe (getNodes env args).
Proof. unfold getNodes. only_solve. Qed.

Lemma getPayment_probes : only is_probe (getPayment env args).
Proof. unfold getPayment. only_solve. Qed.

Lemma getTransfer_probes : only is_probe (getTransfer env args).
Proof. unfold getTransfer, paidFrom. only_solve. Qed.

Lemma details_composes r : only is_compose (details env args r).
Proof. unfold details. only_solve. Qed.

Lemma post_sends r : only is_send (post args r).
Proof. unfold post. only_solve. Qed.

Lemma quiz_quizzes r : only is_quiz (quiz env args r).
Proof. unfold quiz. only_solve. Qed.

End Pipeline.

(** ** The quiz answers *)

Lemma swap_Permutation {A} (l : list A) (j : nat) (x y : A) :
  l !! 0%nat = Some x -> l !! j = Some y ->
  <[0%nat := y]> (<[j := x]> l) ≡ₚ l.
Proof.
  destruct l as [|a rest]; [done|]. intros [= ->] Hj.
  destruct j as [|j]; simpl in *.
  - by injection Hj as ->.
  - rewrite <- (take_drop_middle rest j y Hj) at 2.
    rewrite insert_take_drop by (by eapply lookup_lt_Some).
    rewrite <- !Permutation_middle. apply perm_swap.
Qed.

Lemma place_swap (q : list string) (c : nat) (x y : string) :
  q !! 0%nat = Some x -> q !! c = Some y ->
  imap (place (q !! 0%nat) (q !! c) c) q
  = Some <$> <[0%nat := y]> (<[c := x]> q).
Proof.
  intros H0 Hc. apply list_eq. intros i.
  rewrite list_lookup_imap, list_lookup_fmap, H0, Hc.
  assert (Hlen : (c < length q)%nat) by (by eapply lookup_lt_Some).
  unfold place. destruct (Nat.eqb_spec i c) as [->|Hic].
  - rewrite Hc. simpl. destruct c as [|c].
    + rewrite list_lookup_insert_eq
        by (rewrite length_insert; lia). simpl. congruence.
    + rewrite list_lookup_insert_ne by done.
      by rewrite list_lookup_insert_eq.
  - destruct (Nat.eqb_spec i 0) as [->|Hi0].
    + rewrite H0. simpl.
      by rewrite list_lookup_insert_eq by (rewrite length_insert; lia).
    + rewrite !list_lookup_insert_ne by done. by destruct (q !! i).
Qed.

(** What the [quiz] task does once the length checks have passed. *)
Lemma quiz_in_range env args r d q quizfn :
  get r "details" = VDetails d -> Descriptor.quiz d = Some q ->
  Args.quiz args = Some quizfn ->
  (minQuizLength <= length q <= maxQuizLength)%nat ->
  let correct := randomIndex env (length q) in
  let answers := imap (place (q !! 0%nat) (q !! correct) correct) q in
  quiz env args r =
    ([EvQuiz answers correct (Descriptor.title d)],
     match quizfn answers correct (Descriptor.title d) with
     | inl e => Err e
     | inr _ => Ok VUndefined
     end).
Proof.
  intros Hd Hq Hf [Hmin Hmax]. unfold quiz. rewrite Hd, Hq, Hf.
  destruct (Nat.ltb_spec (length q) minQuizLength); [lia|].
  destruct (Nat.ltb_spec maxQuizLength (length q)); [lia|].
  simpl. by destruct (quizfn _ _ _).
Qed.

(** C4. For a quiz of [n] answers with [2 <= n <= 10] and a chosen index
    [correct < n], the answers the [quiz] task sends are the descriptor's
    answers with positions 0 and [correct] exchanged: the first answer sits
    at [correct], the answer that was at [correct] sits at 0, every other
    position is unchanged, and the answers are a permutation of the
    original ones. *)
Theorem quiz_single_transposition env args r d q quizfn :
  get r "details" = VDetails d -> Descriptor.quiz d = Some q ->
  Args.quiz args = Some quizfn ->
  (2 <= length q <= 10)%nat ->
  (randomIndex env (length q) < length q)%nat ->
  let correct := randomIndex env (length q) in
  exists answers first other,
    fst (quiz env args r) = [EvQuiz answers correct (Descriptor.title d)] /\
    q !! 0%nat = Some first /\ q !! correct = Some other /\
    length answers = length q /\
    answers !! correct = Some (Some first) /\
    answers !! 0%nat = Some (Some other) /\
    (forall i, i <> 0%nat -> i <> correct ->
       answers !! i = Some <$> q !! i) /\
    answers ≡ₚ Some <$> q.
Proof.
  intros Hd Hq Hf Hlen Hc correct.
  destruct (lookup_lt_is_Some_2 q 0%nat) as [first H0]; [lia|].
  destruct (lookup_lt_is_Some_2 q correct) as [other Hother]; [done|].
  exists (imap (place (q !! 0%nat) (q !! correct) correct) q), first, other.
  split.
  { by rewrite (quiz_in_range env args r d q quizfn). }
  split; [done|]. split; [done|].
  rewrite (place_swap q correct first other H0 Hother).
  split; [by rewrite length_fmap, !length_insert|].
  split.
  { rewrite list_lookup_fmap. destruct (decide (correct = 0%nat)) as [Hz|Hz].
    - rewrite Hz in *. rewrite list_lookup_insert_eq
        by (rewrite length_insert; lia). simpl. congruence.
    - rewrite list_lookup_insert_ne by done.
      by rewrite list_lookup_insert_eq. }
  split.
  { rewrite list_lookup_fmap.
    by rewrite list_lookup_insert_eq by (rewrite length_insert; lia). }
  split.
  { intros i Hi0 Hic. rewrite list_lookup_fmap.
    by rewrite !list_lookup_insert_ne by done. }
  apply fmap_Permutation. by apply swap_Permutation.
Qed.

Lemma quiz_single_transposition_witness :
  exists answers first other,
    fst (quiz Scenario.env Scenario.args Scenario.stored_details)
    = [EvQuiz answers 2%nat (Some "Who routed this?")] /\
    ["peerA"; "peerB"; "peerC"; "peerD"] !! 0%nat = Some first /\
    ["peerA"; "peerB"; "peerC"; "peerD"] !! 2%nat = Some other /\
    length answers = 4%nat /\
    answers !! 2%nat = Some (Some first) /\
    answers !! 0%nat = Some (Some other) /\
    (forall i, i <> 0%nat -> i <> 2%nat ->
       answers !! i = Some <$> ["peerA"; "peerB"; "peerC"; "peerD"] !! i) /\
    answers ≡ₚ Some <$> ["peerA"; "peerB"; "peerC"; "peerD"].
Proof.
  apply (quiz_single_transposition Scenario.env Scenario.args
           Scenario.stored_details Scenario.routed
           ["peerA"; "peerB"; "peerC"; "peerD"]
           (fun _ _ _ => Scenario.delivered)).
  - reflexivity.
  - reflexivity.
  - reflexivity.
  - simpl. lia.
  - simpl. lia.
Defined.

(** ** Text escaping *)

Lemma expand_replacement (c : ascii) :
  Markup.expand Markup.replacement (String c EmptyString)
  = String Markup.backslash (String c EmptyString).
Proof. reflexivity. Qed.

Lemma escape_cons (c : ascii) (s : string) :
  Markup.escape (String c s) =
    if Markup.is_reserved c
    then String Markup.backslash (String c (Markup.escape s))
    else String c (Markup.escape s).
Proof.
  unfold Markup.escape. cbn [Markup.replace_all].
  destruct (Markup.is_reserved c); [rewrite expand_replacement|]; reflexivity.
Qed.

Lemma backslash_reserved : Markup.is_reserved Markup.backslash = true.
Proof. reflexivity. Qed.

Lemma escape_Escaped (s : string) : Markup.Escaped (Markup.escape s).
Proof.
  induction s as [|c s IH]; [constructor|]. rewrite escape_cons.
  destruct (Markup.is_reserved c) eqn:Hc; by constructor.
Qed.

Lemma unescape_escape (s : string) : Markup.unescape (Markup.escape s) = s.
Proof.
  induction s as [|c s IH]; [done|]. rewrite escape_cons.
  destruct (Markup.is_reserved c) eqn:Hc.
  - cbn [Markup.unescape]. rewrite Ascii.eqb_refl. by rewrite IH.
  - cbn [Markup.unescape].
    destruct (Ascii.eqb_spec c Markup.backslash) as [->|_].
    + rewrite backslash_reserved in Hc. discriminate.
    + by rewrite IH.
Qed.

(** The class of [escape] holds the reserved characters of the target
    markup: eighteen punctuation marks and the backslash. *)
Lemma reserved_class :
  Markup.reserved
  = list_ascii_of_string "_*[]()~`>#+-=|{}.!" ++ [Markup.backslash].
Proof. reflexivity. Qed.

(** Text without reserved characters passes through unchanged. *)
Lemma escape_plain (s : string) :
  forallb (fun c => negb (Markup.is_reserved c)) (list_ascii_of_string s)
  = true ->
  Markup.escape s = s.
Proof.
  induction s as [|c s IH]; [done|]. simpl. intros H.
  apply andb_true_iff in H as [Hc Hs]. rewrite escape_cons.
  apply negb_true_iff in Hc. rewrite Hc. by rewrite IH.
Qed.

Section AutoFilter.

Context (tbl : list (string * task)).
Hypothesis Hreads : reads_declared tbl.

Lemma history_ran st order k :
  history tbl st order -> k ∈ order <-> ran st k = true.
Proof.
  intros H. unfold ran. rewrite orb_true_iff, completed_is_Some. split.
  - intros Hin. apply list_elem_of_split in Hin as (l1 & l2 & Ho).
    destruct (h_task _ _ _ H _ _ _ Ho) as (deps & body & _ & _ & Hr).
    unfold recorded in Hr. destruct (snd _).
    + left. eauto.
    + right. destruct Hr as (_ & -> & _). apply String.eqb_refl.
    + right. destruct Hr as (_ & -> & _). apply String.eqb_refl.
  - intros [Hs|Hf]; [by apply (h_dom _ _ _ H)|].
    destruct (failed_task st) as [[k' f]|] eqn:E; [|discriminate].
    apply String.eqb_eq in Hf as ->. by apply (h_failed _ _ _ H _ _ E).
Qed.

Lemma filter_only_all (P : event -> bool) {A} (m : M A) :
  only P m -> List.filter P (fst m) = fst m.
Proof.
  unfold only. induction 1 as [|e l He _ IH]; [done|]. simpl.
  by rewrite He, IH.
Qed.

Lemma filter_only_none (P Q : event -> bool) {A} (m : M A) :
  only Q m -> (forall e, Q e = true -> P e = false) ->
  List.filter P (fst m) = [].
Proof.
  unfold only. intros Hm HPQ. induction Hm as [|e l He _ IH]; [done|].
  simpl. by rewrite (HPQ e He), IH.
Qed.

(** When one task alone makes the calls of some kind, the calls of that
    kind in the trace are that task's calls. *)
Lemma asyncAuto_filter (P : event -> bool) (k0 : string) schedule :
  (forall k deps body r, assoc k tbl = Some (deps, body) -> k <> k0 ->
     List.filter P (fst (body r)) = []) ->
  (forall deps body r, assoc k0 tbl = Some (deps, body) ->
     List.filter P (fst (body r)) = fst (body r)) ->
  List.filter P (trace (asyncAuto tbl schedule)) =
    if ran (asyncAuto tbl schedule) k0
    then events_of tbl (results (asyncAuto tbl schedule)) k0 else [].
Proof.
  intros Hother Hself.
  destruct (asyncAuto_history tbl Hreads schedule) as [order H].
  set (st := asyncAuto tbl schedule) in *.
  assert (Hfilter : forall l, NoDup l -> (forall k, k ∈ l -> k ∈ order) ->
    List.filter P (flat_map (events_of tbl (results st)) l) =
      if bool_decide (k0 ∈ l) then events_of tbl (results st) k0 else []).
  { induction l as [|k l IH]; intros Hnd Hsub; [done|].
    apply NoDup_cons in Hnd as [Hk Hnd]. simpl.
    rewrite List.filter_app, IH; [|done|intros; apply Hsub; by right].
    assert (Hin : k ∈ order) by (apply Hsub; by left).
    apply list_elem_of_split in Hin as (l1 & l2 & Ho).
    destruct (h_task _ _ _ H _ _ _ Ho) as (deps & body & Ha & _ & _).
    destruct (decide (k = k0)) as [->|Hne].
    - rewrite (bool_decide_eq_false_2 (k0 ∈ l)) by done.
      rewrite bool_decide_eq_true_2 by (by left).
      unfold events_of. rewrite Ha. rewrite (Hself _ _ _ Ha).
      by rewrite app_nil_r.
    - unfold events_of at 1. rewrite Ha, (Hother _ _ _ _ Ha Hne). simpl.
      destruct (decide (k0 ∈ l)) as [Hl|Hl].
      + by rewrite !bool_decide_eq_true_2 by (done || by right).
      + rewrite !bool_decide_eq_false_2; [done| |done].
        intros [?|?]%elem_of_cons; congruence. }
  rewrite (h_trace _ _ _ H), (Hfilter order (h_nodup _ _ _ H)) by done.
  destruct (ran st k0) eqn:Hran.
  - apply (history_ran _ _ _ H) in Hran. by rewrite bool_decide_eq_true_2.
  - rewrite bool_decide_eq_false_2; [done|].
    intros Hin. apply (history_ran _ _ _ H) in Hin. congruence.
Qed.

End AutoFilter.

(** ** Runs of the pipeline *)

Section Runs.

Context (env : Env) (args : Args.t) (schedule : list string).

Let st := postSettledInvoice env args schedule.
Let r := results st.

Lemma run_stored k v :
  r !! k = Some v ->
  exists deps body, assoc k (tasks env args) = Some (deps, body) /\
    (forall d, d ∈ deps -> is_Some (r !! d)) /\ snd (body r) = Ok v.
Proof. apply asyncAuto_stored, tasks_reads_declared. Qed.

Lemma run_failed k f :
  failed_task st = Some (k, f) ->
  exists deps body, assoc k (tasks env args) = Some (deps, body) /\
    (forall d, d ∈ deps -> is_Some (r !! d)) /\
    match snd (body r) with
    | Ok _ => False
    | Err e => f = Rejected e
    | Thrown m => f = Crashed m
    end.
Proof. apply asyncAuto_failed, tasks_reads_declared. Qed.

Lemma run_ran k :
  ran st k = true ->
  exists deps body, assoc k (tasks env args) = Some (deps, body) /\
    (forall d, d ∈ deps -> is_Some (r !! d)).
Proof.
  unfold ran. rewrite orb_true_iff, completed_is_Some. intros [[v Hv]|Hf].
  - destruct (run_stored k v Hv) as (deps & body & Ha & Hd & _). eauto.
  - destruct (failed_task st) as [[k' f]|] eqn:E; [|discriminate].
    apply String.eqb_eq in Hf as ->.
    destruct (run_failed k f E) as (deps & body & Ha & Hd & _). eauto.
Qed.

Lemma run_validate v : r !! "validate" = Some v -> snd (validate args) = Ok v.
Proof.
  intros Hv. destruct (run_stored _ _ Hv) as (deps & body & Ha & _ & Hs).
  cbn in Ha. by injection Ha as <- <-.
Qed.

Lemma run_balancedOpen v :
  r !! "balancedOpen" = Some v ->
  snd (balancedOpen env args) = Ok v /\ is_Some (r !! "validate").
Proof.
  intros Hv. destruct (run_stored _ _ Hv) as (deps & body & Ha & Hd & Hs).
  cbn in Ha. injection Ha as <- <-. split; [done|].
  apply Hd, list_elem_of_here.
Qed.

Lemma run_getNodes v :
  r !! "getNodes" = Some v ->
  snd (getNodes env args) = Ok v /\ is_Some (r !! "validate").
Proof.
  intros Hv. destruct (run_stored _ _ Hv) as (deps & body & Ha & Hd & Hs).
  cbn in Ha. injection Ha as <- <-. split; [done|].
  apply Hd, list_elem_of_here.
Qed.

Lemma run_getPayment v :
  r !! "getPayment" = Some v ->
  snd (getPayment env args) = Ok v /\ is_Some (r !! "validate").
Proof.
  intros Hv. destruct (run_stored _ _ Hv) as (deps & body & Ha & Hd & Hs).
  cbn in Ha. injection Ha as <- <-. split; [done|].
  apply Hd, list_elem_of_here.
Qed.

Lemma run_getTransfer v :
  r !! "getTransfer" = Some v ->
  snd (getTransfer env args) = Ok v /\ is_Some (r !! "validate").
Proof.
  intros Hv. destruct (run_stored _ _ Hv) as (deps & body & Ha & Hd & Hs).
  cbn in Ha. injection Ha as <- <-. split; [done|].
  apply Hd, list_elem_of_here.
Qed.

(** Once [details] may run, the four checks have stored what they found. *)
Lemma run_checks :
  ran st "details" = true ->
  exists vb vn vp vt,
    r !! "balancedOpen" = Some vb /\ snd (balancedOpen env args) = Ok vb /\
    r !! "getNodes" = Some vn /\ snd (getNodes env args) = Ok vn /\
    r !! "getPayment" = Some vp /\ snd (getPayment env args) = Ok vp /\
    r !! "getTransfer" = Some vt /\ snd (getTransfer env args) = Ok vt /\
    is_Some (r !! "validate").
Proof.
  intros Hran. destruct (run_ran _ Hran) as (deps & body & Ha & Hd).
  cbn in Ha. injection Ha as <- <-.
  destruct (Hd "balancedOpen") as [vb Hb];
    [repeat (apply list_elem_of_here || apply list_elem_of_further)|].
  destruct (Hd "getNodes") as [vn Hn];
    [repeat (apply list_elem_of_here || apply list_elem_of_further)|].
  destruct (Hd "getPayment") as [vp Hp];
    [repeat (apply list_elem_of_here || apply list_elem_of_further)|].
  destruct (Hd "getTransfer") as [vt Ht];
    [repeat (apply list_elem_of_here || apply list_elem_of_further)|].
  exists vb, vn, vp, vt.
  destruct (run_balancedOpen _ Hb) as [? ?].
  destruct (run_getNodes _ Hn) as [? _].
  destruct (run_getPayment _ Hp) as [? _].
  destruct (run_getTransfer _ Ht) as [? _].
  repeat split; done.
Qed.

Lemma run_details v :
  r !! "details" = Some v ->
  snd (details env args r) = Ok v /\ ran st "details" = true.
Proof.
  intros Hv. destruct (run_stored _ _ Hv) as (deps & body & Ha & Hd & Hs).
  cbn in Ha. injection Ha as <- <-. split; [done|].
  unfold ran, completed. fold r. by rewrite Hv.
Qed.

(** Once [post] may run, [details] has stored its result. *)
Lemma run_post_ran :
  ran st "post" = true ->
  exists vd, r !! "details" = Some vd /\ snd (details env args r) = Ok vd /\
    ran st "details" = true.
Proof.
  intros Hran. destruct (run_ran _ Hran) as (deps & body & Ha & Hd).
  cbn in Ha. injection Ha as <- <-.
  destruct (Hd "details") as [vd Hvd]; [apply list_elem_of_here|].
  exists vd. split; [done|]. by apply run_details.
Qed.

Lemma run_post v :
  r !! "post" = Some v ->
  snd (post args r) = Ok v /\ ran st "post" = true.
Proof.
  intros Hv. destruct (run_stored _ _ Hv) as (deps & body & Ha & Hd & Hs).
  cbn in Ha. injection Ha as <- <-. split; [done|].
  unfold ran, completed. fold r. by rewrite Hv.
Qed.

(** Once [quiz] may run, [details] and [post] have stored their results. *)
Lemma run_quiz_ran :
  ran st "quiz" = true ->
  exists vd vp, r !! "details" = Some vd /\
    snd (details env args r) = Ok vd /\
    r !! "post" = Some vp /\ snd (post args r) = Ok vp.
Proof.
  intros Hran. destruct (run_ran _ Hran) as (deps & body & Ha & Hd).
  cbn in Ha. injection Ha as <- <-.
  destruct (Hd "details") as [vd Hvd]; [apply list_elem_of_here|].
  destruct (Hd "post") as [vp Hvp];
    [apply list_elem_of_further, list_elem_of_here|].
  exists vd, vp. destruct (run_details _ Hvd) as [? _].
  destruct (run_post _ Hvp) as [? _]. done.
Qed.

End Runs.

(** ** The calls in the trace of the pipeline *)

Section Anatomy.

Context (env : Env) (args : Args.t).

(** The kind of call each task makes. *)
Lemma tasks_only k deps body r :
  assoc k (tasks env args) = Some (deps, body) ->
  (k = "details" /\ only is_compose (body r)) \/
  (k = "post" /\ only is_send (body r)) \/
  (k = "quiz" /\ only is_quiz (body r)) \/
  (k <> "details" /\ k <> "post" /\ k <> "quiz" /\ only is_probe (body r)).
Proof.
  intros Ha. apply tasks_inv in Ha.
  destruct Ha as [(-> & -> & ->)|[(-> & -> & ->)|[(-> & -> & ->)|
    [(-> & -> & ->)|[(-> & -> & ->)|[(-> & -> & ->)|[(-> & -> & ->)|
    (-> & -> & ->)]]]]]]].
  - right; right; right. repeat split; try discriminate.
    apply only_nil, validate_silent.
  - right; right; right. repeat split; try discriminate.
    apply only_nil, balancedOpen_silent.
  - right; right; right. repeat split; try discriminate.
    apply getNodes_probes.
  - right; right; right. repeat split; try discriminate.
    apply getPayment_probes.
  - right; right; right. repeat split; try discriminate.
    apply getTransfer_probes.
  - left. split; [done|]. apply details_composes.
  - right; left. split; [done|]. apply post_sends.
  - right; right; left. split; [done|]. apply quiz_quizzes.
Qed.

Context (schedule : list string).

Let st := postSettledInvoice env args schedule.
Let r := results st.

Lemma trace_compose :
  List.filter is_compose (trace st) =
    if ran st "details" then fst (details env args r) else [].
Proof.
  unfold st, postSettledInvoice.
  rewrite (asyncAuto_filter _ (tasks_reads_declared env args) is_compose
             "details"); [done| |].
  - intros k deps body r' Ha Hne.
    destruct (tasks_only k deps body r' Ha)
      as [[-> _]|[[-> H]|[[-> H]|(_ & _ & _ & H)]]]; [done| | |];
      (eapply filter_only_none; [exact H|]);
      intros e He; destruct e; simpl in *; congruence.
  - intros deps body r' Ha. cbn in Ha. injection Ha as <- <-.
    apply filter_only_all, details_composes.
Qed.

Lemma trace_send :
  List.filter is_send (trace st) =
    if ran st "post" then fst (post args r) else [].
Proof.
  unfold st, postSettledInvoice.
  rewrite (asyncAuto_filter _ (tasks_reads_declared env args) is_send
             "post"); [done| |].
  - intros k deps body r' Ha Hne.
    destruct (tasks_only k deps body r' Ha)
      as [[-> H]|[[-> _]|[[-> H]|(_ & _ & _ & H)]]]; [|done| |];
      (eapply filter_only_none; [exact H|]);
      intros e He; destruct e; simpl in *; congruence.
  - intros deps body r' Ha. cbn in Ha. injection Ha as <- <-.
    apply filter_only_all, post_sends.
Qed.

Lemma trace_quiz :
  List.filter is_quiz (trace st) =
    if ran st "quiz" then fst (quiz env args r) else [].
Proof.
  unfold st, postSettledInvoice.
  rewrite (asyncAuto_filter _ (tasks_reads_declared env args) is_quiz
             "quiz"); [done| |].
  - intros k deps body r' Ha Hne.
    destruct (tasks_only k deps body r' Ha)
      as [[-> H]|[[-> H]|[[-> _]|(_ & _ & _ & H)]]]; [| |done|];
      (eapply filter_only_none; [exact H|]);
      intros e He; destruct e; simpl in *; congruence.
  - intros deps body r' Ha. cbn in Ha. injection Ha as <- <-.
    apply filter_only_all, quiz_quizzes.
Qed.

End Anatomy.

(** ** Laws of the task computations *)

Lemma bind_ret_l {A B} (a : A) (k : A -> M B) : (ret a ≫= k) = k a.
Proof. unfold mbind, M_bind, bind, ret. by destruct (k a). Qed.

Lemma bind_deref_Some {A B} (a : A) (k : A -> M B) :
  (deref (Some a) ≫= k) = k a.
Proof. apply bind_ret_l. Qed.

(** ** What the four checks store *)

Section Checks.

Context (env : Env) (args : Args.t).

Lemma validate_ok v :
  snd (validate args) = Ok v ->
  exists from id invoice key lnd nodes quizfn send,
    Args.from args = Some from /\ Args.id args = Some id /\
    Args.invoice args = Some invoice /\ Args.key args = Some key /\
    Args.lnd args = Some lnd /\ Args.nodes args = Some nodes /\
    Args.quiz args = Some quizfn /\ Args.send args = Some send.
Proof.
  unfold validate.
  destruct (Args.from args) as [from|]; [|discriminate].
  destruct (Args.id args) as [id|];
    [|destruct (truthy_string _); discriminate].
  destruct (Args.invoice args) as [invoice|];
    [|destruct (truthy_string _), (truthy_number _); discriminate].
  destruct (Args.key args) as [key|];
    [|destruct (truthy_string _), (truthy_number _); discriminate].
  destruct (Args.lnd args) as [lnd|];
    [|destruct (truthy_string _), (truthy_number _), (truthy_string _);
      discriminate].
  destruct (Args.nodes args) as [nodes|];
    [|destruct (truthy_string _), (truthy_number _), (truthy_string _);
      discriminate].
  destruct (Args.quiz args) as [quizfn|];
    [|destruct (truthy_string _), (truthy_number _), (truthy_string _);
      discriminate].
  destruct (Args.send args) as [send|];
    [|destruct (truthy_string _), (truthy_number _), (truthy_string _);
      discriminate].
  intros _. by exists from, id, invoice, key, lnd, nodes, quizfn, send.
Qed.

Context (invoice : Invoice.t) (lnd : Lnd) (key : string) (nodes : list Node.t).
Hypothesis Hinvoice : Args.invoice args = Some invoice.
Hypothesis Hlnd : Args.lnd args = Some lnd.
Hypothesis Hkey : Args.key args = Some key.
Hypothesis Hnodes : Args.nodes args = Some nodes.

Lemma balancedOpen_confirmed :
  Invoice.is_confirmed invoice = true ->
  balancedOpen env args =
    ([], Ok match balanced_open_proposal env invoice with
            | Some p => VProposal p
            | None => VUndefined
            end).
Proof.
  intros Hc. unfold balancedOpen, balanced_open_proposal.
  rewrite Hinvoice. cbn. rewrite Hc. cbn.
  by destruct (balancedOpenRequest _ _ _ _ _).
Qed.

Lemma getPayment_confirmed :
  Invoice.is_confirmed invoice = true ->
  getPayment env args =
    ([EvSubscribeToPastPayment lnd (Invoice.id invoice)],
     Ok match rebalance_probe env lnd (Invoice.id invoice) with
        | Some payment => VPayment payment
        | None => VUndefined
        end).
Proof.
  intros Hc. unfold getPayment, rebalance_probe.
  rewrite Hinvoice, Hlnd. cbn. rewrite Hc. cbn.
  by destruct (subscribeToPastPayment _ _ _).
Qed.

Lemma asyncDetect_paidFrom id (coll : list Node.t) :
  asyncDetect coll (paidFrom env id) =
    (map (fun n => EvSubscribeToPastPayment (Node.lnd n) id) coll,
     Ok (List.find (confirms env id) coll)).
Proof.
  induction coll as [|n coll IH]; [done|]. cbn [asyncDetect].
  rewrite IH. unfold paidFrom, confirms. cbn.
  destruct (subscribeToPastPayment _ _ _); cbn; by rewrite app_nil_r.
Qed.

Lemma find_existsb {A} (f : A -> bool) (l : list A) :
  existsb f l = match List.find f l with Some _ => true | None => false end.
Proof. induction l as [|x l IH]; [done|]. simpl. by destruct (f x). Qed.

Lemma getTransfer_confirmed :
  Invoice.is_confirmed invoice = true ->
  exists evs vt,
    getTransfer env args = (evs, Ok vt) /\
    truthy vt = transfer_probe env key nodes (Invoice.id invoice).
Proof.
  intros Hc. unfold getTransfer, transfer_probe.
  rewrite Hinvoice, Hnodes, Hkey. cbn. rewrite Hc. cbn.
  rewrite asyncDetect_paidFrom, find_existsb. cbn.
  destruct (List.find _ _); eauto.
Qed.

Lemma getNodes_Ok v :
  snd (getNodes env args) = Ok v -> exists via, v = VAliases via.
Proof.
  unfold getNodes. rewrite Hinvoice, Hlnd, Hkey. cbn.
  destruct (asyncMap _ _) as [evs [via| |]]; cbn; [|discriminate..].
  intros [= <-]. eauto.
Qed.

End Checks.

(** ** Classification *)

Section Classification.

Context (env : Env) (args : Args.t) (schedule : list string).
Context (invoice : Invoice.t) (lnd : Lnd) (key : string) (nodes : list Node.t).
Hypothesis Hinvoice : Args.invoice args = Some invoice.
Hypothesis Hconfirmed : Invoice.is_confirmed invoice = true.
Hypothesis Hlnd : Args.lnd args = Some lnd.
Hypothesis Hkey : Args.key args = Some key.
Hypothesis Hnodes : Args.nodes args = Some nodes.

Let st := postSettledInvoice env args schedule.

(** When [details] runs it sees what the four checks found, and does what
    the composer of the category chosen by precedence does. *)
Lemma details_composer :
  ran st "details" = true ->
  exists via,
    results st !! "getNodes" = Some (VAliases via) /\
    details env args (results st) =
      composer env lnd invoice
        (precedence (transfer_probe env key nodes (Invoice.id invoice))
           (balanced_open_proposal env invoice)
           (rebalance_probe env lnd (Invoice.id invoice)) via).
Proof.
  intros Hran. subst st.
  destruct (run_checks env args schedule Hran)
    as (vb & vn & vp & vt & Hb & Hb' & Hn & Hn' & Hp & Hp' & Ht & Ht' & _).
  destruct (getNodes_Ok env args invoice lnd key Hinvoice Hlnd Hkey vn Hn')
    as [via ->].
  exists via. split; [done|].
  rewrite (balancedOpen_confirmed env args invoice Hinvoice Hconfirmed) in Hb'.
  rewrite (getPayment_confirmed env args invoice lnd Hinvoice Hlnd Hconfirmed)
    in Hp'.
  destruct (getTransfer_confirmed env args invoice key nodes
              Hinvoice Hkey Hnodes Hconfirmed) as (evs & vt' & Ht'' & Htruthy).
  rewrite Ht'' in Ht'. cbn in Hb', Hp', Ht'.
  injection Hb' as <-. injection Hp' as <-. injection Ht' as <-.
  unfold details, get. rewrite Hb, Hn, Hp, Ht, Hinvoice.
  rewrite bind_deref_Some, Hconfirmed. cbn [negb from_option id].
  rewrite Htruthy. unfold precedence.
  destruct (transfer_probe _ _ _ _); [done|].
  destruct (balanced_open_proposal _ _) as [p|]; cbn [truthy composer].
  { by rewrite Hlnd, bind_deref_Some. }
  destruct (rebalance_probe _ _ _) as [payment|]; cbn [truthy composer];
    by rewrite Hlnd, bind_deref_Some.
Qed.

End Classification.

(** C1. For a confirmed invoice, whatever the order in which the four
    checks completed, once they have all completed the [details] step acts
    on the category chosen in the order Transfer, BalancedOpen, Rebalance,
    Received: it calls the composer of that category (none for Transfer)
    and no other, Received using the aliases resolved by [getNodes].  In
    particular, when there is no transfer and both a balanced open proposal
    and a rebalance payment are present, the category is BalancedOpen and
    the only composer called is the balanced open one. *)
Theorem details_follow_precedence env args schedule invoice lnd key nodes :
  Args.invoice args = Some invoice ->
  Invoice.is_confirmed invoice = true ->
  Args.lnd args = Some lnd ->
  Args.key args = Some key ->
  Args.nodes args = Some nodes ->
  let st := postSettledInvoice env args schedule in
  ran st "details" = true ->
  exists via,
    results st !! "getNodes" = Some (VAliases via) /\
    let transfer := transfer_probe env key nodes (Invoice.id invoice) in
    let proposal := balanced_open_proposal env invoice in
    let rebalance := rebalance_probe env lnd (Invoice.id invoice) in
    let c := precedence transfer proposal rebalance via in
    details env args (results st) = composer env lnd invoice c /\
    List.filter is_compose (trace st) = fst (composer env lnd invoice c) /\
    (forall p payment,
       transfer = false -> proposal = Some p -> rebalance = Some payment ->
       c = BalancedOpen p /\
       List.filter is_compose (trace st) =
         [EvGetBalancedOpenMessage lnd (Proposal.capacity p)
            (Proposal.partner_public_key p) (Proposal.fee_rate p)]).
Proof.
  intros Hinvoice Hc Hlnd Hkey Hnodes st Hran. subst st.
  destruct (details_composer env args schedule invoice lnd key nodes
              Hinvoice Hc Hlnd Hkey Hnodes Hran) as (via & Hvia & Hdetails).
  exists via. split; [done|]. intros transfer proposal rebalance c.
  split; [done|].
  assert (Htrace :
    List.filter is_compose (trace (postSettledInvoice env args schedule))
    = fst (composer env lnd invoice c)).
  { by rewrite trace_compose, Hran, Hdetails. }
  split; [done|].
  intros p payment Htr Hpr Hre. rewrite Htrace. subst c.
  rewrite Htr, Hpr, Hre. cbn. split; [done|].
  by destruct (getBalancedOpenMessage _ _ _ _ _).
Qed.

Lemma details_follow_precedence_witness :
  exists via,
    results (postSettledInvoice Scenario.crafted Scenario.args
               Scenario.rebalance_first) !! "getNodes"
    = Some (VAliases via) /\
    details Scenario.crafted Scenario.args
      (results (postSettledInvoice Scenario.crafted Scenario.args
                  Scenario.rebalance_first))
    = composer Scenario.crafted Scenario.own Scenario.invoice
        (BalancedOpen Scenario.proposal) /\
    List.filter is_compose
      (trace (postSettledInvoice Scenario.crafted Scenario.args
                Scenario.rebalance_first))
    = [EvGetBalancedOpenMessage Scenario.own 2000000 Scenario.peer 1].
Proof.
  destruct (details_follow_precedence Scenario.crafted Scenario.args
              Scenario.rebalance_first Scenario.invoice Scenario.own
              Scenario.me Scenario.two_nodes)
    as (via & Hvia & Hdetails & _ & Hboth);
    [reflexivity | reflexivity | reflexivity | reflexivity | reflexivity
    | vm_compute; reflexivity |].
  exists via. split; [exact Hvia|]. split; [exact Hdetails|].
  destruct (Hboth Scenario.proposal Scenario.circular) as [_ Htrace];
    [reflexivity | reflexivity | reflexivity |].
  exact Htrace.
Defined.

(** ** Transfers *)

Lemma filter_nil_none {A} (P : A -> bool) (l : list A) (x : A) :
  List.filter P l = [] -> x ∈ l -> P x = false.
Proof.
  intros Hnil Hin. destruct (P x) eqn:HP; [|done].
  assert (Hx : In x (List.filter P l)).
  { apply filter_In. split; [by apply list_elem_of_In|done]. }
  rewrite Hnil in Hx. destruct Hx.
Qed.

Lemma transfer_probe_true env key nodes id n payment :
  n ∈ nodes -> Node.public_key n <> key ->
  subscribeToPastPayment env (Node.lnd n) id = confirmed payment ->
  transfer_probe env key nodes id = true.
Proof.
  intros Hin Hne Hsub. unfold transfer_probe. apply existsb_exists.
  exists n. split.
  - apply filter_In. split; [by apply list_elem_of_In|].
    apply negb_true_iff, String.eqb_neq. done.
  - unfold confirms. by rewrite Hsub.
Qed.

Lemma post_nothing args (r : gmap string value) :
  r !! "details" = Some VUndefined -> post args r = ret VUndefined.
Proof. intros H. unfold post, get. by rewrite H. Qed.

Lemma quiz_nothing env args (r : gmap string value) :
  r !! "details" = Some VUndefined -> quiz env args r = ret VUndefined.
Proof. intros H. unfold quiz, get. by rewrite H. Qed.

Lemma run_validated env args schedule :
  is_Some (results (postSettledInvoice env args schedule) !! "validate") ->
  exists from id invoice key lnd nodes quizfn send,
    Args.from args = Some from /\ Args.id args = Some id /\
    Args.invoice args = Some invoice /\ Args.key args = Some key /\
    Args.lnd args = Some lnd /\ Args.nodes args = Some nodes /\
    Args.quiz args = Some quizfn /\ Args.send args = Some send.
Proof.
  intros [v Hv]. apply run_validate in Hv. by apply validate_ok in Hv.
Qed.

Section Transfers.

Context (env : Env) (args : Args.t) (schedule : list string).
Context (invoice : Invoice.t) (key : string) (nodes : list Node.t).
Context (n : Node.t) (payment : PastPayment.t).
Hypothesis Hinvoice : Args.invoice args = Some invoice.
Hypothesis Hconfirmed : Invoice.is_confirmed invoice = true.
Hypothesis Hkey : Args.key args = Some key.
Hypothesis Hnodes : Args.nodes args = Some nodes.
Hypothesis Hn : n ∈ nodes.
Hypothesis Hother : Node.public_key n <> key.
Hypothesis Hpaid :
  subscribeToPastPayment env (Node.lnd n) (Invoice.id invoice)
  = confirmed payment.

Local Abbreviation st := (postSettledInvoice env args schedule).

Lemma transfer_details :
  ran st "details" = true -> details env args (results st) = ret VUndefined.
Proof.
  intros Hran.
  destruct (run_checks env args schedule Hran)
    as (_ & _ & _ & _ & _ & _ & _ & _ & _ & _ & _ & _ & Hv).
  destruct (run_validated env args schedule Hv)
    as (_ & _ & _ & _ & lnd & _ & _ & _ & _ & _ & _ & _ & Hlnd & _).
  destruct (details_composer env args schedule invoice lnd key nodes
              Hinvoice Hconfirmed Hlnd Hkey Hnodes Hran) as (via & _ & ->).
  by rewrite (transfer_probe_true env key nodes (Invoice.id invoice) n payment).
Qed.

Lemma transfer_stored v :
  results st !! "details" = Some v -> v = VUndefined.
Proof.
  intros Hv. destruct (run_details env args schedule v Hv) as [Hs Hran].
  rewrite (transfer_details Hran) in Hs. cbn in Hs. congruence.
Qed.

Lemma transfer_silent :
  List.filter is_compose (trace st) = [] /\
  List.filter is_send (trace st) = [] /\
  List.filter is_quiz (trace st) = [].
Proof.
  split; [|split].
  - rewrite trace_compose.
    destruct (ran _ "details") eqn:Hran; [|done].
    by rewrite (transfer_details Hran).
  - rewrite trace_send. destruct (ran _ "post") eqn:Hran; [|done].
    destruct (run_post_ran env args schedule Hran) as (vd & Hvd & _ & _).
    rewrite (transfer_stored vd Hvd) in Hvd. by rewrite post_nothing.
  - rewrite trace_quiz. destruct (ran _ "quiz") eqn:Hran; [|done].
    destruct (run_quiz_ran env args schedule Hran) as (vd & _ & Hvd & _).
    rewrite (transfer_stored vd Hvd) in Hvd. by rewrite quiz_nothing.
Qed.

End Transfers.

(** C3. For a confirmed invoice for which the past payment probe of some
    other controlled node confirms, along every completion order: the
    [details] step stores no descriptor, no message composer is called, and
    neither a text message nor a quiz is sent. *)
Theorem transfer_dispatches_nothing env args schedule invoice key nodes n
    payment :
  Args.invoice args = Some invoice ->
  Invoice.is_confirmed invoice = true ->
  Args.key args = Some key ->
  Args.nodes args = Some nodes ->
  n ∈ nodes -> Node.public_key n <> key ->
  subscribeToPastPayment env (Node.lnd n) (Invoice.id invoice)
  = confirmed payment ->
  let st := postSettledInvoice env args schedule in
  (forall v, results st !! "details" = Some v -> v = VUndefined) /\
  (forall e, e ∈ trace st ->
     is_compose e = false /\ is_send e = false /\ is_quiz e = false).
Proof.
  intros Hinvoice Hconfirmed Hkey Hnodes Hn Hother Hpaid st. split.
  - intros v. by eapply transfer_stored.
  - intros e He.
    destruct (transfer_silent env args schedule invoice key nodes n payment
                Hinvoice Hconfirmed Hkey Hnodes Hn Hother Hpaid)
      as (Hc & Hs & Hq).
    repeat split; eapply filter_nil_none; eauto.
Qed.

Lemma transfer_dispatches_nothing_witness :
  (forall v,
     results (postSettledInvoice Scenario.transfer Scenario.args source_order)
       !! "details" = Some v -> v = VUndefined) /\
  (forall e,
     e ∈ trace (postSettledInvoice Scenario.transfer Scenario.args
                  source_order) ->
     is_compose e = false /\ is_send e = false /\ is_quiz e = false).
Proof.
  apply (transfer_dispatches_nothing Scenario.transfer Scenario.args
           source_order Scenario.invoice Scenario.me Scenario.two_nodes
           (Node.mk "beta" Scenario.other Scenario.sibling) Scenario.sent).
  - reflexivity.
  - reflexivity.
  - reflexivity.
  - reflexivity.
  - apply list_elem_of_further, list_elem_of_here.
  - discriminate.
  - reflexivity.
Defined.

(** ** Validation *)

Lemma absent_not_accepted args f : absent args f -> accepted args f = false.
Proof. destruct f; simpl; by intros ->. Qed.

(** [validate] is the search for the first rejected field. *)
Lemma validate_first_rejected args :
  validate args =
    match first_rejected args with
    | Some f => fail (400, reason_token f)
    | None => ret VUndefined
    end.
Proof.
  unfold validate, first_rejected, fields. cbn [List.find accepted].
  repeat match goal with
  | |- context [negb ?b] => destruct b; cbn [negb]
  end; reflexivity.
Qed.

Lemma reason_token_inj f g : reason_token f = reason_token g -> f = g.
Proof. destruct f, g; simpl; intros H; try reflexivity; discriminate. Qed.

Lemma first_rejected_absent args f :
  absent args f ->
  exists g, first_rejected args = Some g /\
    ((forall h, h <> f -> accepted args h = true) -> g = f).
Proof.
  intros Ha. apply absent_not_accepted in Ha.
  unfold first_rejected.
  destruct (List.find _ fields) as [g|] eqn:Hfind.
  - exists g. split; [done|]. intros Honly.
    apply find_some in Hfind as [_ Hg]. apply negb_true_iff in Hg.
    destruct (decide (g = f)) as [->|Hne]; [done|].
    rewrite Honly in Hg by done. discriminate.
  - exfalso. eapply find_none in Hfind.
    + rewrite Ha in Hfind. discriminate.
    + unfold fields. destruct f; simpl; tauto.
Qed.

Lemma complete_after_failure tbl st k :
  failed_task st <> None -> complete tbl st k = st.
Proof.
  intros Hf. unfold complete, ready.
  by destruct (failed_task st).
Qed.

Lemma foldl_after_failure tbl st schedule :
  failed_task st <> None -> foldl (complete tbl) st schedule = st.
Proof.
  intros Hf. induction schedule as [|k schedule IH]; [done|].
  simpl. by rewrite complete_after_failure.
Qed.

(** Before [validate] has completed no other task can. *)
Lemma complete_before_validate env args k :
  k <> "validate" -> complete (tasks env args) initial k = initial.
Proof.
  intros Hk. unfold complete, ready. cbn [failed_task initial].
  destruct (assoc k (tasks env args)) as [[deps body]|] eqn:Ha;
    [|reflexivity].
  apply tasks_inv in Ha.
  destruct Ha as [(-> & -> & ->)|[(-> & -> & ->)|[(-> & -> & ->)|
    [(-> & -> & ->)|[(-> & -> & ->)|[(-> & -> & ->)|[(-> & -> & ->)|
    (-> & -> & ->)]]]]]]]; [done|reflexivity..].
Qed.

Lemma validate_rejects env args e schedule :
  validate args = fail e ->
  postSettledInvoice env args schedule =
    if bool_decide ("validate" ∈ schedule) then rejected_at_validate e
    else initial.
Proof.
  intros Hv. unfold postSettledInvoice, asyncAuto.
  induction schedule as [|k schedule IH]; [done|]. cbn [foldl].
  destruct (decide (k = "validate")) as [->|Hne].
  - rewrite bool_decide_eq_true_2 by apply list_elem_of_here.
    assert (complete (tasks env args) initial "validate"
            = rejected_at_validate e) as ->.
    { unfold complete. cbn. by rewrite Hv. }
    by apply foldl_after_failure.
  - rewrite complete_before_validate by done. rewrite IH.
    destruct (decide ("validate" ∈ schedule)) as [Hin|Hin].
    + by rewrite !bool_decide_eq_true_2 by (done || by right).
    + rewrite !bool_decide_eq_false_2; [done| |done].
      intros [?|?]%elem_of_cons; congruence.
Qed.

(** C8. When a required field ([from], [id], [invoice], [key], the node
    handle, the quiz sender, the send function) is absent, or [nodes] is not
    an array, the pipeline stops at [validate] with the pair of 400 and the
    reason token of the first rejected field: that field's own token when it
    is the only one rejected, tokens of different fields being different.
    Along every schedule nothing is stored and no call of any kind is made;
    the error is reported as soon as [validate] completes. *)
Theorem missing_field_rejected env args f :
  absent args f ->
  exists g,
    first_rejected args = Some g /\
    ((forall h, h <> f -> accepted args h = true) -> g = f) /\
    (forall h, reason_token h = reason_token g -> h = g) /\
    forall schedule,
      postSettledInvoice env args schedule =
        if bool_decide ("validate" ∈ schedule)
        then mkState ∅ [] (Some ("validate", Rejected (400, reason_token g)))
        else initial.
Proof.
  intros Ha. destruct (first_rejected_absent args f Ha) as (g & Hg & Honly).
  exists g. split; [done|]. split; [done|].
  split; [intros h; apply reason_token_inj|].
  intros schedule. apply validate_rejects.
  by rewrite validate_first_rejected, Hg.
Qed.

Lemma missing_field_rejected_witness :
  exists g,
    first_rejected Scenario.no_handle = Some g /\
    ((forall h, h <> FLnd -> accepted Scenario.no_handle h = true) ->
     g = FLnd) /\
    (forall h, reason_token h = reason_token g -> h = g) /\
    forall schedule,
      postSettledInvoice Scenario.env Scenario.no_handle schedule =
        if bool_decide ("validate" ∈ schedule)
        then mkState ∅ [] (Some ("validate", Rejected (400, reason_token g)))
        else initial.
Proof.
  apply (missing_field_rejected Scenario.env Scenario.no_handle FLnd).
  reflexivity.
Defined.

(** ** Resolving the forwarding peers *)



Lemma find_peer_none key (policies : list Policy.t) :
  (forall p, p ∈ policies -> Policy.public_key p = key) ->
  List.find (fun n => negb (String.eqb (Policy.public_key n) key)) policies
  = None.
Proof.
  intros Hall. induction policies as [|p policies IH]; [done|]. simpl.
  rewrite (Hall p) by apply list_elem_of_here. rewrite String.eqb_refl.
  simpl. apply IH. intros q Hq. apply Hall. by apply list_elem_of_further.
Qed.

Lemma find_peer_some key (policies : list Policy.t) :
  (exists p, p ∈ policies /\ Policy.public_key p <> key) ->
  exists peer,
    List.find (fun n => negb (String.eqb (Policy.public_key n) key)) policies
    = Some peer /\ peer ∈ policies /\ Policy.public_key peer <> key.
Proof.
  intros (p & Hin & Hne).
  destruct (List.find _ policies) as [peer|] eqn:Hfind.
  - exists peer. split; [done|]. apply find_some in Hfind as [Hp Hk].
    split; [by apply list_elem_of_In|].
    by apply negb_true_iff, String.eqb_neq in Hk.
  - exfalso. eapply find_none in Hfind; [|by apply list_elem_of_In].
    apply negb_false_iff, String.eqb_eq in Hfind. done.
Qed.

Lemma uniq_from_elem (seen arr : list string) (x : string) :
  x ∈ arr -> x ∉ seen -> x ∈ uniq_from seen arr.
Proof.
  revert seen. induction arr as [|y arr IH]; intros seen Hin Hseen.
  - by apply elem_of_nil in Hin.
  - simpl. destruct (existsb (String.eqb y) seen) eqn:Hy.
    + apply existsb_exists in Hy as (z & Hz & Heq).
      apply String.eqb_eq in Heq as <-. apply list_elem_of_In in Hz.
      apply elem_of_cons in Hin as [->|Hin]; [done|]. by apply IH.
    + destruct (decide (x = y)) as [->|Hne]; [apply list_elem_of_here|].
      apply list_elem_of_further, IH.
      * apply elem_of_cons in Hin as [?|?]; [done|done].
      * intros [?|?]%elem_of_cons; done.
Qed.

Lemma uniq_elem (arr : list string) (x : string) : x ∈ arr -> x ∈ uniq arr.
Proof. intros H. apply uniq_from_elem; [done|]. apply not_elem_of_nil. Qed.

(** [asyncMap] calls back with a result only if every iteratee did. *)
Lemma asyncMap_Ok {A B} (coll : list A) (f : A -> M B) (ys : list B) (x : A) :
  snd (asyncMap coll f) = Ok ys -> x ∈ coll -> exists y, snd (f x) = Ok y.
Proof.
  revert ys. induction coll as [|z coll IH]; intros ys Hok Hin.
  - by apply elem_of_nil in Hin.
  - cbn [asyncMap] in Hok. unfold mbind, M_bind, bind in Hok.
    destruct (f z) as [evs [y| |]] eqn:Hz; [|discriminate..].
    destruct (asyncMap coll f) as [evs' [ys'| |]] eqn:Hrest;
      [|discriminate..].
    apply elem_of_cons in Hin as [->|Hin].
    + rewrite Hz. eauto.
    + by apply (IH ys').
Qed.

Lemma getNodes_needs_peers env args invoice lnd key id v :
  Args.invoice args = Some invoice -> Args.lnd args = Some lnd ->
  Args.key args = Some key ->
  id ∈ map Htlc.in_channel (Invoice.payments invoice) ->
  snd (getNodes env args) = Ok v ->
  exists alias, snd (getNode env lnd key id) = Ok alias.
Proof.
  intros Hinvoice Hlnd Hkey Hid. unfold getNodes.
  rewrite Hinvoice, Hlnd, Hkey, !bind_deref_Some.
  unfold mbind, M_bind, bind.
  destruct (asyncMap _ _) as [evs [via| |]] eqn:Hmap; [|discriminate..].
  intros _.
  apply (asyncMap_Ok
           (uniq (map Htlc.in_channel (Invoice.payments invoice)))
           (getNode env lnd key) via id); [by rewrite Hmap|].
  by apply uniq_elem.
Qed.

Lemma resolved_completed env args schedule k :
  settled env args schedule = Resolved -> k ∈ source_order ->
  is_Some (results (postSettledInvoice env args schedule) !! k).
Proof.
  unfold settled, status_of. destruct (failed_task _) as [[? ?]|]; [done|].
  destruct (forallb _ _) eqn:Hall; [|done]. intros _ Hk.
  rewrite forallb_forall in Hall. apply completed_is_Some, Hall.
  by apply list_elem_of_In.
Qed.

(** C10. After a successful channel lookup [getNodes] reads the public key
    of the first policy whose key differs from the receiving key without
    checking that there is one.  When every policy of the channel carries
    the receiving key the read is a dereference of [undefined]: a TypeError
    is thrown after the lookup, no alias is resolved and the fallback record
    is not produced; an invoice paid through such a channel never gets its
    aliases stored and the pipeline never resolves.  When some policy
    carries another key, the first such policy is the peer whose alias is
    resolved, and nothing is thrown. *)
Theorem peer_dereference env lnd key id res :
  getChannel env lnd id = inr res ->
  ((forall p, p ∈ Channel.policies res -> Policy.public_key p = key) ->
   getNode env lnd key id = ([EvGetChannel lnd id], Thrown "TypeError") /\
   forall args invoice schedule,
     Args.invoice args = Some invoice -> Args.lnd args = Some lnd ->
     Args.key args = Some key ->
     id ∈ map Htlc.in_channel (Invoice.payments invoice) ->
     results (postSettledInvoice env args schedule) !! "getNodes" = None /\
     settled env args schedule <> Resolved) /\
  ((exists p, p ∈ Channel.policies res /\ Policy.public_key p <> key) ->
   exists peer,
     peer ∈ Channel.policies res /\ Policy.public_key peer <> key /\
     getNode env lnd key id =
       ([EvGetChannel lnd id; EvGetNodeAlias lnd (Policy.public_key peer)],
        match getNodeAlias env lnd (Policy.public_key peer) with
        | inl err => Err err
        | inr alias => Ok alias
        end)).
Proof.
  intros Hres. split.
  - intros Hall.
    assert (Hthrown :
      getNode env lnd key id = ([EvGetChannel lnd id], Thrown "TypeError")).
    { unfold getNode. rewrite Hres. by rewrite (find_peer_none key _ Hall). }
    split; [done|]. intros args invoice schedule Hinvoice Hlnd Hkey Hid.
    assert (Hnone :
      results (postSettledInvoice env args schedule) !! "getNodes" = None).
    { destruct (results _ !! "getNodes") as [v|] eqn:Hv; [|done].
      apply run_getNodes in Hv as [Hv _].
      destruct (getNodes_needs_peers env args invoice lnd key id v
                  Hinvoice Hlnd Hkey Hid Hv) as [alias Halias].
      rewrite Hthrown in Halias. discriminate. }
    split; [done|]. intros Hresolved.
    destruct (resolved_completed env args schedule "getNodes" Hresolved)
      as [v Hv]; [|congruence].
    unfold source_order.
    repeat (apply list_elem_of_here || apply list_elem_of_further).
  - intros Hsome.
    destruct (find_peer_some key _ Hsome) as (peer & Hfind & Hin & Hne).
    exists peer. split; [done|]. split; [done|].
    unfold getNode. rewrite Hres, Hfind. cbn.
    by destruct (getNodeAlias _ _ _).
Qed.

Lemma peer_dereference_witness :
  getNode Scenario.looped Scenario.own Scenario.me "61x1"
  = ([EvGetChannel Scenario.own "61x1"], Thrown "TypeError") /\
  results (postSettledInvoice Scenario.looped Scenario.args source_order)
    !! "getNodes" = None /\
  settled Scenario.looped Scenario.args source_order <> Resolved.
Proof.
  destruct (peer_dereference Scenario.looped Scenario.own Scenario.me "61x1"
              (Channel.mk [Policy.mk Scenario.me; Policy.mk Scenario.me])
              eq_refl) as [Hnone _].
  destruct Hnone as [Hthrown Hrun].
  { intros p Hp. apply elem_of_cons in Hp as [->|Hp]; [reflexivity|].
    apply elem_of_cons in Hp as [->|Hp]; [reflexivity|].
    by apply elem_of_nil in Hp. }
  split; [exact Hthrown|].
  apply (Hrun Scenario.args Scenario.invoice source_order);
    [reflexivity | reflexivity | reflexivity | apply list_elem_of_here].
Defined.

(** ** Probes that find nothing *)


Lemma uniq_from_subset (seen arr : list string) (x : string) :
  x ∈ uniq_from seen arr -> x ∈ arr.
Proof.
  revert seen. induction arr as [|y arr IH]; intros seen; [done|]. simpl.
  destruct (existsb _ seen).
  - intros H. apply list_elem_of_further. by apply (IH seen).
  - intros [->|H]%elem_of_cons; [apply list_elem_of_here|].
    apply list_elem_of_further. by apply (IH (y :: seen)).
Qed.




Section Absence.

Context (env : Env) (args : Args.t) (schedule : list string).
Context (invoice : Invoice.t) (lnd : Lnd) (key : string) (nodes : list Node.t).
Hypothesis Hinvoice : Args.invoice args = Some invoice.
Hypothesis Hlnd : Args.lnd args = Some lnd.
Hypothesis Hkey : Args.key args = Some key.
Hypothesis Hnodes : Args.nodes args = Some nodes.

Local Abbreviation st := (postSettledInvoice env args schedule).






End Absence.




(** ** Sending the text *)

Lemma post_details args (r : gmap string value) d from id key nodes send :
  r !! "details" = Some (VDetails d) ->
  Args.from args = Some from -> Args.id args = Some id ->
  Args.key args = Some key -> Args.nodes args = Some nodes ->
  Args.send args = Some send ->
  let suffix :=
    if Nat.ltb 1 (length nodes) then " - " +:+ from else EmptyString in
  let text :=
    (Descriptor.icon d +:+ " " +:+ Descriptor.message d)
    +:+ Markup.escape suffix in
  post args r =
    ([EvSend id text sendOptions],
     match send id text sendOptions with
     | inl e => Err e
     | inr _ => Ok VUndefined
     end).
Proof.
  intros Hd Hfrom Hid Hkey Hnodes Hsend. unfold post, get.
  rewrite Hd, Hfrom, Hid, Hkey, Hnodes, Hsend. cbn -[Markup.escape Nat.ltb].
  by destruct (send _ _ _).
Qed.

Section Sending.

Context (env : Env) (args : Args.t) (schedule : list string).

Local Abbreviation st := (postSettledInvoice env args schedule).

(** The [post] task has run: what it saw and what it did. *)
Lemma run_post_cases :
  ran st "post" = true ->
  (results st !! "details" = Some VUndefined /\
   post args (results st) = ret VUndefined) \/
  (exists d from id key nodes send,
     results st !! "details" = Some (VDetails d) /\
     Args.from args = Some from /\ Args.id args = Some id /\
     Args.key args = Some key /\ Args.nodes args = Some nodes /\
     Args.send args = Some send).
Proof.
  intros Hran.
  destruct (run_post_ran env args schedule Hran) as (vd & Hvd & Hs & Hdr).
  destruct (run_checks env args schedule Hdr)
    as (_ & _ & _ & _ & _ & _ & _ & _ & _ & _ & _ & _ & Hv).
  destruct (run_validated env args schedule Hv)
    as (from & id & invoice & key & lnd & nodes & quizfn & send &
        Hfrom & Hid & Hinvoice & Hkey & Hlnd & Hnodes & Hquiz & Hsend).
  assert (Hshape : vd = VUndefined \/ exists d, vd = VDetails d).
  { revert Hs. unfold details. rewrite Hinvoice, bind_deref_Some.
    destruct (negb _); [cbn; intros [= <-]; by left|].
    destruct (truthy (get _ "getTransfer")); [cbn; intros [= <-]; by left|].
    rewrite Hlnd, !bind_deref_Some.
    destruct (truthy (get _ "balancedOpen")).
    { destruct (get _ "balancedOpen"); try discriminate.
      cbn. destruct (getBalancedOpenMessage _ _ _ _ _); [discriminate|].
      cbn. intros [= <-]. eauto. }
    destruct (truthy (get _ "getPayment")).
    { destruct (get _ "getPayment"); try discriminate.
      cbn. destruct (getRebalanceMessage _ _ _ _ _ _); [discriminate|].
      cbn. intros [= <-]. eauto. }
    destruct (get _ "getNodes"); try discriminate.
    cbn. destruct (getReceivedMessage _ _ _ _ _ _); [discriminate|].
    cbn. intros [= <-]. eauto. }
  destruct Hshape as [->|[d ->]].
  - left. split; [done|]. by apply post_nothing.
  - right. by exists d, from, id, key, nodes, send.
Qed.

End Sending.

Lemma escape_suffix_nonempty from :
  Markup.escape (" - " +:+ from) <> EmptyString.
Proof.
  change (" - " +:+ from) with (String " " ("- " +:+ from)).
  rewrite escape_cons. discriminate.
Qed.

(** C6. Every text handed to [send] is the icon, a space and the message
    of the stored descriptor, exactly as composed, followed by the escaped
    form of a suffix that is the from label after a space, a dash and a
    space when [nodes] has more than one entry and is empty otherwise.  In
    the escaped suffix every reserved character (the eighteen punctuation
    marks of the class and the backslash) is backslash-prefixed, and
    removing the prefixes gives the suffix back. *)
Theorem sent_text_shape env args schedule uid text options :
  EvSend uid text options ∈ trace (postSettledInvoice env args schedule) ->
  exists d from nodes,
    results (postSettledInvoice env args schedule) !! "details"
    = Some (VDetails d) /\
    Args.from args = Some from /\ Args.nodes args = Some nodes /\
    Args.id args = Some uid /\ options = sendOptions /\
    let suffix :=
      if Nat.ltb 1 (length nodes) then " - " +:+ from else EmptyString in
    text =
      (Descriptor.icon d +:+ " " +:+ Descriptor.message d)
      +:+ Markup.escape suffix /\
    (Markup.escape suffix <> EmptyString <-> (1 < length nodes)%nat) /\
    Markup.Escaped (Markup.escape suffix) /\
    Markup.unescape (Markup.escape suffix) = suffix /\
    Markup.reserved =
      list_ascii_of_string "_*[]()~`>#+-=|{}.!" ++ [Markup.backslash].
Proof.
  intros He.
  assert (Hin : In (EvSend uid text options)
                  (List.filter is_send
                     (trace (postSettledInvoice env args schedule)))).
  { apply filter_In. split; [by apply list_elem_of_In|done]. }
  rewrite trace_send in Hin.
  destruct (ran _ "post") eqn:Hran; [|destruct Hin].
  destruct (run_post_cases env args schedule Hran)
    as [[_ Hpost]|(d & from & id & key & nodes & send &
                   Hd & Hfrom & Hid & Hkey & Hnodes & Hsend)].
  { rewrite Hpost in Hin. destruct Hin. }
  rewrite (post_details args _ d from id key nodes send
             Hd Hfrom Hid Hkey Hnodes Hsend) in Hin.
  destruct Hin as [Heq|[]]. injection Heq as <- <- <-.
  exists d, from, nodes. do 5 (split; [done|]).
  intros suffix. split; [done|]. split.
  { subst suffix. destruct (Nat.ltb_spec 1 (length nodes)).
    - split; [done|]. intros _. apply escape_suffix_nonempty.
    - split; [done|lia]. }
  split; [apply escape_Escaped|]. split; [apply unescape_escape|].
  apply reserved_class.
Qed.

Lemma sent_text_shape_witness :
  exists d from nodes,
    results (postSettledInvoice Scenario.env Scenario.args source_order)
      !! "details" = Some (VDetails d) /\
    Args.from Scenario.args = Some from /\
    Args.nodes Scenario.args = Some nodes /\
    Args.id Scenario.args = Some 7 /\ sendOptions = sendOptions /\
    let suffix :=
      if Nat.ltb 1 (length nodes) then " - " +:+ from else EmptyString in
    "I Received 2 via peerA" +:+
      String " " (String Markup.backslash "- alpha")
      +:+ String Markup.backslash "_1"
    = (Descriptor.icon d +:+ " " +:+ Descriptor.message d)
      +:+ Markup.escape suffix /\
    (Markup.escape suffix <> EmptyString <-> (1 < length nodes)%nat) /\
    Markup.Escaped (Markup.escape suffix) /\
    Markup.unescape (Markup.escape suffix) = suffix /\
    Markup.reserved =
      list_ascii_of_string "_*[]()~`>#+-=|{}.!" ++ [Markup.backslash].
Proof.
  apply (sent_text_shape Scenario.env Scenario.args source_order 7
           ("I Received 2 via peerA" +:+
              String " " (String Markup.backslash "- alpha")
              +:+ String Markup.backslash "_1")
           sendOptions).
  vm_compute. do 7 apply list_elem_of_further. apply list_elem_of_here.
Defined.

(** ** The quiz after the text *)

Lemma quiz_events env args (r : gmap string value) :
  fst (quiz env args r) = [] \/
  exists answers correct question,
    fst (quiz env args r) = [EvQuiz answers correct question].
Proof.
  unfold quiz. destruct (get r "details") as [| | | | |d]; try (by left).
  destruct (Descriptor.quiz d) as [q|]; [|by left].
  destruct (Nat.ltb _ _); [by left|]. destruct (Nat.ltb _ _); [by left|].
  destruct (Args.quiz args) as [quizfn|]; [|by left].
  right. rewrite bind_deref_Some. cbn. destruct (quizfn _ _ _); eauto.
Qed.

Lemma NoDup_middle {A} (l1 l2 : list A) (x : A) :
  NoDup (l1 ++ x :: l2) -> (x ∉ l1) /\ (x ∉ l2).
Proof.
  intros H. apply NoDup_app in H as (_ & Hdisj & Hcons).
  apply NoDup_cons in Hcons as [Hx _]. split; [|done].
  intros Hin. apply (Hdisj x Hin), list_elem_of_here.
Qed.

Section Order.

Context (env : Env) (args : Args.t) (schedule : list string).

Local Abbreviation st := (postSettledInvoice env args schedule).

(** Tasks other than [post] and [quiz] send nothing. *)
Lemma others_send_nothing order (l : list string) e :
  history (tasks env args) st order ->
  (forall k, k ∈ l -> k ∈ order /\ k <> "post" /\ k <> "quiz") ->
  e ∈ flat_map (events_of (tasks env args) (results st)) l ->
  is_send e = false /\ is_quiz e = false.
Proof.
  intros H Hl He. apply list_elem_of_In, in_flat_map in He as (k & Hk & He).
  apply list_elem_of_In in Hk. destruct (Hl k Hk) as (Hin & Hnp & Hnq).
  apply list_elem_of_split in Hin as (l1 & l2 & Ho).
  destruct (h_task _ _ _ H _ _ _ Ho) as (deps & body & Ha & _ & _).
  unfold events_of in He. rewrite Ha in He.
  destruct (tasks_only env args k deps body (results st) Ha)
    as [[_ Ho']|[[-> _]|[[-> _]|(_ & _ & _ & Ho')]]]; [|done|done|];
    unfold only in Ho'; rewrite List.Forall_forall in Ho';
    specialize (Ho' e He); destruct e; simpl in *; done.
Qed.

Lemma ran_cases k :
  ran st k = true ->
  is_Some (results st !! k) \/ exists f, failed_task st = Some (k, f).
Proof.
  unfold ran. rewrite orb_true_iff, completed_is_Some.
  intros [?|Hf]; [by left|right].
  destruct (failed_task st) as [[k' f]|]; [|discriminate].
  apply String.eqb_eq in Hf as ->. eauto.
Qed.

End Order.

(** C9. Whenever a quiz is sent, the trace holds exactly one text message
    and one quiz, the text message before the quiz, and the send of the
    text message had completed successfully: the quiz is sent after the
    text, never before it and never without it. *)
Theorem quiz_follows_text env args schedule answers correct question :
  EvQuiz answers correct question
    ∈ trace (postSettledInvoice env args schedule) ->
  exists before between after uid text send,
    trace (postSettledInvoice env args schedule) =
      before ++ EvSend uid text sendOptions
      :: between ++ EvQuiz answers correct question :: after /\
    Args.send args = Some send /\
    send uid text sendOptions = inr tt /\
    (forall e, e ∈ before ++ between ++ after ->
       is_send e = false /\ is_quiz e = false).
Proof.
  intros He.
  assert (Hin : In (EvQuiz answers correct question)
                  (List.filter is_quiz
                     (trace (postSettledInvoice env args schedule)))).
  { apply filter_In. split; [by apply list_elem_of_In|done]. }
  rewrite trace_quiz in Hin.
  destruct (ran _ "quiz") eqn:Hran; [|destruct Hin].
  assert (Hquiz : fst (quiz env args
                         (results (postSettledInvoice env args schedule)))
                  = [EvQuiz answers correct question]).
  { destruct (quiz_events env args
                (results (postSettledInvoice env args schedule)))
      as [Hnil|(a & c & q & Hone)].
    - rewrite Hnil in Hin. destruct Hin.
    - rewrite Hone in Hin. destruct Hin as [<-|[]]. done. }
  destruct (run_quiz_ran env args schedule Hran)
    as (vd & vp & Hvd & _ & Hvp & Hpost).
  destruct (run_post env args schedule vp Hvp) as [_ Hranp].
  destruct (run_post_cases env args schedule Hranp)
    as [[Hund _]|(d & from & id & key & nodes & send &
                  Hd & Hfrom & Hid & Hkey & Hnodes & Hsend)].
  { rewrite (quiz_nothing env args _ Hund) in Hquiz. discriminate. }
  pose proof (post_details args _ d from id key nodes send
                Hd Hfrom Hid Hkey Hnodes Hsend) as Hsent.
  cbv zeta in Hsent.
  set (text := (Descriptor.icon d +:+ " " +:+ Descriptor.message d) +:+ _)
    in Hsent.
  destruct (asyncAuto_after (tasks env args) (tasks_reads_declared env args)
              schedule "quiz" "post" ["details"; "post"] (quiz env args))
    as (o1 & o2 & o3 & H & Htrace).
  { reflexivity. }
  { apply list_elem_of_further, list_elem_of_here. }
  { by apply ran_cases. }
  cbv zeta in Htrace.
  change (asyncAuto (tasks env args) schedule)
    with (postSettledInvoice env args schedule) in *.
  assert (Hevp : events_of (tasks env args)
                   (results (postSettledInvoice env args schedule)) "post"
                 = [EvSend id text sendOptions]).
  { unfold events_of. cbn [assoc tasks String.eqb Ascii.eqb Bool.eqb].
    by rewrite Hsent. }
  assert (Hevq : events_of (tasks env args)
                   (results (postSettledInvoice env args schedule)) "quiz"
                 = [EvQuiz answers correct question]).
  { unfold events_of. cbn [assoc tasks String.eqb Ascii.eqb Bool.eqb].
    done. }
  rewrite Hevp, Hevq in Htrace.
  exists (flat_map (events_of (tasks env args)
                      (results (postSettledInvoice env args schedule))) o1),
         (flat_map (events_of (tasks env args)
                      (results (postSettledInvoice env args schedule))) o2),
         (flat_map (events_of (tasks env args)
                      (results (postSettledInvoice env args schedule))) o3),
         id, text, send.
  split; [exact Htrace|]. split; [done|]. split.
  { rewrite Hsent in Hpost. cbn in Hpost.
    destruct (send id text sendOptions) as [err|[]]; [discriminate|done]. }
  pose proof (h_nodup _ _ _ H) as Hnd.
  destruct (NoDup_middle _ _ _ Hnd) as [Hp1 Hp23].
  rewrite app_comm_cons, app_assoc in Hnd.
  destruct (NoDup_middle _ _ _ Hnd) as [Hq12 Hq3].
  intros e Hin'. rewrite <- !flat_map_app in Hin'.
  eapply (others_send_nothing env args schedule _ (o1 ++ o2 ++ o3)); eauto.
  intros k Hk. rewrite !elem_of_app in Hk. split; [|split].
  - rewrite !elem_of_app, !elem_of_cons, !elem_of_app, !elem_of_cons. tauto.
  - intros ->. destruct Hk as [?|[?|?]]; [done| |].
    + apply Hp23. rewrite elem_of_app. by left.
    + apply Hp23. rewrite elem_of_app, elem_of_cons. tauto.
  - intros ->. destruct Hk as [?|[?|?]]; [| |done].
    + apply Hq12. rewrite elem_of_app. by left.
    + apply Hq12. rewrite elem_of_app, elem_of_cons. tauto.
Qed.

Lemma quiz_follows_text_witness :
  exists before between after uid text send,
    trace (postSettledInvoice Scenario.env Scenario.args source_order) =
      before ++ EvSend uid text sendOptions
      :: between ++
         EvQuiz [Some "peerC"; Some "peerB"; Some "peerA"; Some "peerD"]
           2%nat (Some "Who routed this?") :: after /\
    Args.send Scenario.args = Some send /\
    send uid text sendOptions = inr tt /\
    (forall e, e ∈ before ++ between ++ after ->
       is_send e = false /\ is_quiz e = false).
Proof.
  apply (quiz_follows_text Scenario.env Scenario.args source_order).
  vm_compute. do 8 apply list_elem_of_further. apply list_elem_of_here.
Defined.

(** ** Every run can be completed *)

Section Progress.

Context (tbl : list (string * task)).

Lemma complete_keeps st k d :
  is_Some (results st !! d) -> is_Some (results (complete tbl st k) !! d).
Proof.
  intros Hd. unfold complete. destruct (ready tbl st k) as [[deps body]|];
    [|done].
  destruct (body (results st)) as [evs [v|e|m]]; simpl; [|done..].
  rewrite lookup_insert_is_Some. destruct (decide (k = d)); auto.
Qed.

Lemma complete_settles st k deps body :
  assoc k tbl = Some (deps, body) ->
  (forall d, d ∈ deps -> is_Some (results st !! d)) ->
  failed_task (complete tbl st k) <> None \/
  is_Some (results (complete tbl st k) !! k).
Proof.
  intros Ha Hdeps. unfold complete, ready.
  destruct (failed_task st) as [x|] eqn:Hf.
  { left. by rewrite Hf. }
  rewrite Ha. destruct (completed (results st) k) eqn:Hk.
  { right. cbn. by apply completed_is_Some. }
  assert (forallb (completed (results st)) deps = true) as ->.
  { apply forallb_forall. intros d Hd.
    apply completed_is_Some, Hdeps. by apply list_elem_of_In. }
  cbn. destruct (body (results st)) as [evs [v|e|m]]; simpl.
  - right. rewrite lookup_insert_eq. eauto.
  - by left.
  - by left.
Qed.

Lemma done_with_complete st ks k deps body :
  done_with st ks -> assoc k tbl = Some (deps, body) ->
  (forall d, d ∈ deps -> d ∈ ks) ->
  done_with (complete tbl st k) (k :: ks).
Proof.
  intros [Hf|Hks] Ha Hsub.
  { left. by rewrite complete_after_failure. }
  destruct (complete_settles st k deps body Ha) as [Hf|Hk].
  { intros d Hd. by apply Hks, Hsub. }
  - by left.
  - right. intros k' [->|Hin]%elem_of_cons; [done|].
    by apply complete_keeps, Hks.
Qed.

End Progress.

Ltac elem_of_literal :=
  repeat (apply list_elem_of_here || apply list_elem_of_further).

Ltac deps_stored :=
  let d := fresh "d" in
  let Hd := fresh "Hd" in
  intros d Hd;
  repeat (apply elem_of_cons in Hd as [->|Hd]; [elem_of_literal|]);
  by apply elem_of_nil in Hd.

(** Whatever has completed so far, letting the tasks complete in the order
    of the source settles the call: it resolves or fails. *)
Lemma source_order_settles env args schedule :
  settled env args (schedule ++ source_order) <> Pending.
Proof.
  unfold settled, postSettledInvoice, asyncAuto. rewrite foldl_app.
  set (st := foldl (complete (tasks env args)) initial schedule).
  assert (H0 : done_with st []).
  { right. intros k Hk. by apply elem_of_nil in Hk. }
  unfold source_order. cbn [foldl].
  match goal with |- status_of _ ?s <> _ => set (final := s) end.
  assert (Hdone : done_with final source_order).
  { pose proof (done_with_complete (tasks env args) _ _ "validate" _ _ H0
                  eq_refl ltac:(deps_stored)) as H1.
    pose proof (done_with_complete (tasks env args) _ _ "balancedOpen" _ _ H1
                  eq_refl ltac:(deps_stored)) as H2.
    pose proof (done_with_complete (tasks env args) _ _ "getNodes" _ _ H2
                  eq_refl ltac:(deps_stored)) as H3.
    pose proof (done_with_complete (tasks env args) _ _ "getPayment" _ _ H3
                  eq_refl ltac:(deps_stored)) as H4.
    pose proof (done_with_complete (tasks env args) _ _ "getTransfer" _ _ H4
                  eq_refl ltac:(deps_stored)) as H5.
    pose proof (done_with_complete (tasks env args) _ _ "details" _ _ H5
                  eq_refl ltac:(deps_stored)) as H6.
    pose proof (done_with_complete (tasks env args) _ _ "post" _ _ H6
                  eq_refl ltac:(deps_stored)) as H7.
    pose proof (done_with_complete (tasks env args) _ _ "quiz" _ _ H7
                  eq_refl ltac:(deps_stored)) as [Hf|Hall]; [by left|].
    right. intros k Hk. apply Hall. unfold source_order in Hk.
    repeat (apply elem_of_cons in Hk as [->|Hk]; [elem_of_literal|]).
    by apply elem_of_nil in Hk. }
  unfold status_of. destruct Hdone as [Hf|Hall].
  - destruct (failed_task final) as [[k f]|]; [done|congruence].
  - destruct (failed_task final) as [[k f]|]; [done|].
    assert (forallb (completed (results final)) (map fst (tasks env args))
            = true) as ->; [|done].
    apply forallb_forall. intros k Hk. apply completed_is_Some, Hall.
    by apply list_elem_of_In in Hk.
Qed.

(** ** When a quiz is sent *)

Lemma run_failed_fresh env args schedule k f :
  failed_task (postSettledInvoice env args schedule) = Some (k, f) ->
  results (postSettledInvoice env args schedule) !! k = None.
Proof.
  intros Hf.
  destruct (asyncAuto_history (tasks env args) (tasks_reads_declared env args)
              schedule) as [order H].
  by destruct (h_failed _ _ _ H _ _ Hf).
Qed.

Lemma ran_stored st k v : results st !! k = Some v -> ran st k = true.
Proof. intros H. unfold ran, completed. by rewrite H. Qed.

(** Once a descriptor is stored, a settled call has run [post]. *)
Lemma settled_post env args schedule vd :
  results (postSettledInvoice env args schedule) !! "details" = Some vd ->
  settled env args schedule <> Pending ->
  ran (postSettledInvoice env args schedule) "post" = true.
Proof.
  intros Hvd Hsettled.
  destruct (run_details env args schedule vd Hvd) as [_ Hran].
  destruct (run_checks env args schedule Hran)
    as (vb & vn & vp & vt & Hb & _ & Hn & _ & Hp & _ & Ht & _ & [vv Hv]).
  unfold settled, status_of in Hsettled.
  destruct (failed_task _) as [[k f]|] eqn:Hf.
  - pose proof (run_failed_fresh env args schedule k f Hf) as Hfresh.
    destruct (run_failed env args schedule k f Hf)
      as (deps & body & Ha & Hdeps & _).
    apply tasks_inv in Ha.
    destruct Ha as [(-> & -> & ->)|[(-> & -> & ->)|[(-> & -> & ->)|
      [(-> & -> & ->)|[(-> & -> & ->)|[(-> & -> & ->)|[(-> & -> & ->)|
      (-> & -> & ->)]]]]]]]; try congruence.
    + unfold ran. by rewrite Hf, String.eqb_refl, orb_true_r.
    + destruct (Hdeps "post") as [v Hpost]; [elem_of_literal|].
      by apply (ran_stored _ _ v).
  - destruct (forallb _ _) eqn:Hall; [|done].
    rewrite forallb_forall in Hall. unfold ran.
    rewrite (Hall "post"); [done|]. cbn. tauto.
Qed.

Lemma quiz_out_of_range env args (r : gmap string value) d :
  r !! "details" = Some (VDetails d) ->
  (forall q, Descriptor.quiz d = Some q ->
     (length q < 2 \/ 10 < length q)%nat) ->
  quiz env args r = ret VUndefined.
Proof.
  intros Hd Hq. unfold quiz, get. rewrite Hd. cbn [from_option id].
  destruct (Descriptor.quiz d) as [q|]; [|done].
  destruct (Hq q eq_refl) as [Hlt|Hgt].
  - by destruct (Nat.ltb_spec (length q) minQuizLength);
      [|unfold minQuizLength in *; lia].
  - destruct (Nat.ltb_spec (length q) minQuizLength); [done|].
    by destruct (Nat.ltb_spec maxQuizLength (length q));
      [|unfold maxQuizLength in *; lia].
Qed.

Lemma quiz_sent env args (r : gmap string value) e :
  e ∈ fst (quiz env args r) ->
  exists d q,
    get r "details" = VDetails d /\ Descriptor.quiz d = Some q /\
    (2 <= length q <= 10)%nat /\
    e = EvQuiz
          (imap (place (q !! 0%nat) (q !! randomIndex env (length q))
                   (randomIndex env (length q))) q)
          (randomIndex env (length q)) (Descriptor.title d).
Proof.
  unfold quiz. destruct (get r "details") as [| | | | |d];
    try (by intros ?%elem_of_nil).
  destruct (Descriptor.quiz d) as [q|] eqn:Hq; [|by intros ?%elem_of_nil].
  destruct (Nat.ltb_spec (length q) minQuizLength);
    [by intros ?%elem_of_nil|].
  destruct (Nat.ltb_spec maxQuizLength (length q));
    [by intros ?%elem_of_nil|].
  destruct (Args.quiz args) as [quizfn|]; [|by intros ?%elem_of_nil].
  rewrite bind_deref_Some. cbn. intros He.
  exists d, q. split; [done|]. split; [done|].
  split; [unfold minQuizLength, maxQuizLength in *; lia|].
  destruct (quizfn _ _ _); cbn in He;
    by apply list_elem_of_singleton in He.
Qed.

(** C5, as the code has it.  A quiz is sent only if the stored descriptor
    carries a list of answers whose length lies in [2, 10]; whether it
    carries a title is not looked at, the title (present or not) is passed
    on as the question.  When the list is missing, shorter than 2 or longer
    than 10, the [quiz] task makes no call and calls back without an error,
    no quiz is in the trace, and a call that has settled has handed one
    text message to [send]. *)
Theorem quiz_length_gate env args schedule :
  let st := postSettledInvoice env args schedule in
  (forall e, e ∈ trace st -> is_quiz e = true ->
     exists d q,
       results st !! "details" = Some (VDetails d) /\
       Descriptor.quiz d = Some q /\ (2 <= length q <= 10)%nat /\
       exists answers correct,
         e = EvQuiz answers correct (Descriptor.title d)) /\
  (forall d,
     results st !! "details" = Some (VDetails d) ->
     (forall q, Descriptor.quiz d = Some q ->
        (length q < 2 \/ 10 < length q)%nat) ->
     quiz env args (results st) = ret VUndefined /\
     (forall e, e ∈ trace st -> is_quiz e = false) /\
     (settled env args schedule <> Pending ->
      exists uid text,
        List.filter is_send (trace st) = [EvSend uid text sendOptions])).
Proof.
  intros st. subst st. split.
  - intros e He Hq.
    assert (Hin : In e (List.filter is_quiz
                          (trace (postSettledInvoice env args schedule)))).
    { apply filter_In. split; [by apply list_elem_of_In|done]. }
    rewrite trace_quiz in Hin.
    destruct (ran _ "quiz") eqn:Hran; [|destruct Hin].
    apply list_elem_of_In in Hin.
    destruct (quiz_sent env args _ e Hin) as (d & q & Hd & Hquiz & Hlen & ->).
    destruct (run_quiz_ran env args schedule Hran)
      as (vd & vp & Hvd & _ & _ & _).
    unfold get in Hd. rewrite Hvd in Hd. cbn in Hd. subst vd.
    exists d, q. repeat (split; [done|]). eauto.
  - intros d Hd Hq.
    pose proof (quiz_out_of_range env args _ d Hd Hq) as Hquiz.
    split; [done|]. split.
    + intros e He. eapply filter_nil_none; [|exact He].
      rewrite trace_quiz, Hquiz. by destruct (ran _ _).
    + intros Hsettled.
      pose proof (settled_post env args schedule _ Hd Hsettled) as Hran.
      destruct (run_post_cases env args schedule Hran)
        as [[Hund _]|(d' & from & id & key & nodes & send &
                      Hd' & Hfrom & Hid & Hkey & Hnodes & Hsend)];
        [congruence|].
      rewrite trace_send, Hran.
      rewrite (post_details args _ d' from id key nodes send
                 Hd' Hfrom Hid Hkey Hnodes Hsend). cbn [fst]. eauto.
Qed.

(** Against C5 as stated: a quiz of two answers is sent although the
    descriptor has no title. *)
Lemma quiz_sent_without_title :
  ~ (forall env args schedule e,
       e ∈ trace (postSettledInvoice env args schedule) ->
       is_quiz e = true ->
       exists d q title,
         results (postSettledInvoice env args schedule) !! "details"
         = Some (VDetails d) /\
         Descriptor.title d = Some title /\
         Descriptor.quiz d = Some q /\ (2 <= length q <= 10)%nat).
Proof.
  intros Hall.
  destruct (Hall Scenario.anonymous Scenario.args source_order
              (EvQuiz [Some "peerB"; Some "peerA"] 1%nat None))
    as (d & q & title & Hd & Htitle & _).
  - vm_compute. do 8 apply list_elem_of_further. apply list_elem_of_here.
  - reflexivity.
  - vm_compute in Hd. injection Hd as <-. discriminate Htitle.
Qed.

Lemma quiz_length_gate_witness :
  quiz Scenario.single_answer Scenario.args
    (results (postSettledInvoice Scenario.single_answer Scenario.args
                source_order))
  = ret VUndefined /\
  (forall e,
     e ∈ trace (postSettledInvoice Scenario.single_answer Scenario.args
                  source_order) -> is_quiz e = false) /\
  settled Scenario.single_answer Scenario.args source_order = Resolved /\
  exists uid text,
    List.filter is_send
      (trace (postSettledInvoice Scenario.single_answer Scenario.args
                source_order))
    = [EvSend uid text sendOptions].
Proof.
  destruct (quiz_length_gate Scenario.single_answer Scenario.args
              source_order) as [_ Hout].
  destruct (Hout Scenario.lonely) as (Hquiz & Hnone & Hsent).
  - vm_compute. reflexivity.
  - intros q [= <-]. left. simpl. lia.
  - split; [exact Hquiz|]. split; [exact Hnone|].
    split; [vm_compute; reflexivity|].
    apply Hsent. vm_compute. discriminate.
Defined.

(** ** Invoices that are not confirmed *)

Section Unconfirmed.

Context (env : Env) (args : Args.t) (schedule : list string).
Context (invoice : Invoice.t).
Hypothesis Hinvoice : Args.invoice args = Some invoice.
Hypothesis Hunconfirmed : Invoice.is_confirmed invoice = false.

Local Abbreviation st := (postSettledInvoice env args schedule).

(** The three checks that look at [is_confirmed] call back at once. *)
Lemma unconfirmed_checks :
  balancedOpen env args = ret VUndefined /\
  getPayment env args = ret VUndefined /\
  getTransfer env args = ret VUndefined.
Proof.
  unfold balancedOpen, getPayment, getTransfer.
  by rewrite Hinvoice, !bind_deref_Some, Hunconfirmed.
Qed.

Lemma unconfirmed_details r : details env args r = ret VUndefined.
Proof.
  unfold details. by rewrite Hinvoice, !bind_deref_Some, Hunconfirmed.
Qed.

Lemma unconfirmed_stored v :
  results st !! "details" = Some v -> v = VUndefined.
Proof.
  intros Hv. destruct (run_details env args schedule v Hv) as [Hs _].
  rewrite unconfirmed_details in Hs. cbn in Hs. congruence.
Qed.

(** Nothing is composed and nothing is sent. *)
Lemma unconfirmed_silent e :
  e ∈ trace st ->
  is_compose e = false /\ is_send e = false /\ is_quiz e = false.
Proof.
  intros He. repeat split; (eapply filter_nil_none; [|exact He]).
  - rewrite trace_compose, unconfirmed_details. by destruct (ran _ _).
  - rewrite trace_send. destruct (ran _ "post") eqn:Hran; [|done].
    destruct (run_post_ran env args schedule Hran) as (vd & Hvd & _ & _).
    rewrite (unconfirmed_stored vd Hvd) in Hvd. by rewrite post_nothing.
  - rewrite trace_quiz. destruct (ran _ "quiz") eqn:Hran; [|done].
    destruct (run_quiz_ran env args schedule Hran) as (vd & _ & Hvd & _).
    rewrite (unconfirmed_stored vd Hvd) in Hvd. by rewrite quiz_nothing.
Qed.

End Unconfirmed.

Lemma bind_fst_prefix {A B} (m : M A) (k : A -> M B) :
  exists evs, fst (m ≫= k) = fst m ++ evs.
Proof.
  unfold mbind, M_bind, bind. destruct m as [evs [a| |]]; simpl.
  - destruct (k a) as [evs' o]. by exists evs'.
  - exists []. by rewrite app_nil_r.
  - exists []. by rewrite app_nil_r.
Qed.

Lemma getNode_first env lnd key id :
  exists evs, fst (getNode env lnd key id) = EvGetChannel lnd id :: evs.
Proof.
  unfold getNode. cbn. destruct (getChannel env lnd id) as [err|res];
    [by eauto|].
  destruct (List.find _ _) as [peer|]; cbn; [|by eauto].
  destruct (getNodeAlias env lnd (Policy.public_key peer)); eauto.
Qed.

(** Confirmed or not, an invoice with a payment has its first channel
    looked up by [getNodes]. *)
Lemma getNodes_looks_up env args invoice lnd key htlc htlcs :
  Args.invoice args = Some invoice -> Args.lnd args = Some lnd ->
  Args.key args = Some key ->
  Invoice.payments invoice = htlc :: htlcs ->
  exists evs,
    fst (getNodes env args)
    = EvGetChannel lnd (Htlc.in_channel htlc) :: evs.
Proof.
  intros Hinvoice Hlnd Hkey Hpayments. unfold getNodes.
  rewrite Hinvoice, Hlnd, Hkey, !bind_deref_Some, Hpayments.
  unfold uniq. cbn [map uniq_from existsb asyncMap].
  repeat match goal with
  | |- context [fst (?m ≫= ?k)] =>
      let evs := fresh "evs" in
      destruct (bind_fst_prefix m k) as [evs ->]
  end.
  destruct (getNode_first env lnd key (Htlc.in_channel htlc)) as [evs' ->].
  cbn. eauto.
Qed.

(** C2, at a held invoice with one payment through channel 61x1: the
    [getNodes] check does not look at [is_confirmed]; it looks the channel
    up and resolves the alias of the peer, while nothing is dispatched. *)
Lemma unconfirmed_looks_up_channels :
  Invoice.is_confirmed Scenario.held = false /\
  getNodes Scenario.env Scenario.held_args =
    ([EvGetChannel Scenario.own "61x1";
      EvGetNodeAlias Scenario.own Scenario.peer],
     Ok (VAliases [Alias.mk Scenario.peer "peerA"])) /\
  trace (postSettledInvoice Scenario.env Scenario.held_args source_order) =
    [EvGetChannel Scenario.own "61x1";
     EvGetNodeAlias Scenario.own Scenario.peer] /\
  settled Scenario.env Scenario.held_args source_order = Resolved.
Proof. vm_compute. repeat split; reflexivity. Qed.

(** ** A complete run *)

(** One controlled node beside the receiving one, a confirmed invoice paid
    through two channels of the same peer, no balanced open, no rebalance,
    no transfer: the aliases are resolved, the probes are asked, the
    received message is composed with both aliases, the text goes out with
    the escaped from label and the quiz follows with its four answers. *)
Example received_run :
  trace (postSettledInvoice Scenario.env Scenario.args source_order) =
    [ EvGetChannel Scenario.own "61x1";
      EvGetNodeAlias Scenario.own Scenario.peer;
      EvGetChannel Scenario.own "61x2";
      EvGetNodeAlias Scenario.own Scenario.peer;
      EvSubscribeToPastPayment Scenario.own "c0ffee";
      EvSubscribeToPastPayment Scenario.other "c0ffee";
      EvGetReceivedMessage Scenario.own "coffee" Scenario.htlcs 2
        [ Alias.mk Scenario.peer "peerA"; Alias.mk Scenario.peer "peerA" ];
      EvSend 7
        ("I Received 2 via peerA " +:+ String Markup.backslash "- alpha"
         +:+ String Markup.backslash "_1")
        sendOptions;
      EvQuiz [Some "peerC"; Some "peerB"; Some "peerA"; Some "peerD"] 2%nat
        (Some "Who routed this?") ] /\
  settled Scenario.env Scenario.args source_order = Resolved.
Proof. vm_compute. split; reflexivity. Qed.

(** The same run when the checks complete in another order sends the same
    text and the same quiz. *)
Example received_run_reordered :
  List.filter (fun e => negb (is_probe e))
    (trace (postSettledInvoice Scenario.env Scenario.args
              Scenario.rebalance_first))
  = List.filter (fun e => negb (is_probe e))
      (trace (postSettledInvoice Scenario.env Scenario.args source_order)).
Proof. vm_compute. reflexivity. Qed.

(** * Further properties of the parts *)

(** ** Escaping *)

Lemma escape_app (s t : string) :
  Markup.escape (s +:+ t) = Markup.escape s +:+ Markup.escape t.
Proof.
  induction s as [|c s IH]; [done|].
  change (String c s +:+ t) with (String c (s +:+ t)).
  rewrite !escape_cons, IH. by destruct (Markup.is_reserved c).
Qed.

(** X1. Escaping distributes over concatenation, so a text built from
    parts can be escaped part by part; in particular the dash of the
    separator before the from label is itself escaped. *)
Theorem escape_concatenation (s t from : string) :
  Markup.escape (s +:+ t) = Markup.escape s +:+ Markup.escape t /\
  Markup.escape (" - " +:+ from) =
    String " " (String Markup.backslash "- ") +:+ Markup.escape from.
Proof. split; [apply escape_app|]. by rewrite escape_app. Qed.

(** A text in which exactly the reserved characters are backslash-prefixed
    is the escaped form of what it reads back as. *)
Lemma Escaped_unique (t : string) :
  Markup.Escaped t -> t = Markup.escape (Markup.unescape t).
Proof.
  induction 1 as [|c t Hc _ IH|c t Hc _ IH].
  - done.
  - cbn [Markup.unescape].
    destruct (Ascii.eqb_spec c Markup.backslash) as [->|_];
      [discriminate Hc|].
    by rewrite escape_cons, Hc, <- IH.
  - cbn [Markup.unescape]. rewrite Ascii.eqb_refl.
    by rewrite escape_cons, Hc, <- IH.
Qed.

(** X2. Escaping puts one backslash before each reserved character and
    changes nothing else.  In the escaped text exactly the reserved
    characters are backslash-prefixed, removing the prefixes gives the
    original back, and the escaped text is the only text with these two
    properties; so it is longer than the original by the number of its
    reserved characters, at most twice as long, and equal to the original
    exactly when the original has no reserved character. *)
Theorem escape_only_adds_backslashes (s : string) :
  Markup.Escaped (Markup.escape s) /\
  Markup.unescape (Markup.escape s) = s /\
  (forall t, Markup.Escaped t -> Markup.unescape t = s ->
     t = Markup.escape s) /\
  String.length (Markup.escape s) = (String.length s + reserved_count s)%nat /\
  (String.length (Markup.escape s) <= 2 * String.length s)%nat /\
  (Markup.escape s = s <-> reserved_count s = 0%nat).
Proof.
  split; [apply escape_Escaped|]. split; [apply unescape_escape|].
  split.
  { intros t Ht <-. by apply Escaped_unique. }
  assert (Hlen : forall s,
    String.length (Markup.escape s)
    = (String.length s + reserved_count s)%nat).
  { clear s. induction s as [|c s IH]; [done|]. rewrite escape_cons.
    unfold reserved_count in *. cbn [list_ascii_of_string List.filter].
    destruct (Markup.is_reserved c); cbn [String.length length];
      rewrite IH; lia. }
  assert (Hcount : forall s, (reserved_count s <= String.length s)%nat).
  { clear s Hlen. induction s as [|c s IH]; [done|].
    unfold reserved_count in *. cbn [list_ascii_of_string List.filter].
    destruct (Markup.is_reserved c); cbn [String.length length]; lia. }
  split; [apply Hlen|]. split.
  { rewrite Hlen. specialize (Hcount s). lia. }
  split.
  - intros Heq. specialize (Hlen s). rewrite Heq in Hlen. lia.
  - intros Hzero. apply escape_plain. unfold reserved_count in Hzero.
    apply forallb_forall. intros c Hc. apply negb_true_iff.
    destruct (Markup.is_reserved c) eqn:Hres; [|done].
    assert (Hin : In c (List.filter Markup.is_reserved
                          (list_ascii_of_string s))).
    { apply filter_In. by split. }
    destruct (List.filter _ _); [destruct Hin|discriminate].
Qed.

(** X3. Escaping loses nothing: two texts with the same escaped form are
    the same text. *)
Theorem escape_injective (s t : string) :
  Markup.escape s = Markup.escape t -> s = t.
Proof.
  intros H. rewrite <- (unescape_escape s), <- (unescape_escape t).
  by rewrite H.
Qed.

Lemma escape_injective_witness : "a_b" = "a_b".
Proof. apply (escape_injective "a_b" "a_b"). reflexivity. Defined.

(** ** Distinct channels *)

Lemma existsb_eqb_elem (x : string) (seen : list string) :
  existsb (String.eqb x) seen = true <-> x ∈ seen.
Proof.
  rewrite existsb_exists. split.
  - intros (y & Hy & Heq). apply String.eqb_eq in Heq as <-.
    by apply list_elem_of_In.
  - intros Hin. exists x. split; [by apply list_elem_of_In|].
    apply String.eqb_refl.
Qed.

Lemma uniq_from_fresh (seen arr : list string) (x : string) :
  x ∈ uniq_from seen arr -> x ∉ seen.
Proof.
  revert seen. induction arr as [|y arr IH]; intros seen; simpl.
  - by intros ?%elem_of_nil.
  - destruct (existsb (String.eqb y) seen) eqn:Hy; [by apply IH|].
    intros [->|Hin]%elem_of_cons.
    + intros Hseen. apply existsb_eqb_elem in Hseen. congruence.
    + intros Hseen. apply (IH (y :: seen) Hin). by apply list_elem_of_further.
Qed.

Lemma uniq_from_NoDup (seen arr : list string) : NoDup (uniq_from seen arr).
Proof.
  revert seen. induction arr as [|y arr IH]; intros seen; simpl.
  - constructor.
  - destruct (existsb (String.eqb y) seen); [apply IH|].
    apply NoDup_cons. split; [|apply IH].
    intros Hin. apply uniq_from_fresh in Hin. apply Hin, list_elem_of_here.
Qed.

Lemma uniq_from_sublist (seen arr : list string) :
  sublist (uniq_from seen arr) arr.
Proof.
  revert seen. induction arr as [|y arr IH]; intros seen; simpl.
  - constructor.
  - destruct (existsb (String.eqb y) seen).
    + apply sublist_cons, IH.
    + apply sublist_skip, IH.
Qed.

Lemma uniq_from_id (seen arr : list string) :
  NoDup arr -> (forall x, x ∈ arr -> x ∉ seen) -> uniq_from seen arr = arr.
Proof.
  revert seen. induction arr as [|y arr IH]; intros seen Hnd Hseen; [done|].
  apply NoDup_cons in Hnd as [Hy Hnd]. simpl.
  destruct (existsb (String.eqb y) seen) eqn:Hex.
  - apply existsb_eqb_elem in Hex.
    destruct (Hseen y); [apply list_elem_of_here|done].
  - f_equal. apply IH; [done|]. intros x Hx [->|Hin]%elem_of_cons; [done|].
    by apply (Hseen x); [apply list_elem_of_further|].
Qed.

(** An element added at the end of the input is added at the end of the
    result when it is new, and changes nothing otherwise. *)
Lemma uniq_from_snoc (seen arr : list string) (x : string) :
  uniq_from seen (arr ++ [x]) =
    uniq_from seen arr ++
    (if existsb (String.eqb x) seen || existsb (String.eqb x) arr
     then [] else [x]).
Proof.
  revert seen. induction arr as [|y arr IH]; intros seen; simpl.
  - rewrite orb_false_r. by destruct (existsb (String.eqb x) seen).
  - destruct (existsb (String.eqb y) seen) eqn:Hy.
    + rewrite IH. f_equal.
      destruct (String.eqb_spec x y) as [->|_]; [|done].
      by rewrite Hy.
    + rewrite IH. simpl. do 2 f_equal.
      destruct (String.eqb x y), (existsb (String.eqb x) seen); done.
Qed.

(** X4. [uniq] keeps the first occurrence of every element and drops the
    later ones.  Adding an element at the end of the input adds it at the
    end of the result when it has not occurred before, and leaves the
    result as it is when it has; so the result has no duplicates, has the
    same members as the input, lists them in the order of the input, and a
    list without duplicates (so also a result of [uniq]) is left
    unchanged. *)
Theorem uniq_first_occurrences (arr : list string) :
  (forall x, x ∈ arr -> uniq (arr ++ [x]) = uniq arr) /\
  (forall x, x ∉ arr -> uniq (arr ++ [x]) = uniq arr ++ [x]) /\
  NoDup (uniq arr) /\
  (forall x, x ∈ uniq arr <-> x ∈ arr) /\
  sublist (uniq arr) arr /\
  (NoDup arr -> uniq arr = arr) /\
  uniq (uniq arr) = uniq arr.
Proof.
  split.
  { intros x Hx. unfold uniq. rewrite uniq_from_snoc. cbn [existsb orb].
    apply existsb_eqb_elem in Hx. by rewrite Hx, app_nil_r. }
  split.
  { intros x Hx. unfold uniq. rewrite uniq_from_snoc. cbn [existsb orb].
    destruct (existsb (String.eqb x) arr) eqn:Hex; [|done].
    by apply existsb_eqb_elem in Hex. }
  assert (Hid : forall l, NoDup l -> uniq l = l).
  { intros l Hl. apply uniq_from_id; [done|]. intros x _.
    apply not_elem_of_nil. }
  split; [apply uniq_from_NoDup|]. split.
  { intros x. split; [apply uniq_from_subset|apply uniq_elem]. }
  split; [apply uniq_from_sublist|]. split; [apply Hid|].
  apply Hid, uniq_from_NoDup.
Qed.

(** ** What the alias resolution yields *)

Lemma asyncMap_results {A B} (coll : list A) (f : A -> M B) (ys : list B) :
  snd (asyncMap coll f) = Ok ys ->
  Forall2 (fun x y => snd (f x) = Ok y) coll ys /\
  fst (asyncMap coll f) = flat_map (fun x => fst (f x)) coll.
Proof.
  revert ys. induction coll as [|x coll IH]; intros ys.
  - cbn. intros [= <-]. by split; [constructor|].
  - cbn [asyncMap flat_map]. unfold mbind, M_bind, bind.
    destruct (f x) as [evs [y| |]] eqn:Hx; [|discriminate..].
    destruct (asyncMap coll f) as [evs' [ys'| |]] eqn:Hrest;
      [|discriminate..].
    cbn. intros [= <-]. destruct (IH ys' eq_refl) as [Hall Hevs].
    split; [constructor; [by rewrite Hx|done]|].
    cbn in Hevs. by rewrite Hevs, app_nil_r.
Qed.

Lemma getNode_resolves env lnd key id a :
  snd (getNode env lnd key id) = Ok a -> resolves env lnd key id a.
Proof.
  unfold getNode, resolves. cbn.
  destruct (getChannel env lnd id) as [err|res]; cbn.
  - intros [= <-]. left. eauto.
  - destruct (List.find _ _) as [peer|] eqn:Hfind; cbn; [|discriminate].
    destruct (getNodeAlias env lnd (Policy.public_key peer)) as [e|a']
      eqn:Halias; cbn; [discriminate|].
    intros [= <-]. right. eauto.
Qed.

Lemma getNode_one_lookup env lnd key id :
  List.filter is_getChannel (fst (getNode env lnd key id))
  = [EvGetChannel lnd id].
Proof.
  unfold getNode. cbn. destruct (getChannel env lnd id) as [err|res]; cbn;
    [done|].
  destruct (List.find _ _) as [peer|]; cbn; [|done].
  by destruct (getNodeAlias env lnd (Policy.public_key peer)).
Qed.

(** X5. When [getNodes] calls back with a result, the result holds one
    alias record per distinct [in_channel] of the invoice, in the order in
    which the channels first appear among the payments; each record is the
    fallback of a failed lookup or what [getNodeAlias] returned for the
    first policy that is not the receiving node's; and every distinct
    channel was looked up exactly once, in that order. *)
Theorem getNodes_one_alias_per_channel env args invoice lnd key v :
  Args.invoice args = Some invoice -> Args.lnd args = Some lnd ->
  Args.key args = Some key ->
  snd (getNodes env args) = Ok v ->
  let inChannels := uniq (map Htlc.in_channel (Invoice.payments invoice)) in
  exists via,
    v = VAliases via /\
    Forall2 (resolves env lnd key) inChannels via /\
    length via = length inChannels /\
    List.filter is_getChannel (fst (getNodes env args))
    = map (EvGetChannel lnd) inChannels.
Proof.
  intros Hinvoice Hlnd Hkey Hok inChannels. revert Hok. unfold getNodes.
  rewrite Hinvoice, Hlnd, Hkey, !bind_deref_Some. fold inChannels.
  unfold mbind, M_bind, bind.
  destruct (asyncMap inChannels (getNode env lnd key)) as [evs [via| |]]
    eqn:Hmap; [|discriminate..].
  cbn. intros [= <-]. exists via. split; [done|].
  destruct (asyncMap_results inChannels (getNode env lnd key) via)
    as [Hall Hevs]; [by rewrite Hmap|].
  rewrite Hmap in Hevs. cbn [fst] in Hevs. subst evs.
  split.
  { eapply Forall2_impl; [exact Hall|]. intros id a. apply getNode_resolves. }
  split; [symmetry; by eapply Forall2_length|].
  rewrite app_nil_r. generalize inChannels. clear.
  induction inChannels as [|id l IH]; [done|].
  cbn [flat_map map]. by rewrite List.filter_app, getNode_one_lookup, IH.
Qed.

Lemma getNodes_one_alias_per_channel_witness :
  exists via,
    VAliases [Alias.mk Scenario.peer "peerA"; Alias.mk Scenario.peer "peerA"]
    = VAliases via /\
    Forall2 (resolves Scenario.env Scenario.own Scenario.me)
      (uniq (map Htlc.in_channel (Invoice.payments Scenario.invoice))) via /\
    length via
    = length (uniq (map Htlc.in_channel (Invoice.payments Scenario.invoice)))
    /\
    List.filter is_getChannel (fst (getNodes Scenario.env Scenario.args))
    = map (EvGetChannel Scenario.own)
        (uniq (map Htlc.in_channel (Invoice.payments Scenario.invoice))).
Proof.
  apply (getNodes_one_alias_per_channel Scenario.env Scenario.args
           Scenario.invoice Scenario.own Scenario.me).
  - reflexivity.
  - reflexivity.
  - reflexivity.
  - reflexivity.
Defined.

(** ** The transfer check *)

(** X6. For a confirmed invoice [getTransfer] subscribes once to the past
    payment of every controlled node whose public key differs from the
    receiving key, in the order of [nodes], and to no other node; it never
    calls back with an error; it stores a node only if that node is one of
    those and its subscription confirmed, and stores nothing only if none
    of them confirmed.  With no other controlled node it makes no call. *)
Theorem getTransfer_asks_other_nodes env args invoice key nodes :
  Args.invoice args = Some invoice ->
  Invoice.is_confirmed invoice = true ->
  Args.key args = Some key -> Args.nodes args = Some nodes ->
  let id := Invoice.id invoice in
  let others :=
    List.filter (fun n => negb (String.eqb (Node.public_key n) key)) nodes in
  fst (getTransfer env args)
  = map (fun n => EvSubscribeToPastPayment (Node.lnd n) id) others /\
  (exists v, snd (getTransfer env args) = Ok v /\
     ((v = VUndefined /\
       forall n, n ∈ nodes -> Node.public_key n <> key ->
         confirms env id n = false) \/
      (exists n, v = VNode n /\ n ∈ nodes /\ Node.public_key n <> key /\
         confirms env id n = true))) /\
  ((forall n, n ∈ nodes -> Node.public_key n = key) ->
   getTransfer env args = ret VUndefined).
Proof.
  intros Hinvoice Hc Hkey Hnodes id others.
  assert (Heq : getTransfer env args =
    (map (fun n => EvSubscribeToPastPayment (Node.lnd n) id) others,
     Ok match List.find (confirms env id) others with
        | Some n => VNode n
        | None => VUndefined
        end)).
  { unfold getTransfer.
    rewrite Hinvoice, Hnodes, Hkey, !bind_deref_Some, Hc. cbn [negb].
    rewrite ?bind_deref_Some. fold id others.
    rewrite asyncDetect_paidFrom. cbn. by rewrite app_nil_r. }
  split; [by rewrite Heq|]. split.
  - rewrite Heq. cbn [snd].
    destruct (List.find (confirms env id) others) as [n|] eqn:Hfind.
    + exists (VNode n). split; [done|]. right. exists n. split; [done|].
      apply find_some in Hfind as [Hin Hn]. unfold others in Hin.
      apply filter_In in Hin as [Hin Hne].
      split; [by apply list_elem_of_In|]. split; [|done].
      by apply negb_true_iff, String.eqb_neq in Hne.
    + exists VUndefined. split; [done|]. left. split; [done|].
      intros n Hin Hne. eapply find_none in Hfind; [exact Hfind|].
      unfold others. apply filter_In. split; [by apply list_elem_of_In|].
      by apply negb_true_iff, String.eqb_neq.
  - intros Hall. rewrite Heq.
    assert (others = []) as ->; [|done].
    unfold others. clear -Hall. induction nodes as [|n l IH]; [done|].
    cbn. rewrite (Hall n) by apply list_elem_of_here.
    rewrite String.eqb_refl. cbn. apply IH. intros m Hm. apply Hall.
    by apply list_elem_of_further.
Qed.

Lemma getTransfer_asks_other_nodes_witness :
  fst (getTransfer Scenario.transfer Scenario.args)
  = [EvSubscribeToPastPayment Scenario.other "c0ffee"] /\
  snd (getTransfer Scenario.transfer Scenario.args)
  = Ok (VNode (Node.mk "beta" Scenario.other Scenario.sibling)).
Proof.
  destruct (getTransfer_asks_other_nodes Scenario.transfer Scenario.args
              Scenario.invoice Scenario.me Scenario.two_nodes
              eq_refl eq_refl eq_refl eq_refl) as (Hevs & _ & _).
  split; [exact Hevs|]. reflexivity.
Defined.

(** ** What validation lets through *)

Lemma truthy_string_spec (o : option string) :
  truthy_string o = true <-> exists s, o = Some s /\ s <> EmptyString.
Proof.
  unfold truthy_string. destruct o as [s|].
  - rewrite negb_true_iff, String.eqb_neq. split; [eauto|].
    by intros (s' & [= <-] & Hs).
  - split; [discriminate|]. by intros (s & Hs & _).
Qed.

Lemma truthy_number_spec (o : option Z) :
  truthy_number o = true <-> exists n, o = Some n /\ n <> 0.
Proof.
  unfold truthy_number. destruct o as [n|].
  - rewrite negb_true_iff, Z.eqb_neq. split; [eauto|].
    by intros (n' & [= <-] & Hn).
  - split; [discriminate|]. by intros (n & Hn & _).
Qed.

Lemma present_spec {A} (o : option A) :
  present o = true <-> exists a, o = Some a.
Proof.
  destruct o as [a|]; simpl; split; eauto; try discriminate.
  by intros [a Ha].
Qed.

(** X7. [validate] lets the call through exactly when [from] and [key] are
    non-empty strings, [id] is a number other than zero, [nodes] is an
    array (an empty one will do) and the invoice, the node handle and the
    two transport functions are present.  An empty [from] and a zero [id]
    are rejected with the tokens of the missing [from] and [id]. *)
Theorem validate_accepts args :
  (validate args = ret VUndefined <->
   exists from id invoice key lnd nodes quizfn send,
     Args.from args = Some from /\ from <> EmptyString /\
     Args.id args = Some id /\ id <> 0 /\
     Args.invoice args = Some invoice /\
     Args.key args = Some key /\ key <> EmptyString /\
     Args.lnd args = Some lnd /\ Args.nodes args = Some nodes /\
     Args.quiz args = Some quizfn /\ Args.send args = Some send) /\
  (Args.from args = Some EmptyString ->
   validate args = fail (400, "ExpectedFromNameToPostSettledInvoice")) /\
  (truthy_string (Args.from args) = true -> Args.id args = Some 0 ->
   validate args = fail (400, "ExpectedUserIdNumberToPostSettledInvoice")).
Proof.
  split; [|split].
  - rewrite validate_first_rejected. split.
    + destruct (first_rejected args) as [f|] eqn:Hf; [discriminate|].
      intros _. unfold first_rejected in Hf.
      assert (Hacc : forall f, accepted args f = true).
      { intros f. apply negb_false_iff.
        apply (find_none _ _ Hf f). unfold fields. destruct f; simpl; tauto. }
      destruct (proj1 (truthy_string_spec _) (Hacc FFrom))
        as (from & Hfrom & Hfrom').
      destruct (proj1 (truthy_number_spec _) (Hacc FId)) as (id & Hid & Hid').
      destruct (proj1 (present_spec _) (Hacc FInvoice)) as (invoice & Hinv).
      destruct (proj1 (truthy_string_spec _) (Hacc FKey))
        as (key & Hkey & Hkey').
      destruct (proj1 (present_spec _) (Hacc FLnd)) as (lnd & Hlnd).
      destruct (proj1 (present_spec _) (Hacc FNodes)) as (nodes & Hnodes).
      destruct (proj1 (present_spec _) (Hacc FQuiz)) as (quizfn & Hquiz).
      destruct (proj1 (present_spec _) (Hacc FSend)) as (send & Hsend).
      exists from, id, invoice, key, lnd, nodes, quizfn, send.
      repeat split; done.
    + intros (from & id & invoice & key & lnd & nodes & quizfn & send &
              Hfrom & Hfrom' & Hid & Hid' & Hinv & Hkey & Hkey' & Hlnd &
              Hnodes & Hquiz & Hsend).
      unfold first_rejected, fields. cbn [List.find accepted].
      rewrite Hfrom, Hid, Hinv, Hkey, Hlnd, Hnodes, Hquiz, Hsend.
      cbn [truthy_string truthy_number present negb].
      apply String.eqb_neq in Hfrom', Hkey'. apply Z.eqb_neq in Hid'.
      by rewrite Hfrom', Hid', Hkey'.
  - intros Hfrom. unfold validate. by rewrite Hfrom.
  - intros Hfrom Hid. unfold validate. by rewrite Hfrom, Hid.
Qed.

(** ** Invoices that are not confirmed *)

(** X8. For an invoice that is not confirmed, along every completion
    order: [balancedOpen], [getPayment] and [getTransfer] call back at once
    without a call, [details] makes no call and stores no descriptor, no
    composer is called and neither a text nor a quiz is sent. *)
Theorem unconfirmed_sends_nothing env args schedule invoice :
  Args.invoice args = Some invoice ->
  Invoice.is_confirmed invoice = false ->
  balancedOpen env args = ret VUndefined /\
  getPayment env args = ret VUndefined /\
  getTransfer env args = ret VUndefined /\
  (forall r, details env args r = ret VUndefined) /\
  (forall v,
     results (postSettledInvoice env args schedule) !! "details" = Some v ->
     v = VUndefined) /\
  (forall e, e ∈ trace (postSettledInvoice env args schedule) ->
     is_compose e = false /\ is_send e = false /\ is_quiz e = false).
Proof.
  intros Hinvoice Hunconfirmed.
  destruct (unconfirmed_checks env args invoice Hinvoice Hunconfirmed)
    as (Hb & Hp & Ht).
  repeat (split; [done|]). split.
  { intros r. by eapply unconfirmed_details. }
  split.
  { intros v. by eapply unconfirmed_stored. }
  intros e. by eapply unconfirmed_silent.
Qed.

Lemma unconfirmed_sends_nothing_witness :
  getTransfer Scenario.env Scenario.held_args = ret VUndefined /\
  Forall (fun e => is_compose e = false /\ is_send e = false /\
                   is_quiz e = false)
    (trace (postSettledInvoice Scenario.env Scenario.held_args
              source_order)).
Proof.
  destruct (unconfirmed_sends_nothing Scenario.env Scenario.held_args
              source_order Scenario.held eq_refl eq_refl)
    as (_ & _ & Htransfer & _ & _ & Hsilent).
  split; [exact Htransfer|]. apply List.Forall_forall. intros e He.
  apply Hsilent. by apply list_elem_of_In.
Defined.

(** ** Settling *)

Lemma assoc_In {A} (k : string) (tbl : list (string * A)) (x : A) :
  assoc k tbl = Some x -> In k (map fst tbl).
Proof.
  induction tbl as [|[k' y] tbl IH]; [discriminate|]. simpl.
  destruct (String.eqb_spec k k') as [->|_]; [by left|].
  intros H. right. by apply IH.
Qed.

(** X10. The task table has no deadlock.  Whatever has completed so far,
    once the tasks have had the chance to complete in the order in which
    the source lists them, either some task has failed (called back with an
    error or thrown), or every one of the eight tasks has stored its result
    and the call has resolved. *)
Theorem source_order_completes env args schedule :
  let st := postSettledInvoice env args (schedule ++ source_order) in
  (failed_task st = None <->
   settled env args (schedule ++ source_order) = Resolved) /\
  (failed_task st = None <->
   forall k, k ∈ source_order -> is_Some (results st !! k)).
Proof.
  intros st. subst st.
  pose proof (source_order_settles env args schedule) as Hsettled.
  assert (Hres : failed_task (postSettledInvoice env args
                                (schedule ++ source_order)) = None <->
                 settled env args (schedule ++ source_order) = Resolved).
  { unfold settled, status_of in *.
    destruct (failed_task _) as [[k f]|]; [done|].
    by destruct (forallb _ _). }
  split; [done|]. rewrite Hres. split.
  - intros Hr k Hk. by apply resolved_completed.
  - intros Hall. apply Hres.
    destruct (failed_task _) as [[k f]|] eqn:Hf; [|done].
    pose proof (run_failed_fresh env args _ k f Hf) as Hfresh.
    destruct (run_failed env args _ k f Hf) as (deps & body & Ha & _).
    apply assoc_In, list_elem_of_In in Ha.
    destruct (Hall k Ha) as [v Hv]. congruence.
Qed.

(** ** How the tasks can end *)

Section Endings.

Context (env : Env) (args : Args.t).
Context (invoice : Invoice.t) (lnd : Lnd).
Hypothesis Hinvoice : Args.invoice args = Some invoice.
Hypothesis Hlnd : Args.lnd args = Some lnd.

Lemma balancedOpen_ends :
  exists v, balancedOpen env args = ([], Ok v) /\ proposal_shape v.
Proof.
  unfold proposal_shape, balancedOpen. rewrite Hinvoice, bind_deref_Some.
  destruct (negb _); [exists VUndefined; split; [reflexivity|by left]|].
  destruct (balancedOpenRequest _ _ _ _ _) as [p|].
  - exists (VProposal p). split; [reflexivity|]. right. eauto.
  - exists VUndefined. split; [reflexivity|]. by left.
Qed.

Lemma getPayment_ends :
  exists evs v, getPayment env args = (evs, Ok v) /\
    payment_shape v.
Proof.
  unfold payment_shape, getPayment. rewrite Hinvoice, bind_deref_Some.
  destruct (negb _); [exists [], VUndefined; split; [reflexivity|by left]|].
  rewrite Hlnd, bind_deref_Some. cbn.
  destruct (subscribeToPastPayment _ _ _) as [payment| |].
  - eexists _, (VPayment payment). split; [reflexivity|]. right. eauto.
  - eexists _, VUndefined. split; [reflexivity|]. by left.
  - eexists _, VUndefined. split; [reflexivity|]. by left.
Qed.

Lemma getTransfer_ends key nodes :
  Args.key args = Some key -> Args.nodes args = Some nodes ->
  exists evs v, getTransfer env args = (evs, Ok v) /\
    node_shape v.
Proof.
  intros Hkey Hnodes. unfold node_shape, getTransfer.
  rewrite Hinvoice, bind_deref_Some.
  destruct (negb _); [exists [], VUndefined; split; [reflexivity|by left]|].
  rewrite Hnodes, Hkey, !bind_deref_Some, asyncDetect_paidFrom. cbn.
  destruct (List.find _ _) as [n|].
  - eexists _, (VNode n). split; [reflexivity|]. right. eauto.
  - eexists _, VUndefined. split; [reflexivity|]. by left.
Qed.

(** [details] on well-formed results: nothing, or one composer call. *)
Lemma details_ends (r : gmap string value) :
  proposal_shape (get r "balancedOpen") ->
  aliases_shape (get r "getNodes") ->
  payment_shape (get r "getPayment") ->
  details env args r = ret VUndefined \/
  exists ev res,
    is_compose ev = true /\ composed_by env res /\
    details env args r =
      ([ev], match res with inl e => Err e | inr d => Ok (VDetails d) end).
Proof.
  intros Hb Hn Hp. unfold details. rewrite Hinvoice, bind_deref_Some.
  unfold proposal_shape, aliases_shape, payment_shape in *.
  destruct (negb _); [by left|].
  destruct (truthy (get r "getTransfer")); [by left|].
  rewrite Hlnd, !bind_deref_Some. right.
  destruct Hb as [->|[p ->]]; cbn [truthy].
  - destruct Hp as [->|[payment ->]]; cbn [truthy].
    + destruct Hn as [via ->].
      exists (EvGetReceivedMessage lnd (Invoice.description invoice)
                (Invoice.payments invoice) (Invoice.received invoice) via),
             (getReceivedMessage env lnd (Invoice.description invoice)
                (Invoice.payments invoice) (Invoice.received invoice) via).
      split; [done|]. split; [right; right; eauto 10|].
      cbn. by destruct (getReceivedMessage _ _ _ _ _ _).
    + exists (EvGetRebalanceMessage lnd (PastPayment.fee_mtokens payment)
                (PastPayment.hops payment) (Invoice.payments invoice)
                (Invoice.received_mtokens invoice)),
             (getRebalanceMessage env lnd (PastPayment.fee_mtokens payment)
                (PastPayment.hops payment) (Invoice.payments invoice)
                (Invoice.received_mtokens invoice)).
      split; [done|]. split; [right; left; eauto 10|].
      cbn. by destruct (getRebalanceMessage _ _ _ _ _ _).
  - exists (EvGetBalancedOpenMessage lnd (Proposal.capacity p)
              (Proposal.partner_public_key p) (Proposal.fee_rate p)),
           (getBalancedOpenMessage env lnd (Proposal.capacity p)
              (Proposal.partner_public_key p) (Proposal.fee_rate p)).
    split; [done|]. split; [left; eauto 10|].
    cbn. by destruct (getBalancedOpenMessage _ _ _ _ _).
Qed.

End Endings.

Lemma asyncMap_stops {A B} (coll : list A) (f : A -> M B) :
  match snd (asyncMap coll f) with
  | Ok _ => True
  | Err e => exists x, x ∈ coll /\ snd (f x) = Err e
  | Thrown m => exists x, x ∈ coll /\ snd (f x) = Thrown m
  end.
Proof.
  induction coll as [|x coll IH]; [done|]. cbn [asyncMap].
  unfold mbind, M_bind, bind.
  destruct (f x) as [evs [y| |]] eqn:Hx; cbn.
  - destruct (asyncMap coll f) as [evs' [ys| |]]; cbn in *; [done| |].
    + destruct IH as (z & Hz & Hfz). exists z.
      split; [by apply list_elem_of_further|done].
    + destruct IH as (z & Hz & Hfz). exists z.
      split; [by apply list_elem_of_further|done].
  - exists x. split; [apply list_elem_of_here|]. by rewrite Hx.
  - exists x. split; [apply list_elem_of_here|]. by rewrite Hx.
Qed.

(** How resolving one channel can go wrong. *)
Lemma getNode_stops env lnd key id :
  match snd (getNode env lnd key id) with
  | Ok _ => True
  | Err e =>
      exists res peer,
        getChannel env lnd id = inr res /\
        List.find (fun n => negb (String.eqb (Policy.public_key n) key))
          (Channel.policies res) = Some peer /\
        getNodeAlias env lnd (Policy.public_key peer) = inl e
  | Thrown m =>
      m = "TypeError" /\
      exists res,
        getChannel env lnd id = inr res /\
        forall p, p ∈ Channel.policies res -> Policy.public_key p = key
  end.
Proof.
  unfold getNode. cbn. destruct (getChannel env lnd id) as [err|res]; cbn;
    [done|].
  destruct (List.find _ _) as [peer|] eqn:Hfind; cbn.
  - destruct (getNodeAlias env lnd (Policy.public_key peer)) as [e|a]
      eqn:Ha; cbn; [|done]. eauto.
  - split; [done|]. exists res. split; [done|]. intros p Hp.
    eapply find_none in Hfind; [|by apply list_elem_of_In].
    by apply negb_false_iff, String.eqb_eq in Hfind.
Qed.

Lemma quiz_ends env args (r : gmap string value) quizfn :
  Args.quiz args = Some quizfn ->
  (get r "details" = VUndefined \/ exists d, get r "details" = VDetails d) ->
  quiz env args r = ret VUndefined \/
  exists answers correct question,
    quiz env args r =
      ([EvQuiz answers correct question],
       match quizfn answers correct question with
       | inl e => Err e
       | inr _ => Ok VUndefined
       end).
Proof.
  intros Hquiz Hd. unfold quiz. destruct Hd as [->|[d ->]]; [by left|].
  destruct (Descriptor.quiz d) as [q|]; [|by left].
  destruct (Nat.ltb _ _); [by left|]. destruct (Nat.ltb _ _); [by left|].
  right. rewrite Hquiz, bind_deref_Some. cbn.
  match goal with
  | |- context [quizfn ?a ?c ?t] =>
      exists a, c, t; by destruct (quizfn a c t)
  end.
Qed.

Lemma ran_failed st k f : failed_task st = Some (k, f) -> ran st k = true.
Proof.
  intros Hf. unfold ran. by rewrite Hf, String.eqb_refl, orb_true_r.
Qed.

Lemma get_stored (r : gmap string value) k v :
  r !! k = Some v -> get r k = v.
Proof. intros H. unfold get. by rewrite H. Qed.

Section RunEndings.

Context (env : Env) (args : Args.t) (schedule : list string).

Local Abbreviation st := (postSettledInvoice env args schedule).

(** When [details] runs, the results it reads are well formed. *)
Lemma run_shapes :
  ran st "details" = true ->
  exists invoice lnd,
    Args.invoice args = Some invoice /\ Args.lnd args = Some lnd /\
    proposal_shape (get (results st) "balancedOpen") /\
    aliases_shape (get (results st) "getNodes") /\
    payment_shape (get (results st) "getPayment").
Proof.
  intros Hran.
  destruct (run_checks env args schedule Hran)
    as (vb & vn & vp & vt & Hb & Hb' & Hn & Hn' & Hp & Hp' & _ & _ & Hv).
  destruct (run_validated env args schedule Hv)
    as (from & id & invoice & key & lnd & nodes & quizfn & send &
        Hfrom & Hid & Hinvoice & Hkey & Hlnd & Hnodes & Hquiz & Hsend).
  exists invoice, lnd. split; [done|]. split; [done|].
  rewrite (get_stored _ _ _ Hb), (get_stored _ _ _ Hn), (get_stored _ _ _ Hp).
  split; [|split].
  - destruct (balancedOpen_ends env args invoice Hinvoice) as (v & Heq & Hs).
    rewrite Heq in Hb'. cbn in Hb'. congruence.
  - by apply (getNodes_Ok env args invoice lnd key).
  - destruct (getPayment_ends env args invoice lnd Hinvoice Hlnd)
      as (evs & v & Heq & Hs).
    rewrite Heq in Hp'. cbn in Hp'. congruence.
Qed.

(** How [details] ends when it runs. *)
Lemma run_details_ends :
  ran st "details" = true ->
  details env args (results st) = ret VUndefined \/
  exists ev res,
    is_compose ev = true /\ composed_by env res /\
    details env args (results st) =
      ([ev], match res with inl e => Err e | inr d => Ok (VDetails d) end).
Proof.
  intros Hran.
  destruct (run_shapes Hran) as (invoice & lnd & Hi & Hl & Hb & Hn & Hp).
  by apply (details_ends env args invoice lnd).
Qed.

(** How [quiz] ends when it runs. *)
Lemma run_quiz_ends :
  ran st "quiz" = true ->
  exists quizfn,
    Args.quiz args = Some quizfn /\
    (quiz env args (results st) = ret VUndefined \/
     exists answers correct question,
       quiz env args (results st) =
         ([EvQuiz answers correct question],
          match quizfn answers correct question with
          | inl e => Err e
          | inr _ => Ok VUndefined
          end)).
Proof.
  intros Hran.
  destruct (run_quiz_ran env args schedule Hran)
    as (vd & vp & Hvd & _ & Hvp & _).
  destruct (run_post env args schedule vp Hvp) as [_ Hranp].
  destruct (run_post_ran env args schedule Hranp) as (_ & _ & _ & Hrand).
  destruct (run_checks env args schedule Hrand)
    as (_ & _ & _ & _ & _ & _ & _ & _ & _ & _ & _ & _ & Hv).
  destruct (run_validated env args schedule Hv)
    as (_ & _ & _ & _ & _ & _ & quizfn & _ &
        _ & _ & _ & _ & _ & _ & Hquiz & _).
  exists quizfn. split; [done|]. apply quiz_ends; [done|].
  rewrite (get_stored _ _ _ Hvd).
  destruct (run_post_cases env args schedule Hranp)
    as [[Hund _]|(d & _ & _ & _ & _ & _ & Hd & _)].
  - left. congruence.
  - right. exists d. congruence.
Qed.

End RunEndings.

(** Every way a task of the pipeline can fail. *)
Lemma failure_origin env args schedule k f :
  failed_task (postSettledInvoice env args schedule) = Some (k, f) ->
  (k = "validate" /\
   exists field, first_rejected args = Some field /\
     f = Rejected (400, reason_token field)) \/
  (k = "getNodes" /\
   exists invoice lnd key channel res,
     Args.invoice args = Some invoice /\ Args.lnd args = Some lnd /\
     Args.key args = Some key /\
     channel ∈ map Htlc.in_channel (Invoice.payments invoice) /\
     getChannel env lnd channel = inr res /\
     ((f = Crashed "TypeError" /\
       forall p, p ∈ Channel.policies res -> Policy.public_key p = key) \/
      (exists peer e,
         peer ∈ Channel.policies res /\ Policy.public_key peer <> key /\
         getNodeAlias env lnd (Policy.public_key peer) = inl e /\
         f = Rejected e))) \/
  (k = "details" /\
   exists e, composed_by env (inl e) /\ f = Rejected e) \/
  (k = "post" /\
   exists send uid text e,
     Args.send args = Some send /\ send uid text sendOptions = inl e) \/
  (k = "quiz" /\
   exists quizfn answers correct question e,
     Args.quiz args = Some quizfn /\
     quizfn answers correct question = inl e).
Proof.
  intros Hf. pose proof (ran_failed _ _ _ Hf) as Hran.
  destruct (run_failed env args schedule k f Hf)
    as (deps & body & Ha & Hdeps & Hout).
  apply tasks_inv in Ha.
  destruct Ha as [(-> & -> & ->)|[(-> & -> & ->)|[(-> & -> & ->)|
    [(-> & -> & ->)|[(-> & -> & ->)|[(-> & -> & ->)|[(-> & -> & ->)|
    (-> & -> & ->)]]]]]]].
  - (* validate *)
    left. split; [done|]. rewrite validate_first_rejected in Hout.
    destruct (first_rejected args) as [field|]; [|done].
    exists field. split; [done|]. exact Hout.
  - (* balancedOpen *)
    exfalso.
    destruct (run_validated env args schedule
                (Hdeps "validate" ltac:(apply list_elem_of_here)))
      as (_ & _ & invoice & _ & _ & _ & _ & _ & _ & _ & Hi & _).
    destruct (balancedOpen_ends env args invoice Hi) as (v & Heq & _).
    by rewrite Heq in Hout.
  - (* getNodes *)
    right; left. split; [done|].
    destruct (run_validated env args schedule
                (Hdeps "validate" ltac:(apply list_elem_of_here)))
      as (_ & _ & invoice & key & lnd & _ & _ & _ &
          _ & _ & Hi & Hk & Hl & _).
    exists invoice, lnd, key.
    revert Hout. unfold getNodes. rewrite Hi, Hl, Hk, !bind_deref_Some.
    pose proof (asyncMap_stops
                  (uniq (map Htlc.in_channel (Invoice.payments invoice)))
                  (getNode env lnd key)) as Hstop.
    unfold mbind, M_bind, bind.
    destruct (asyncMap _ _) as [evs [via|e|m]]; cbn [snd] in Hstop; cbn;
      [done| |].
    + intros ->. destruct Hstop as (channel & Hin & Hnode).
      pose proof (getNode_stops env lnd key channel) as Hwhy.
      rewrite Hnode in Hwhy. destruct Hwhy as (res & peer & Hres & Hfind & He).
      exists channel, res. repeat (split; [done|]).
      split; [by apply uniq_from_subset in Hin|]. split; [done|].
      right. exists peer, e. apply find_some in Hfind as [Hp Hne].
      split; [by apply list_elem_of_In|].
      split; [by apply negb_true_iff, String.eqb_neq in Hne|done].
    + intros ->. destruct Hstop as (channel & Hin & Hnode).
      pose proof (getNode_stops env lnd key channel) as Hwhy.
      rewrite Hnode in Hwhy. destruct Hwhy as (-> & res & Hres & Hall).
      exists channel, res. repeat (split; [done|]).
      split; [by apply uniq_from_subset in Hin|]. split; [done|].
      by left.
  - (* getPayment *)
    exfalso.
    destruct (run_validated env args schedule
                (Hdeps "validate" ltac:(apply list_elem_of_here)))
      as (_ & _ & invoice & _ & lnd & _ & _ & _ & _ & _ & Hi & _ & Hl & _).
    destruct (getPayment_ends env args invoice lnd Hi Hl)
      as (evs & v & Heq & _).
    by rewrite Heq in Hout.
  - (* getTransfer *)
    exfalso.
    destruct (run_validated env args schedule
                (Hdeps "validate" ltac:(apply list_elem_of_here)))
      as (_ & _ & invoice & key & _ & nodes & _ & _ &
          _ & _ & Hi & Hk & _ & Hn & _).
    destruct (getTransfer_ends env args invoice Hi key nodes Hk Hn)
      as (evs & v & Heq & _).
    by rewrite Heq in Hout.
  - (* details *)
    right; right; left. split; [done|].
    destruct (run_details_ends env args schedule Hran)
      as [Heq|(ev & res & _ & Hres & Heq)]; rewrite Heq in Hout; [done|].
    cbn in Hout. destruct res as [e|d]; [|done]. eauto.
  - (* post *)
    right; right; right; left. split; [done|].
    destruct (run_post_cases env args schedule Hran)
      as [[_ Heq]|(d & from & id & key & nodes & send &
                   Hd & Hfrom & Hid & Hkey & Hnodes & Hsend)].
    { by rewrite Heq in Hout. }
    rewrite (post_details args _ d from id key nodes send
               Hd Hfrom Hid Hkey Hnodes Hsend) in Hout.
    cbn [snd] in Hout.
    match type of Hout with
    | context [send ?u ?t ?o] =>
        destruct (send u t o) as [e|] eqn:He; [|done];
        exists send, u, t, e
    end.
    done.
  - (* quiz *)
    right; right; right; right. split; [done|].
    destruct (run_quiz_ends env args schedule Hran)
      as (quizfn & Hquiz & [Heq|(a & c & q & Heq)]);
      rewrite Heq in Hout; [done|].
    cbn [snd] in Hout. destruct (quizfn a c q) as [e|] eqn:He; [|done].
    exists quizfn, a, c, q, e. done.
Qed.



(** ** What has completed before a task runs *)

Section Waiting.

Context (env : Env) (args : Args.t) (schedule : list string).

Local Abbreviation st := (postSettledInvoice env args schedule).

Lemma ran_in_table k :
  ran st k = true -> k ∈ source_order.
Proof.
  intros Hran. destruct (run_ran env args schedule k Hran)
    as (deps & body & Ha & _).
  apply tasks_inv in Ha. unfold source_order.
  destruct Ha as [(-> & _)|[(-> & _)|[(-> & _)|[(-> & _)|[(-> & _)|
    [(-> & _)|[(-> & _)|(-> & _)]]]]]]]; elem_of_literal.
Qed.

(** A task runs only after everything it waits for, directly or not, has
    stored its result. *)
Lemma ran_waits k a :
  ran st k = true -> a ∈ waits_for k -> is_Some (results st !! a).
Proof.
  intros Hran Ha.
  assert (Hcheck : forall c, c ∈ ["balancedOpen"; "getNodes"; "getPayment";
                                  "getTransfer"] ->
            ran st c = true -> is_Some (results st !! "validate")).
  { intros c Hc Hranc.
    destruct (run_ran env args schedule c Hranc) as (deps & body & Hassoc & Hd).
    repeat (apply elem_of_cons in Hc as [->|Hc];
            [cbn in Hassoc; injection Hassoc as <- <-;
             apply Hd, list_elem_of_here|]).
    by apply elem_of_nil in Hc. }
  assert (Hdetails : ran st "details" = true ->
            forall c, c ∈ waits_for "details" -> is_Some (results st !! c)).
  { intros Hrand c Hc.
    destruct (run_checks env args schedule Hrand)
      as (vb & vn & vp & vt & Hb & _ & Hn & _ & Hp & _ & Ht & _ & Hv).
    cbn in Hc.
    repeat (apply elem_of_cons in Hc as [->|Hc]; [by eauto|]).
    by apply elem_of_nil in Hc. }
  assert (Hpost : ran st "post" = true ->
            forall c, c ∈ waits_for "post" -> is_Some (results st !! c)).
  { intros Hranp c Hc.
    destruct (run_post_ran env args schedule Hranp) as (vd & Hvd & _ & Hrand).
    cbn in Hc. apply elem_of_cons in Hc as [->|Hc]; [by eauto|].
    by apply Hdetails. }
  pose proof (ran_in_table k Hran) as Hk. unfold source_order in Hk.
  repeat (apply elem_of_cons in Hk as [->|Hk];
          [first [ by (cbn in Ha; apply elem_of_nil in Ha)
                 | by apply Hdetails
                 | by apply Hpost
                 | (cbn in Ha; apply list_elem_of_singleton in Ha as ->;
                    eapply Hcheck; [|exact Hran]; elem_of_literal)
                 | idtac ]|]).
  - (* quiz *)
    destruct (run_quiz_ran env args schedule Hran)
      as (vd & vp & _ & _ & Hvp & _).
    cbn in Ha. apply elem_of_cons in Ha as [->|Ha]; [by eauto|].
    apply Hpost; [|done]. by apply (ran_stored _ _ vp).
  - by apply elem_of_nil in Hk.
Qed.

(** A settled call in which [post] has stored its result has run [quiz]. *)
Lemma settled_quiz vp :
  results st !! "post" = Some vp ->
  settled env args schedule <> Pending ->
  ran st "quiz" = true.
Proof.
  intros Hvp Hsettled. pose proof (ran_stored _ _ _ Hvp) as Hranp.
  unfold settled, status_of in Hsettled.
  destruct (failed_task st) as [[k f]|] eqn:Hf.
  - pose proof (run_failed_fresh env args schedule k f Hf) as Hfresh.
    pose proof (ran_in_table k (ran_failed _ _ _ Hf)) as Hk.
    unfold source_order in Hk.
    assert (Hstored : forall a, a ∈ waits_for "post" -> a <> k).
    { intros a Ha ->. destruct (ran_waits "post" k Hranp Ha). congruence. }
    repeat (apply elem_of_cons in Hk as [->|Hk];
            [first [ congruence
                   | by apply (ran_failed _ _ f)
                   | (exfalso;
                      match type of Hfresh with
                      | _ !! ?k' = None => apply (Hstored k')
                      end; [cbn; elem_of_literal|reflexivity]) ]|]).
    by apply elem_of_nil in Hk.
  - destruct (forallb _ _) eqn:Hall; [|done].
    rewrite forallb_forall in Hall. unfold ran.
    rewrite (Hall "quiz"); [done|]. cbn. tauto.
Qed.

End Waiting.

(** ** When the quiz is sent *)

(** X12. When the stored descriptor carries between 2 and 10 answers and
    [send] has delivered the text, a settled call has handed exactly one
    quiz to the quiz sender: the answers with the first one moved to the
    drawn index, that index as the correct one and the title as the
    question; the call resolves if the quiz sender succeeds, and fails at
    the [quiz] task if the quiz sender rejects. *)
Theorem quiz_is_sent env args schedule d q vp :
  results (postSettledInvoice env args schedule) !! "details"
  = Some (VDetails d) ->
  Descriptor.quiz d = Some q -> (2 <= length q <= 10)%nat ->
  results (postSettledInvoice env args schedule) !! "post" = Some vp ->
  settled env args schedule <> Pending ->
  let correct := randomIndex env (length q) in
  let answers := imap (place (q !! 0%nat) (q !! correct) correct) q in
  exists quizfn,
    Args.quiz args = Some quizfn /\
    List.filter is_quiz (trace (postSettledInvoice env args schedule))
    = [EvQuiz answers correct (Descriptor.title d)] /\
    match quizfn answers correct (Descriptor.title d) with
    | inl _ =>
        exists f,
          failed_task (postSettledInvoice env args schedule)
          = Some ("quiz", f)
    | inr _ => settled env args schedule = Resolved
    end.
Proof.
  intros Hd Hq Hlen Hvp Hsettled correct answers.
  pose proof (settled_quiz env args schedule vp Hvp Hsettled) as Hran.
  destruct (ran_waits env args schedule "quiz" "validate" Hran
              ltac:(cbn; elem_of_literal)) as [vv Hv].
  destruct (run_validated env args schedule (ex_intro _ vv Hv))
    as (_ & _ & _ & _ & _ & _ & quizfn & _ &
        _ & _ & _ & _ & _ & _ & Hquiz & _).
  exists quizfn. split; [done|].
  pose proof (quiz_in_range env args _ d q quizfn
                (get_stored _ _ _ Hd) Hq Hquiz Hlen) as Heq.
  cbv zeta in Heq. fold correct answers in Heq.
  split.
  { by rewrite trace_quiz, Hran, Heq. }
  unfold settled, status_of in *.
  destruct (failed_task _) as [[k f]|] eqn:Hf.
  - assert (k = "quiz") as ->.
    { pose proof (run_failed_fresh env args schedule k f Hf) as Hfresh.
      pose proof (ran_in_table env args schedule k (ran_failed _ _ _ Hf))
        as Hk.
      unfold source_order in Hk.
      repeat (apply elem_of_cons in Hk as [->|Hk];
              [first [ done
                     | congruence
                     | (exfalso;
                        match type of Hfresh with
                        | _ !! ?k' = None =>
                            destruct (ran_waits env args schedule "quiz" k'
                                        Hran ltac:(cbn; elem_of_literal))
                        end; congruence) ]|]).
      by apply elem_of_nil in Hk. }
    destruct (run_failed env args schedule _ _ Hf)
      as (deps & body & Ha & _ & Hout).
    cbn in Ha. injection Ha as <- <-. rewrite Heq in Hout. cbn [snd] in Hout.
    destruct (quizfn answers correct (Descriptor.title d)); [|done].
    by exists f.
  - destruct (forallb _ _) eqn:Hall; [|done].
    rewrite forallb_forall in Hall.
    assert (Hdone : completed (results (postSettledInvoice env args schedule))
                      "quiz" = true) by (apply Hall; cbn; tauto).
    apply completed_is_Some in Hdone as [vq Hvq].
    destruct (run_stored env args schedule _ _ Hvq)
      as (deps & body & Ha & _ & Hout).
    cbn in Ha. injection Ha as <- <-. rewrite Heq in Hout. cbn [snd] in Hout.
    by destruct (quizfn answers correct (Descriptor.title d)).
Qed.

Lemma quiz_is_sent_witness :
  exists quizfn,
    Args.quiz Scenario.args = Some quizfn /\
    List.filter is_quiz
      (trace (postSettledInvoice Scenario.env Scenario.args source_order))
    = [EvQuiz [Some "peerC"; Some "peerB"; Some "peerA"; Some "peerD"]
         2%nat (Some "Who routed this?")] /\
    match
      quizfn [Some "peerC"; Some "peerB"; Some "peerA"; Some "peerD"]
        2%nat (Some "Who routed this?")
    with
    | inl _ =>
        exists f,
          failed_task
            (postSettledInvoice Scenario.env Scenario.args source_order)
          = Some ("quiz", f)
    | inr _ => settled Scenario.env Scenario.args source_order = Resolved
    end.
Proof.
  apply (quiz_is_sent Scenario.env Scenario.args source_order
           Scenario.routed ["peerA"; "peerB"; "peerC"; "peerD"] VUndefined).
  - vm_compute. reflexivity.
  - reflexivity.
  - simpl. lia.
  - vm_compute. reflexivity.
  - vm_compute. discriminate.
Defined.

(** ** Independence of the completion order *)

Section Independence.

Context (env : Env) (args : Args.t) (s1 s2 : list string).

Local Abbreviation st1 := (postSettledInvoice env args s1).
Local Abbreviation st2 := (postSettledInvoice env args s2).

Lemma agree_from k deps body :
  assoc k (tasks env args) = Some (deps, body) ->
  (forall d a b, d ∈ deps ->
     results st1 !! d = Some a -> results st2 !! d = Some b -> a = b) ->
  (forall d, d ∈ deps -> is_Some (results st1 !! d)) ->
  (forall d, d ∈ deps -> is_Some (results st2 !! d)) ->
  body (results st1) = body (results st2).
Proof.
  intros Ha Hagree H1 H2.
  apply (tasks_reads_declared env args k deps body Ha).
  intros d Hd. destruct (H1 d Hd) as [a Hda]. destruct (H2 d Hd) as [b Hdb].
  rewrite Hda, Hdb. f_equal. by apply (Hagree d).
Qed.

(** A task stores the same result along both orders. *)
Lemma stored_agree k v1 v2 :
  results st1 !! k = Some v1 -> results st2 !! k = Some v2 -> v1 = v2.
Proof.
  assert (Hstep : forall k deps body,
    assoc k (tasks env args) = Some (deps, body) ->
    (forall d a b, d ∈ deps ->
       results st1 !! d = Some a -> results st2 !! d = Some b -> a = b) ->
    forall v1 v2,
      results st1 !! k = Some v1 -> results st2 !! k = Some v2 -> v1 = v2).
  { intros k' deps body Ha Hagree w1 w2 Hw1 Hw2.
    destruct (run_stored env args s1 k' w1 Hw1) as (d1 & b1 & Ha1 & Hd1 & Ho1).
    destruct (run_stored env args s2 k' w2 Hw2) as (d2 & b2 & Ha2 & Hd2 & Ho2).
    rewrite Ha in Ha1, Ha2. injection Ha1 as <- <-. injection Ha2 as <- <-.
    rewrite (agree_from k' deps body Ha Hagree Hd1 Hd2) in Ho1. congruence. }
  assert (Hval : forall a b,
    results st1 !! "validate" = Some a ->
    results st2 !! "validate" = Some b -> a = b).
  { apply (Hstep "validate" _ _ eq_refl). by intros d a b ?%elem_of_nil. }
  assert (Hchecks : forall c,
    c ∈ ["balancedOpen"; "getNodes"; "getPayment"; "getTransfer"] ->
    forall a b,
      results st1 !! c = Some a -> results st2 !! c = Some b -> a = b).
  { intros c Hc.
    repeat (apply elem_of_cons in Hc as [->|Hc];
            [eapply Hstep; [reflexivity|];
             intros d a b ->%list_elem_of_singleton; apply Hval|]).
    by apply elem_of_nil in Hc. }
  assert (Hdet : forall a b,
    results st1 !! "details" = Some a ->
    results st2 !! "details" = Some b -> a = b).
  { apply (Hstep "details" _ _ eq_refl). intros d a b Hd.
    by apply Hchecks. }
  assert (Hpost : forall a b,
    results st1 !! "post" = Some a ->
    results st2 !! "post" = Some b -> a = b).
  { apply (Hstep "post" _ _ eq_refl). intros d a b Hd.
    apply elem_of_cons in Hd as [->|Hd]; [apply Hdet|].
    apply list_elem_of_singleton in Hd as ->. apply Hchecks. elem_of_literal. }
  intros H1 H2.
  destruct (run_stored env args s1 k v1 H1) as (deps & body & Ha & _ & _).
  apply (Hstep k deps body Ha); [|done..].
  apply tasks_inv in Ha.
  destruct Ha as [(-> & -> & ->)|[(-> & -> & ->)|[(-> & -> & ->)|
    [(-> & -> & ->)|[(-> & -> & ->)|[(-> & -> & ->)|[(-> & -> & ->)|
    (-> & -> & ->)]]]]]]]; intros d a b Hd.
  - by apply elem_of_nil in Hd.
  - apply list_elem_of_singleton in Hd as ->. apply Hval.
  - apply list_elem_of_singleton in Hd as ->. apply Hval.
  - apply list_elem_of_singleton in Hd as ->. apply Hval.
  - apply list_elem_of_singleton in Hd as ->. apply Hval.
  - by apply Hchecks.
  - apply elem_of_cons in Hd as [->|Hd]; [apply Hdet|].
    apply list_elem_of_singleton in Hd as ->. apply Hchecks. elem_of_literal.
  - apply elem_of_cons in Hd as [->|Hd]; [apply Hdet|].
    apply list_elem_of_singleton in Hd as ->. apply Hpost.
Qed.

(** A task that ran along both orders did the same along both. *)
Lemma ran_agree k deps body :
  assoc k (tasks env args) = Some (deps, body) ->
  ran st1 k = true -> ran st2 k = true ->
  body (results st1) = body (results st2).
Proof.
  intros Ha Hr1 Hr2.
  destruct (run_ran env args s1 k Hr1) as (d1 & b1 & Ha1 & Hd1).
  destruct (run_ran env args s2 k Hr2) as (d2 & b2 & Ha2 & Hd2).
  rewrite Ha in Ha1, Ha2. injection Ha1 as <- <-. injection Ha2 as <- <-.
  apply (agree_from k deps body Ha); [|done..].
  intros d a b _. apply stored_agree.
Qed.

End Independence.

Section Outcome.

Context (env : Env) (args : Args.t).

Lemma failable schedule k f :
  failed_task (postSettledInvoice env args schedule) = Some (k, f) ->
  k ∈ ["validate"; "getNodes"; "details"; "post"; "quiz"].
Proof.
  intros Hf.
  destruct (failure_origin env args schedule k f Hf)
    as [[-> _]|[[-> _]|[[-> _]|[[-> _]|[-> _]]]]]; elem_of_literal.
Qed.

(** A task that failed along one order stored no result along another. *)
Lemma failed_not_stored sa sb k f v :
  failed_task (postSettledInvoice env args sa) = Some (k, f) ->
  results (postSettledInvoice env args sb) !! k = Some v -> False.
Proof.
  intros Hf Hv.
  destruct (run_failed env args sa k f Hf) as (deps & body & Ha & _ & Hout).
  destruct (run_stored env args sb k v Hv) as (deps' & body' & Ha' & _ & Hok).
  rewrite Ha in Ha'. injection Ha' as <- <-.
  rewrite (ran_agree env args sa sb k deps body Ha
             (ran_failed _ _ _ Hf) (ran_stored _ _ _ Hv)) in Hout.
  by rewrite Hok in Hout.
Qed.

Lemma settled_cases schedule :
  settled env args schedule <> Pending ->
  (exists k f,
     failed_task (postSettledInvoice env args schedule) = Some (k, f)) \/
  (failed_task (postSettledInvoice env args schedule) = None /\
   settled env args schedule = Resolved).
Proof.
  unfold settled, status_of.
  destruct (failed_task _) as [[k f]|]; [eauto|].
  destruct (forallb _ _); [by right|done].
Qed.

End Outcome.

(** X13. Whether the call resolves, and what it then tells the user, does
    not depend on the order in which the tasks complete.  With the same
    answers of the collaborators and the same random draw: if the call
    resolves along one completion order, then along every other order no
    task fails, and once that other run has settled it has resolved too,
    with the same composer call, the same text message and the same quiz,
    and with the same results stored by [details], [post] and [quiz]. *)
Theorem resolution_independent_of_order env args s1 s2 :
  settled env args s1 = Resolved ->
  let st1 := postSettledInvoice env args s1 in
  let st2 := postSettledInvoice env args s2 in
  failed_task st2 = None /\
  (settled env args s2 <> Pending ->
   settled env args s2 = Resolved /\
   List.filter is_compose (trace st1) = List.filter is_compose (trace st2) /\
   List.filter is_send (trace st1) = List.filter is_send (trace st2) /\
   List.filter is_quiz (trace st1) = List.filter is_quiz (trace st2) /\
   (forall k, k ∈ ["details"; "post"; "quiz"] ->
      results st1 !! k = results st2 !! k)).
Proof.
  intros H1 st1 st2. subst st1 st2.
  assert (Hnone : failed_task (postSettledInvoice env args s2) = None).
  { destruct (failed_task (postSettledInvoice env args s2))
      as [[k f]|] eqn:Hf; [exfalso|done].
    destruct (resolved_completed env args s1 k H1) as [v Hv].
    { apply (ran_in_table env args s2). by apply (ran_failed _ _ f). }
    by apply (failed_not_stored env args s2 s1 k f v). }
  split; [done|]. intros H2.
  assert (R2 : settled env args s2 = Resolved).
  { destruct (settled_cases env args s2 H2) as [(k & f & Hf)|[_ R2]];
      [congruence|done]. }
  split; [done|].
  assert (Hran : forall s k, settled env args s = Resolved ->
    k ∈ source_order -> ran (postSettledInvoice env args s) k = true).
  { intros s k Hs Hk. destruct (resolved_completed env args s k Hs Hk)
      as [v Hv]. by apply (ran_stored _ _ v). }
  rewrite !trace_compose, !trace_send, !trace_quiz.
  rewrite !Hran by (done || elem_of_literal).
  split; [|split; [|split]].
  - by rewrite (ran_agree env args s1 s2 "details" _ _ eq_refl);
      [|apply Hran; [done|elem_of_literal]..].
  - by rewrite (ran_agree env args s1 s2 "post" _ _ eq_refl);
      [|apply Hran; [done|elem_of_literal]..].
  - by rewrite (ran_agree env args s1 s2 "quiz" _ _ eq_refl);
      [|apply Hran; [done|elem_of_literal]..].
  - intros k Hk.
    assert (Hin : k ∈ source_order).
    { repeat (apply elem_of_cons in Hk as [->|Hk]; [elem_of_literal|]).
      by apply elem_of_nil in Hk. }
    destruct (resolved_completed env args s1 k H1 Hin) as [v1 Hv1].
    destruct (resolved_completed env args s2 k R2 Hin) as [v2 Hv2].
    rewrite Hv1, Hv2. f_equal. by apply (stored_agree env args s1 s2 k).
Qed.

Lemma resolution_independent_of_order_witness :
  failed_task (postSettledInvoice Scenario.env Scenario.args
                 Scenario.rebalance_first) = None /\
  settled Scenario.env Scenario.args Scenario.rebalance_first = Resolved /\
  List.filter is_send
    (trace (postSettledInvoice Scenario.env Scenario.args source_order))
  = List.filter is_send
      (trace (postSettledInvoice Scenario.env Scenario.args
                Scenario.rebalance_first)).
Proof.
  destruct (resolution_independent_of_order Scenario.env Scenario.args
              source_order Scenario.rebalance_first)
    as (Hnone & Hrest).
  - vm_compute. reflexivity.
  - split; [exact Hnone|].
    destruct Hrest as (Hres & _ & Hsend & _ & _).
    + vm_compute. discriminate.
    + split; [exact Hres|exact Hsend].
Defined.

(** ** The stages of a run *)

Lemma filter_kind_all (P : event -> bool) (l : list event) :
  Forall (fun e => P e = true) l -> List.filter P l = l.
Proof. induction 1 as [|e l He _ IH]; [done|]. simpl. by rewrite He, IH. Qed.

Lemma filter_kind_none (P Q : event -> bool) (l : list event) :
  Forall (fun e => Q e = true) l ->
  (forall e, Q e = true -> P e = false) -> List.filter P l = [].
Proof.
  intros Hl HPQ. induction Hl as [|e l He _ IH]; [done|].
  simpl. by rewrite (HPQ e He), IH.
Qed.

Lemma kinds_in_stages (ps cs ss qs : list event) :
  Forall (fun e => is_probe e = true) ps ->
  Forall (fun e => is_compose e = true) cs ->
  Forall (fun e => is_send e = true) ss ->
  Forall (fun e => is_quiz e = true) qs ->
  let l := ps ++ cs ++ ss ++ qs in
  l = List.filter is_probe l ++ List.filter is_compose l
        ++ List.filter is_send l ++ List.filter is_quiz l.
Proof.
  intros Hp Hc Hs Hq l. subst l. rewrite !List.filter_app.
  rewrite (filter_kind_all _ _ Hp), (filter_kind_all _ _ Hc),
    (filter_kind_all _ _ Hs), (filter_kind_all _ _ Hq).
  rewrite (filter_kind_none is_probe _ _ Hc) by (by intros []).
  rewrite (filter_kind_none is_probe _ _ Hs) by (by intros []).
  rewrite (filter_kind_none is_probe _ _ Hq) by (by intros []).
  rewrite (filter_kind_none is_compose _ _ Hp) by (by intros []).
  rewrite (filter_kind_none is_compose _ _ Hs) by (by intros []).
  rewrite (filter_kind_none is_compose _ _ Hq) by (by intros []).
  rewrite (filter_kind_none is_send _ _ Hp) by (by intros []).
  rewrite (filter_kind_none is_send _ _ Hc) by (by intros []).
  rewrite (filter_kind_none is_send _ _ Hq) by (by intros []).
  rewrite (filter_kind_none is_quiz _ _ Hp) by (by intros []).
  rewrite (filter_kind_none is_quiz _ _ Hc) by (by intros []).
  rewrite (filter_kind_none is_quiz _ _ Hs) by (by intros []).
  by rewrite !app_nil_r.
Qed.

Section Stages.

Context (env : Env) (args : Args.t).

(** A key that a task waits for completed before the task. *)
Lemma waited_before st order l1 k l2 deps body d :
  history (tasks env args) st order -> order = l1 ++ k :: l2 ->
  assoc k (tasks env args) = Some (deps, body) -> d ∈ deps -> d ∈ l1.
Proof.
  intros H Ho Ha Hd.
  destruct (h_task _ _ _ H _ _ _ Ho) as (deps' & body' & Ha' & Hin & _).
  rewrite Ha in Ha'. injection Ha' as <- <-. by apply Hin.
Qed.

Lemma waited_in_order st order k deps body d :
  history (tasks env args) st order -> k ∈ order ->
  assoc k (tasks env args) = Some (deps, body) -> d ∈ deps -> d ∈ order.
Proof.
  intros H Hk Ha Hd. apply list_elem_of_split in Hk as (l1 & l2 & Ho).
  pose proof (waited_before st order l1 k l2 deps body d H Ho Ha Hd).
  rewrite Ho. apply elem_of_app. by left.
Qed.

(** The completion order: the checks first, then [details], [post] and
    [quiz], each only after the one before it. *)
Lemma order_stages st order :
  history (tasks env args) st order ->
  exists early late,
    order = early ++ late /\
    (forall k, k ∈ early -> k <> "details" /\ k <> "post" /\ k <> "quiz") /\
    (late = [] \/ late = ["details"] \/ late = ["details"; "post"] \/
     late = ["details"; "post"; "quiz"]).
Proof.
  intros H. destruct (decide ("details" ∈ order)) as [Hin|Hnot].
  - apply list_elem_of_split in Hin as (l1 & l2 & Ho).
    pose proof (h_nodup _ _ _ H) as Hnd. rewrite Ho in Hnd.
    pose proof (NoDup_middle _ _ _ Hnd) as [Hd1 Hd2].
    apply NoDup_app in Hnd as (_ & Hdisj & Hnd2).
    apply NoDup_cons in Hnd2 as [_ Hnd2].
    assert (Hearly : forall k, k ∈ l1 ->
              k <> "details" /\ k <> "post" /\ k <> "quiz").
    { intros k Hk. split; [by intros ->|].
      apply list_elem_of_split in Hk as (a & b & Hl1).
      split; intros ->; apply Hd1; rewrite Hl1; apply elem_of_app; left;
        (eapply (waited_before st order a _ (b ++ "details" :: l2));
         [exact H|by rewrite Ho, Hl1, <- app_assoc|reflexivity|
          elem_of_literal]). }
    assert (Hchecks : forall c, c ∈ ["balancedOpen"; "getNodes";
                                     "getPayment"; "getTransfer"] ->
              c ∈ l1).
    { intros c Hc.
      by apply (waited_before st order l1 "details" l2 _ _ c H Ho eq_refl). }
    assert (Hvalidate : "validate" ∈ l1).
    { assert (Hb : "balancedOpen" ∈ l1) by (apply Hchecks; elem_of_literal).
      apply list_elem_of_split in Hb as (a & b & Hl1).
      rewrite Hl1. apply elem_of_app. left.
      eapply (waited_before st order a "balancedOpen"
                (b ++ "details" :: l2));
        [exact H|by rewrite Ho, Hl1, <- app_assoc|reflexivity|
         elem_of_literal]. }
    assert (Hlate : forall k, k ∈ l2 -> k = "post" \/ k = "quiz").
    { intros k Hk.
      assert (Hko : k ∈ order).
      { rewrite Ho. apply elem_of_app. right. by right. }
      assert (Hfresh : k ∉ l1).
      { intros Hk1. apply (Hdisj k Hk1). by right. }
      apply list_elem_of_split in Hko as (a & b & Hko).
      destruct (h_task _ _ _ H _ _ _ Hko) as (deps & body & Ha & _).
      apply tasks_inv in Ha.
      destruct Ha as [(-> & _)|[(-> & _)|[(-> & _)|[(-> & _)|[(-> & _)|
        [(-> & _)|[(-> & _)|(-> & _)]]]]]]]; try (by auto);
        try (by exfalso; apply Hfresh, Hchecks; elem_of_literal). }
    exists l1.
    destruct l2 as [|x l2].
    { exists ["details"]. split; [done|]. split; [done|]. auto. }
    destruct (Hlate x) as [->| ->]; [by left| |].
    + destruct l2 as [|y l2].
      { exists ["details"; "post"]. split; [done|]. split; [done|]. auto. }
      apply NoDup_cons in Hnd2 as [Hx Hnd2].
      destruct (Hlate y) as [->| ->]; [by right; left| |].
      { exfalso. apply Hx. by left. }
      destruct l2 as [|z l2].
      { exists ["details"; "post"; "quiz"]. split; [done|]. split; [done|].
        auto. }
      exfalso. apply NoDup_cons in Hnd2 as [Hy _].
      destruct (Hlate z) as [->| ->]; [by right; right; left| |].
      * apply Hx. right. by left.
      * apply Hy. by left.
    + exfalso.
      assert (Hp : "post" ∈ l1 ++ ["details"]).
      { eapply (waited_before st order (l1 ++ ["details"]) "quiz" l2);
          [exact H|by rewrite Ho, <- app_assoc|reflexivity|elem_of_literal]. }
      apply elem_of_app in Hp as [Hp|Hp].
      * by destruct (Hearly _ Hp) as (_ & ? & _).
      * apply list_elem_of_singleton in Hp. discriminate.
  - exists order, []. split; [by rewrite app_nil_r|]. split; [|by left].
    intros k Hk. split; [by intros ->|].
    split; intros ->; apply Hnot;
      (eapply (waited_in_order st order);
       [exact H|exact Hk|reflexivity|elem_of_literal]).
Qed.

End Stages.

(** X14. The calls of a run come in stages, whatever the completion order:
    first all channel, alias and past-payment lookups, then at most one
    call of a message composer, then at most one text message, then at most
    one quiz.  A text message is sent only when a composer was called, and
    a quiz only when a text message was sent. *)
Theorem calls_come_in_stages env args schedule :
  let t := trace (postSettledInvoice env args schedule) in
  t = List.filter is_probe t ++ List.filter is_compose t
        ++ List.filter is_send t ++ List.filter is_quiz t /\
  (length (List.filter is_compose t) <= 1)%nat /\
  (length (List.filter is_send t) <= 1)%nat /\
  (length (List.filter is_quiz t) <= 1)%nat /\
  (List.filter is_send t <> [] -> List.filter is_compose t <> []) /\
  (List.filter is_quiz t <> [] -> List.filter is_send t <> []).
Proof.
  intros t. subst t. split.
  { destruct (asyncAuto_history (tasks env args)
                (tasks_reads_declared env args) schedule) as [order H].
    fold (postSettledInvoice env args schedule) in H.
    destruct (order_stages env args _ _ H) as (early & late & Ho & He & Hl).
    rewrite (h_trace _ _ _ H), Ho, flat_map_app.
    set (r := results (postSettledInvoice env args schedule)).
    assert (Hp : Forall (fun e => is_probe e = true)
                   (flat_map (events_of (tasks env args) r) early)).
    { apply List.Forall_forall. intros e Hin.
      apply in_flat_map in Hin as (k & Hk & Hin).
      apply list_elem_of_In in Hk. destruct (He k Hk) as (Hnd & Hnp & Hnq).
      assert (Hko : k ∈ order) by (rewrite Ho; apply elem_of_app; by left).
      apply list_elem_of_split in Hko as (l1 & l2 & Hko).
      destruct (h_task _ _ _ H _ _ _ Hko) as (deps & body & Ha & _).
      unfold events_of in Hin. rewrite Ha in Hin.
      destruct (tasks_only env args k deps body r Ha)
        as [[? _]|[[? _]|[[? _]|(_ & _ & _ & Hon)]]]; [done..|].
      unfold only in Hon. rewrite List.Forall_forall in Hon. by apply Hon. }
    assert (Hc : Forall (fun e => is_compose e = true)
                   (events_of (tasks env args) r "details")).
    { apply (details_composes env args r). }
    assert (Hs : Forall (fun e => is_send e = true)
                   (events_of (tasks env args) r "post")).
    { apply (post_sends args r). }
    assert (Hq : Forall (fun e => is_quiz e = true)
                   (events_of (tasks env args) r "quiz")).
    { apply (quiz_quizzes env args r). }
    destruct Hl as [->|[->|[->| ->]]]; cbn [flat_map]; rewrite ?app_nil_r.
    - rewrite <- (app_nil_r (flat_map _ early)) at 1 2 3 4 5.
      apply (kinds_in_stages _ [] [] [] Hp); constructor.
    - pose proof (kinds_in_stages _ _ [] [] Hp Hc) as Hk.
      rewrite !app_nil_r in Hk. apply Hk; constructor.
    - pose proof (kinds_in_stages _ _ _ [] Hp Hc Hs) as Hk.
      rewrite !app_nil_r in Hk. apply Hk; constructor.
    - by apply kinds_in_stages. }
  rewrite !trace_compose, !trace_send, !trace_quiz.
  assert (Hcompose : ran (postSettledInvoice env args schedule) "details"
                     = true ->
    forall d, snd (details env args
                     (results (postSettledInvoice env args schedule)))
              = Ok (VDetails d) ->
    fst (details env args (results (postSettledInvoice env args schedule)))
    <> []).
  { intros Hran d Hd.
    destruct (run_details_ends env args schedule Hran)
      as [Heq|(ev & res & _ & _ & Heq)]; rewrite Heq in *; [done|].
    discriminate. }
  assert (Hsend : ran (postSettledInvoice env args schedule) "post" = true ->
    (exists d, results (postSettledInvoice env args schedule) !! "details"
               = Some (VDetails d)) ->
    exists ev,
      fst (post args (results (postSettledInvoice env args schedule)))
      = [ev]).
  { intros Hran [d Hd].
    destruct (run_post_cases env args schedule Hran)
      as [[Hu _]|(d' & from & id & key & nodes & send & Hd' & Hfrom & Hid &
                  Hkey & Hnodes & Hsend)]; [congruence|].
    rewrite (post_details args _ d' from id key nodes send Hd' Hfrom Hid
               Hkey Hnodes Hsend). cbn [fst]. eauto. }
  split; [|split; [|split; [|split]]].
  - destruct (ran _ "details") eqn:Hran; [|cbn; lia].
    destruct (run_details_ends env args schedule Hran)
      as [->|(ev & res & _ & _ & ->)]; cbn; lia.
  - destruct (ran _ "post") eqn:Hran; [|cbn; lia].
    destruct (run_post_cases env args schedule Hran)
      as [[_ ->]|(d & Hrest)]; [cbn; lia|].
    destruct (Hsend eq_refl) as [ev ->]; [|cbn; lia].
    exists d. by destruct Hrest as (? & ? & ? & ? & ? & ? & _).
  - destruct (ran _ "quiz") eqn:Hran; [|cbn; lia].
    destruct (quiz_events env args
                (results (postSettledInvoice env args schedule)))
      as [->|(a & c & q & ->)]; cbn; lia.
  - destruct (ran _ "post") eqn:Hran; [|done]. intros Hne.
    destruct (run_post_ran env args schedule Hran) as (vd & Hvd & Hs & Hdr).
    rewrite Hdr.
    destruct (run_post_cases env args schedule Hran)
      as [[_ Heq]|(d & Hrest)]; [by rewrite Heq in Hne|].
    apply (Hcompose Hdr d).
    destruct Hrest as (? & ? & ? & ? & ? & Hd & _). congruence.
  - destruct (ran _ "quiz") eqn:Hran; [|done]. intros Hne.
    destruct (run_quiz_ran env args schedule Hran)
      as (vd & vp & Hvd & Hsd & Hvp & Hsp).
    destruct (run_post env args schedule vp Hvp) as [_ Hranp].
    rewrite Hranp.
    destruct (run_post_cases env args schedule Hranp)
      as [[Hu _]|(d & Hrest)].
    + by rewrite (quiz_nothing env args _ Hu) in Hne.
    + destruct (Hsend Hranp) as [ev ->]; [|done].
      exists d. by destruct Hrest as (? & ? & ? & ? & ? & ? & _).
Qed.

(** ** How far a run got *)

Section Progress.

Context (env : Env) (args : Args.t) (schedule : list string).

Local Abbreviation st := (postSettledInvoice env args schedule).

(** A task does not run while a key it waits for has no result. *)
Lemma not_reached k k' :
  results st !! k = None -> k ∈ waits_for k' -> ran st k' = false.
Proof.
  intros Hfresh Hw. destruct (ran st k') eqn:Hran; [|done].
  destruct (ran_waits env args schedule k' k Hran Hw) as [v Hv]. congruence.
Qed.

Lemma composed_once d :
  results st !! "details" = Some (VDetails d) ->
  exists c, List.filter is_compose (trace st) = [c].
Proof.
  intros Hd. destruct (run_details env args schedule _ Hd) as [Hs Hran].
  rewrite trace_compose, Hran.
  destruct (run_details_ends env args schedule Hran)
    as [Heq|(ev & res & _ & _ & Heq)]; rewrite Heq in *; [discriminate|].
  by exists ev.
Qed.

Lemma sent_once d :
  ran st "post" = true ->
  results st !! "details" = Some (VDetails d) ->
  exists uid text,
    List.filter is_send (trace st) = [EvSend uid text sendOptions].
Proof.
  intros Hran Hd. rewrite trace_send, Hran.
  destruct (run_post_cases env args schedule Hran)
    as [[Hu _]|(d' & from & id & key & nodes & send & Hd' & Hfrom & Hid &
                Hkey & Hnodes & Hsend)]; [congruence|].
  rewrite (post_details args _ d' from id key nodes send Hd' Hfrom Hid
             Hkey Hnodes Hsend). cbn [fst]. eauto.
Qed.

Lemma nothing_composed :
  ran st "details" = false \/ results st !! "details" = Some VUndefined ->
  List.filter is_compose (trace st) = [].
Proof.
  rewrite trace_compose. intros [->|Hu]; [done|].
  destruct (run_details env args schedule _ Hu) as [Hs Hran]. rewrite Hran.
  destruct (run_details_ends env args schedule Hran)
    as [Heq|(ev & res & _ & Hby & Heq)]; rewrite Heq in *; [done|].
  cbn in Hs. by destruct res.
Qed.

Lemma nothing_sent :
  ran st "post" = false \/ results st !! "details" = Some VUndefined ->
  List.filter is_send (trace st) = [].
Proof.
  rewrite trace_send. intros [->|Hu]; [done|].
  rewrite (post_nothing args _ Hu). by destruct (ran _ _).
Qed.

Lemma nothing_quizzed :
  ran st "quiz" = false \/ results st !! "details" = Some VUndefined ->
  List.filter is_quiz (trace st) = [].
Proof.
  rewrite trace_quiz. intros [->|Hu]; [done|].
  rewrite (quiz_nothing env args _ Hu). by destruct (ran _ _).
Qed.

End Progress.

(** X15. A call that resolved has told the user about the payment exactly
    when the invoice was confirmed and no other controlled node had paid
    it: then one composer was called and one text message was sent, with
    the MarkdownV2 options; otherwise no composer was called and neither a
    text message nor a quiz was sent. *)
Theorem resolved_call_notifies env args schedule invoice key nodes :
  Args.invoice args = Some invoice ->
  Args.key args = Some key ->
  Args.nodes args = Some nodes ->
  settled env args schedule = Resolved ->
  let t := trace (postSettledInvoice env args schedule) in
  if Invoice.is_confirmed invoice
     && negb (transfer_probe env key nodes (Invoice.id invoice))
  then
    (exists c, List.filter is_compose t = [c]) /\
    (exists uid text, List.filter is_send t = [EvSend uid text sendOptions])
  else
    List.filter is_compose t = [] /\ List.filter is_send t = [] /\
    List.filter is_quiz t = [].
Proof.
  intros Hinvoice Hkey Hnodes Hres t. subst t.
  destruct (resolved_completed env args schedule "details" Hres)
    as [vd Hvd]; [elem_of_literal|].
  destruct (resolved_completed env args schedule "post" Hres)
    as [vp Hvp]; [elem_of_literal|].
  destruct (run_details env args schedule vd Hvd) as [Hsd Hrand].
  destruct (run_post env args schedule vp Hvp) as [_ Hranp].
  destruct (run_checks env args schedule Hrand)
    as (_ & _ & _ & _ & _ & _ & _ & _ & _ & _ & _ & _ & Hv).
  destruct (run_validated env args schedule Hv)
    as (from & id & invoice' & key' & lnd & nodes' & quizfn & send &
        _ & _ & _ & _ & Hlnd & _).
  assert (Hnone : vd = VUndefined ->
    List.filter is_compose (trace (postSettledInvoice env args schedule))
    = [] /\
    List.filter is_send (trace (postSettledInvoice env args schedule))
    = [] /\
    List.filter is_quiz (trace (postSettledInvoice env args schedule))
    = []).
  { intros ->. split; [|split].
    - apply nothing_composed. by right.
    - apply nothing_sent. by right.
    - apply nothing_quizzed. by right. }
  destruct (Invoice.is_confirmed invoice) eqn:Hc; cbn [andb].
  - destruct (details_composer env args schedule invoice lnd key nodes
                Hinvoice Hc Hlnd Hkey Hnodes Hrand) as (via & _ & Hd).
    rewrite Hd in Hsd.
    destruct (transfer_probe env key nodes (Invoice.id invoice));
      cbn [negb].
    + apply Hnone. cbn in Hsd. congruence.
    + assert (Hshape : exists d, vd = VDetails d).
      { revert Hsd. unfold precedence.
        destruct (balanced_open_proposal _ _) as [p|];
          [|destruct (rebalance_probe _ _ _) as [payment|]];
          cbn [composer]; unfold call;
          match goal with
          | |- context [match ?x with inl _ => _ | inr _ => _ end] =>
              destruct x as [e|d]
          end; cbn; intros [= <-]; eauto. }
      destruct Hshape as [d ->]. split.
      * by apply (composed_once env args schedule d).
      * by apply (sent_once env args schedule d).
  - apply Hnone.
    pose proof (unconfirmed_details env args invoice Hinvoice Hc
                  (results (postSettledInvoice env args schedule))) as Hd.
    rewrite Hd in Hsd. cbn in Hsd. congruence.
Qed.

Lemma resolved_call_notifies_witness :
  (exists c,
     List.filter is_compose
       (trace (postSettledInvoice Scenario.env Scenario.args source_order))
     = [c]) /\
  (exists uid text,
     List.filter is_send
       (trace (postSettledInvoice Scenario.env Scenario.args source_order))
     = [EvSend uid text sendOptions]).
Proof.
  apply (resolved_call_notifies Scenario.env Scenario.args source_order
           Scenario.invoice Scenario.me Scenario.two_nodes);
    vm_compute; reflexivity.
Defined.

(** X16. How far a rejected call got.  A call that failed at [validate] or
    [getNodes] called no composer and sent nothing; one that failed at
    [details] made the one composer call that failed and sent nothing; one
    that failed at [post] made one composer call and the one send that
    failed, and no quiz; one that failed at [quiz] had sent its one text
    message before the one quiz that failed. *)
Theorem rejected_call_progress env args schedule k f :
  failed_task (postSettledInvoice env args schedule) = Some (k, f) ->
  let t := trace (postSettledInvoice env args schedule) in
  ((k = "validate" \/ k = "getNodes") /\
   List.filter is_compose t = [] /\ List.filter is_send t = [] /\
   List.filter is_quiz t = []) \/
  (k = "details" /\
   length (List.filter is_compose t) = 1%nat /\
   List.filter is_send t = [] /\ List.filter is_quiz t = []) \/
  (k = "post" /\
   length (List.filter is_compose t) = 1%nat /\
   length (List.filter is_send t) = 1%nat /\ List.filter is_quiz t = []) \/
  (k = "quiz" /\
   length (List.filter is_compose t) = 1%nat /\
   length (List.filter is_send t) = 1%nat /\
   length (List.filter is_quiz t) = 1%nat).
Proof.
  intros Hf t. subst t.
  pose proof (run_failed_fresh env args schedule k f Hf) as Hfresh.
  pose proof (ran_failed _ _ _ Hf) as Hran.
  destruct (run_failed env args schedule k f Hf)
    as (deps & body & Ha & _ & Hout).
  pose proof (failable env args schedule k f Hf) as Hk.
  repeat (apply elem_of_cons in Hk as [->|Hk]);
    [..|by apply elem_of_nil in Hk];
    cbn in Ha; injection Ha as <- <-.
  - left. split; [by left|]. split; [|split].
    + apply nothing_composed. left.
      apply (not_reached env args schedule "validate"); [done|].
      cbn. elem_of_literal.
    + apply nothing_sent. left.
      apply (not_reached env args schedule "validate"); [done|].
      cbn. elem_of_literal.
    + apply nothing_quizzed. left.
      apply (not_reached env args schedule "validate"); [done|].
      cbn. elem_of_literal.
  - left. split; [by right|]. split; [|split].
    + apply nothing_composed. left.
      apply (not_reached env args schedule "getNodes"); [done|].
      cbn. elem_of_literal.
    + apply nothing_sent. left.
      apply (not_reached env args schedule "getNodes"); [done|].
      cbn. elem_of_literal.
    + apply nothing_quizzed. left.
      apply (not_reached env args schedule "getNodes"); [done|].
      cbn. elem_of_literal.
  - right; left. split; [done|]. split; [|split].
    + rewrite trace_compose, Hran.
      destruct (run_details_ends env args schedule Hran)
        as [Heq|(ev & res & _ & _ & Heq)]; rewrite Heq in *; [done|].
      done.
    + apply nothing_sent. left.
      apply (not_reached env args schedule "details"); [done|].
      cbn. elem_of_literal.
    + apply nothing_quizzed. left.
      apply (not_reached env args schedule "details"); [done|].
      cbn. elem_of_literal.
  - right; right; left. split; [done|].
    destruct (run_post_cases env args schedule Hran)
      as [[_ Heq]|(d & from & id & key & nodes & send & Hd & _)];
      [by rewrite Heq in Hout|].
    destruct (composed_once env args schedule d Hd) as [c ->].
    destruct (sent_once env args schedule d Hran Hd) as (uid & text & ->).
    split; [done|]. split; [done|].
    apply nothing_quizzed. left.
    apply (not_reached env args schedule "post"); [done|].
    cbn. elem_of_literal.
  - right; right; right. split; [done|].
    destruct (run_quiz_ran env args schedule Hran)
      as (vd & vp & Hvd & _ & Hvp & _).
    destruct (run_post env args schedule vp Hvp) as [_ Hranp].
    destruct (run_post_cases env args schedule Hranp)
      as [[Hu _]|(d & from & id & key & nodes & send & Hd & _)].
    { by rewrite (quiz_nothing env args _ Hu) in Hout. }
    destruct (composed_once env args schedule d Hd) as [c ->].
    destruct (sent_once env args schedule d Hranp Hd) as (uid & text & ->).
    split; [done|]. split; [done|].
    rewrite trace_quiz, Hran.
    destruct (quiz_events env args
                (results (postSettledInvoice env args schedule)))
      as [Hnil|(a & c' & q & ->)]; [|done].
    destruct (run_quiz_ends env args schedule Hran)
      as (quizfn & _ & [Heq|(a & c' & q & Heq)]); rewrite Heq in *; done.
Qed.

Lemma rejected_call_progress_witness :
  List.filter is_compose
    (trace (postSettledInvoice Scenario.looped Scenario.args source_order))
  = [] /\
  List.filter is_send
    (trace (postSettledInvoice Scenario.looped Scenario.args source_order))
  = [].
Proof.
  destruct (rejected_call_progress Scenario.looped Scenario.args source_order
              "getNodes" (Crashed "TypeError"))
    as [(_ & Hc & Hs & _)|[[Hk _]|[[Hk _]|[Hk _]]]]; try discriminate Hk.
  - vm_compute. reflexivity.
  - split; [exact Hc|exact Hs].
Defined.
